(** * Integrated-information core: a shallow embedding of
      [cyphi/subsystem.py] and [cyphi/compute.py]

    The development follows the two Python modules.  Numbers that the
    program holds in floating point are idealised as rationals ([Q]),
    extended by the two infinities where the code uses [float('inf')]
    and [float('-inf')]; exceptions are explicit results; Python sets are
    [gset]s; numpy arrays over binary nodes are nested one- and two-cell
    dimensions; a state vector is an array of integers with its element
    type. *)

From Stdlib Require Import ZArith QArith Lqa List Strings.Byte.
From stdpp Require Import base decidable option list strings gmap.

Local Open Scope nat_scope.

(** ** Python values *)

(** A Python [float]: a finite value or one of the two infinities. *)
Inductive pyfloat : Type :=
  | NegInf
  | Fin (q : Q)
  | PosInf.

Definition Qltb (x y : Q) : bool := negb (Qle_bool y x).

(** [x < y] on floats. *)
Definition flt (x y : pyfloat) : bool :=
  match x, y with
  | NegInf, NegInf => false
  | NegInf, _ => true
  | Fin _, NegInf => false
  | Fin a, Fin b => Qltb a b
  | Fin _, PosInf => true
  | PosInf, _ => false
  end.

(** [x > y] on floats. *)
Definition fgt (x y : pyfloat) : bool := flt y x.

(** [x == y] on floats. *)
Definition feq (x y : pyfloat) : bool :=
  match x, y with
  | NegInf, NegInf => true
  | Fin a, Fin b => Qeq_bool a b
  | PosInf, PosInf => true
  | _, _ => false
  end.

(** The exceptions the modelled code can raise. *)
Inductive exn : Type :=
  | ValueError
  | TypeError
  | IndexError
  | ZeroDivisionError.

Inductive result (A : Type) : Type :=
  | Ok (a : A)
  | Raise (e : exn).
Arguments Ok {A} a.
Arguments Raise {A} e.

Definition rbind {A B} (m : result A) (k : A -> result B) : result B :=
  match m with
  | Ok a => k a
  | Raise e => Raise e
  end.

Global Instance result_ret : MRet result := fun A a => Ok a.
Global Instance result_bind : MBind result := fun A B k m => rbind m k.

Global Instance Q_eq_dec : EqDecision Q.
Proof. solve_decision. Defined.

Global Instance pyfloat_eq_dec : EqDecision pyfloat.
Proof. solve_decision. Defined.

(** ** numpy arrays over binary nodes

    Every array the repertoire code builds has one axis per network node,
    of length 1 or 2.  [One t] is an axis of length 1, [Two t0 t1] an axis
    of length 2 (cell 0, cell 1), [Leaf q] a cell. *)
Inductive tensor : Type :=
  | Leaf (q : Q)
  | One (t : tensor)
  | Two (t0 t1 : tensor).

Global Instance tensor_eq_dec : EqDecision tensor.
Proof. solve_decision. Defined.

(** ** Data model *)

(** A node is represented by its index in the network's node list
    ([node.index]); its [tpm] attribute is read from the network. *)
Definition Node : Type := nat.

Definition index (n : Node) : nat := n.

Record Network : Type := mkNetwork {
  size : nat;
  node_tpms : list tensor;
  connectivity_matrix : list (list Z)
}.

Global Instance Network_eq_dec : EqDecision Network.
Proof. solve_decision. Defined.

(** [network.nodes] *)
Definition network_nodes (net : Network) : list Node := seq 0 (size net).

(** [a_cut], [a_part], [a_mice] of subsystem.py *)
Record a_cut : Type := mk_cut {
  severed : list Node;
  intact : list Node
}.

Record a_part : Type := mk_part {
  part_mechanism : list Node;
  part_purview : list Node
}.

Record a_mice : Type := mk_mice {
  mice_purview : option (list Node);
  mice_phi : pyfloat
}.

Global Instance a_part_eq_dec : EqDecision a_part.
Proof. solve_decision. Defined.

Global Instance a_mice_eq_dec : EqDecision a_mice.
Proof. solve_decision. Defined.

(** A concept as compute.py builds it:
    [Concept(mechanism=..., phi=..., cause=..., effect=...)]. *)
Record Concept : Type := mkConcept {
  concept_mechanism : list Node;
  concept_phi : Q;
  concept_cause : option a_mice;
  concept_effect : option a_mice
}.

(** Modelled from the spec: [Concept.__eq__] (module [models]) is not among
    the sources; concepts are pure computed values compared by content. *)
Global Instance Concept_eq_dec : EqDecision Concept.
Proof. solve_decision. Defined.

(** The element type of an array of integers: numpy's integers of 4 and
    of 8 bytes. *)
Inductive dtype : Type :=
  | int32
  | int64.

Global Instance dtype_eq_dec : EqDecision dtype.
Proof. solve_decision. Defined.

(** A state vector, a one-dimensional [np.ndarray] of integers: its
    element type and its elements.  Where an array is read as a sequence
    (indexing, length) only the elements count. *)
Record ndarray : Type := np_array {
  array_dtype : dtype;
  tolist :> list Z
}.

Global Instance ndarray_eq_dec : EqDecision ndarray.
Proof. solve_decision. Defined.

(** The subsystem.  The first six attributes are those set by
    [Subsystem.__init__]; [null_concept] and [_mice_cache] are the further
    attributes that compute.py reads from a subsystem. *)
Record Subsystem : Type := mkSubsystem {
  nodes : list Node;
  current_state : ndarray;
  past_state : ndarray;
  network : Network;
  external_nodes : gset Node;
  _cut : a_cut;
  null_concept : Concept;
  _mice_cache : list (list Node * a_mice)
}.

(** [Subsystem.__init__]: the cut starts with nothing severed. *)
Definition Subsystem_init (ns : list Node) (cs ps : ndarray) (net : Network)
    (null : Concept) : Subsystem :=
  {| nodes := ns;
     current_state := cs;
     past_state := ps;
     network := net;
     external_nodes := list_to_set (network_nodes net) ∖ list_to_set ns;
     _cut := mk_cut [] ns;
     null_concept := null;
     _mice_cache := [] |}.

Definition set_cut (s : Subsystem) (c : a_cut) : Subsystem :=
  {| nodes := nodes s;
     current_state := current_state s;
     past_state := past_state s;
     network := network s;
     external_nodes := external_nodes s;
     _cut := c;
     null_concept := null_concept s;
     _mice_cache := _mice_cache s |}.

(** [np.array_equal] on state vectors: the same length and the same
    elements; the element types are not compared. *)
Definition array_equal (a b : ndarray) : bool :=
  bool_decide (tolist a = tolist b).

(** [Subsystem.__eq__] *)
Definition Subsystem_eq (self other : Subsystem) : bool :=
  bool_decide (list_to_set (nodes self) =@{gset Node} list_to_set (nodes other))
  && array_equal (current_state self) (current_state other)
  && array_equal (past_state self) (past_state other)
  && bool_decide (network self = network other).

(** [Subsystem.__ne__] *)
Definition Subsystem_ne (self other : Subsystem) : bool :=
  negb (Subsystem_eq self other).

(** The tuple that [Subsystem.__hash__] hashes. *)
Definition hash_key : Type :=
  (gset Node * list byte * list byte * Network)%type.

(** The number of bytes of an element. *)
Definition itemsize (d : dtype) : nat :=
  match d with
  | int32 => 4
  | int64 => 8
  end.

(** The [n] bytes of an integer in two's complement, the least
    significant first. *)
Fixpoint le_bytes (n : nat) (z : Z) : list byte :=
  match n with
  | O => []
  | S n' =>
      match Byte.of_N (Z.to_N (z mod 256)) with
      | Some b => b :: le_bytes n' (z / 256)
      | None => le_bytes n' (z / 256)
      end
  end.

(** [ndarray.tostring()] as numpy lays an array of integers out on a
    little-endian machine: the bytes of the elements one after the other,
    [itemsize] bytes for each. *)
Definition ndarray_tostring (a : ndarray) : list byte :=
  x ← tolist a; le_bytes (itemsize (array_dtype a)) x.

Section Hashing.
(** [ndarray.tostring] and the builtin [hash] on tuples. *)
Variable tostring : ndarray -> list byte.
Variable py_hash : hash_key -> Z.

(** [Subsystem.__hash__] *)
Definition Subsystem_hash (self : Subsystem) : Z :=
  py_hash (list_to_set (nodes self), tostring (current_state self),
           tostring (past_state self), network self).
End Hashing.

(** An argument of [cut]: a single node or a tuple of nodes. *)
Inductive cut_arg : Type :=
  | Single (n : Node)
  | Tuple (ns : list Node).

(** [if not isinstance(x, type(())): x = (x,)] *)
Definition as_tuple (a : cut_arg) : list Node :=
  match a with
  | Single n => [n]
  | Tuple ns => ns
  end.

(** [Subsystem.cut]: the outcome and the subsystem after the call. *)
Definition cut (self : Subsystem) (severed_arg intact_arg : cut_arg)
    : result unit * Subsystem :=
  let severed := as_tuple severed_arg in
  let intact := as_tuple intact_arg in
  if negb ((length (nodes self) =? length (severed ++ intact))
           && bool_decide (list_to_set (nodes self)
                           =@{gset Node} list_to_set (severed ++ intact)))
  then (Raise ValueError, self)
  else (Ok tt, set_cut self (mk_cut severed intact)).

(** ** RepertoireEngine: array operations *)

(** Elementwise application of a function. *)
Fixpoint tmap (f : Q -> Q) (t : tensor) : tensor :=
  match t with
  | Leaf q => Leaf (f q)
  | One t' => One (tmap f t')
  | Two t0 t1 => Two (tmap f t0) (tmap f t1)
  end.

(** A binary elementwise operation with numpy broadcasting: an axis of
    length 1 is stretched over an axis of length 2, a cell over an array. *)
Fixpoint tzip (f : Q -> Q -> Q) (a b : tensor) {struct a} : tensor :=
  match a with
  | Leaf x => tmap (f x) b
  | One a' =>
      match b with
      | Leaf y => One (tmap (fun x => f x y) a')
      | One b' => One (tzip f a' b')
      | Two b0 b1 => Two (tzip f a' b0) (tzip f a' b1)
      end
  | Two a0 a1 =>
      match b with
      | Leaf y => Two (tmap (fun x => f x y) a0) (tmap (fun x => f x y) a1)
      | One b' => Two (tzip f a0 b') (tzip f a1 b')
      | Two b0 b1 => Two (tzip f a0 b0) (tzip f a1 b1)
      end
  end.

(** [np.multiply] *)
Definition np_multiply (a b : tensor) : tensor := tzip Qmult a b.

(** [np.sum] over all cells. *)
Fixpoint np_sum (t : tensor) : Q :=
  match t with
  | Leaf q => q
  | One t' => np_sum t'
  | Two t0 t1 => (np_sum t0 + np_sum t1)%Q
  end.

(** [np.ones(shape)]; [true] is an axis of length 2, [false] of length 1. *)
Fixpoint np_ones (shape : list bool) : tensor :=
  match shape with
  | [] => Leaf 1%Q
  | true :: sh => Two (np_ones sh) (np_ones sh)
  | false :: sh => One (np_ones sh)
  end.

(** [np.divide(t, d)]; a zero divisor is made an error outcome. *)
Definition np_divide (t : tensor) (d : Q) : result tensor :=
  if Qeq_bool d 0 then Raise ZeroDivisionError
  else Ok (tmap (fun q => (q / d)%Q) t).

(** Number of axes. *)
Fixpoint ndim (t : tensor) : nat :=
  match t with
  | Leaf _ => 0
  | One t' => S (ndim t')
  | Two t0 _ => S (ndim t0)
  end.

(** [t[:, ..., [v], ..., :]] with the list index [[v]] on axis [k]: the axis
    is kept with length 1.  numpy accepts [-len <= v < len]. *)
Fixpoint take_axis (k : nat) (v : Z) (t : tensor) : result tensor :=
  match t with
  | Leaf _ => Raise IndexError
  | One t' =>
      match k with
      | O => if (v =? 0)%Z || (v =? -1)%Z then Ok (One t')
             else Raise IndexError
      | S k' => r ← take_axis k' v t'; Ok (One r)
      end
  | Two t0 t1 =>
      match k with
      | O => if (v =? 0)%Z || (v =? -2)%Z then Ok (One t0)
             else if (v =? 1)%Z || (v =? -1)%Z then Ok (One t1)
             else Raise IndexError
      | S k' => r0 ← take_axis k' v t0;
                r1 ← take_axis k' v t1;
                Ok (Two r0 r1)
      end
  end.

(** Indexing with [n] indices, all full slices but the one on axis [k]. *)
Definition getitem (n k : nat) (v : Z) (t : tensor) : result tensor :=
  if ndim t <? n then Raise IndexError else take_axis k v t.

(** Modelled from the spec: [utils.marginalize_out] is not among the
    sources.  Marginalizing a node out averages the array over that node's
    axis and keeps the axis with length 1 (as node.py does with
    [tpm.sum(i, keepdims=True) / 2]). *)
Fixpoint marginalize_out (k : nat) (t : tensor) : tensor :=
  match t with
  | Leaf q => Leaf q
  | One t' =>
      match k with
      | O => One t'
      | S k' => One (marginalize_out k' t')
      end
  | Two t0 t1 =>
      match k with
      | O => One (tzip (fun x y => ((x + y) / 2)%Q) t0 t1)
      | S k' => Two (marginalize_out k' t0) (marginalize_out k' t1)
      end
  end.

(** The shape with an axis of length 2 for each network node in [ns]. *)
Definition purview_shape (ns : list Node) (net : Network) : list bool :=
  fmap (fun node => bool_decide (node ∈ ns)) (network_nodes net).

(** Modelled from the spec: [utils.max_entropy_distribution] is not among
    the sources.  The maximum-entropy distribution of a purview is the
    uniform distribution over the purview's states, an array with an axis
    of length 2 for each purview node and of length 1 for the others. *)
Definition max_entropy_distribution (ns : list Node) (net : Network)
    : tensor :=
  let shape := purview_shape ns net in
  let cells := np_sum (np_ones shape) in
  tmap (fun q => (q / cells)%Q) (np_ones shape).

(** What a repertoire method returns: the Python integer [1] or an array. *)
Inductive repertoire : Type :=
  | Scalar (z : Z)
  | Array (t : tensor).

Global Instance repertoire_eq_dec : EqDecision repertoire.
Proof. solve_decision. Defined.

(** The product [*] of two repertoires. *)
Definition repertoire_mul (a b : repertoire) : repertoire :=
  match a, b with
  | Scalar x, Scalar y => Scalar (x * y)
  | Scalar x, Array t => Array (tmap (Qmult (inject_Z x)) t)
  | Array t, Scalar y => Array (tmap (fun q => (q * inject_Z y)%Q) t)
  | Array t, Array u => Array (np_multiply t u)
  end.

(** A loop whose body can raise. *)
Fixpoint rfold {A B : Type} (f : B -> A -> result B) (l : list A) (b : B)
    : result B :=
  match l with
  | [] => Ok b
  | a :: l' => b' ← f b a; rfold f l' b'
  end.

(** [seq[i]] for a non-negative index. *)
Definition getindex {A : Type} (l : list A) (i : nat) : result A :=
  match l !! i with
  | Some a => Ok a
  | None => Raise IndexError
  end.

(** ** RepertoireEngine: the cause repertoire *)

Module RepertoireEngine.

(** The sets computed in the body of the loop over the mechanism. *)
Definition non_purview_inputs (self : Subsystem) (purview : list Node)
    : gset Node :=
  list_to_set (network_nodes (network self)) ∖ list_to_set purview.

Definition severed_inputs (self : Subsystem) (mechanism_node : Node)
    : gset Node :=
  list_to_set
    (filter (fun n => n ∈ severed (_cut self)
                      ∧ mechanism_node ∈ intact (_cut self))
            (network_nodes (network self))).

Definition boundary_inputs (self : Subsystem) (purview : list Node)
    (mechanism_node : Node) : gset Node :=
  (non_purview_inputs self purview ∪ severed_inputs self mechanism_node)
    ∖ list_to_set (nodes self).

Definition marginal_inputs (self : Subsystem) (purview : list Node)
    (mechanism_node : Node) : gset Node :=
  (non_purview_inputs self purview ∪ severed_inputs self mechanism_node)
    ∖ boundary_inputs self purview mechanism_node.

(** The body of the loop over the boundary inputs: keep the cells of this
    node's axis that correspond to its past state. *)
Definition condition_on_past (self : Subsystem) (t : tensor) (node : Node)
    : result tensor :=
  past ← getindex (past_state self) (index node);
  getitem (size (network self)) (index node) past t.

(** One pass of the loop over the mechanism, up to the product: the node's
    table conditioned on its state, on the boundary inputs' past states,
    and with the marginal inputs averaged out. *)
Definition conditioned_tpm (self : Subsystem) (purview : list Node)
    (mechanism_node : Node) : result tensor :=
  state ← getindex (current_state self) (index mechanism_node);
  tpm ← getindex (node_tpms (network self)) (index mechanism_node);
  conditioned ←
    rfold (condition_on_past self)
          (elements (boundary_inputs self purview mechanism_node))
          (if (state =? 1)%Z then tpm else tmap (fun q => (1 - q)%Q) tpm);
  Ok (foldl (fun t node => marginalize_out (index node) t)
            conditioned
            (elements (marginal_inputs self purview mechanism_node))).

(** The body of the loop over the mechanism. *)
Definition cjd_step (self : Subsystem) (purview : list Node) (cjd : tensor)
    (mechanism_node : Node) : result tensor :=
  t ← conditioned_tpm self purview mechanism_node;
  Ok (np_multiply cjd t).

(** The conditional joint distribution before normalization. *)
Definition cause_cjd (self : Subsystem) (mechanism purview : list Node)
    : result tensor :=
  rfold (cjd_step self purview)
        mechanism
        (np_ones (purview_shape purview (network self))).

(** [Subsystem.cause_repertoire] *)
Definition cause_repertoire (self : Subsystem) (mechanism purview : list Node)
    : result repertoire :=
  if length mechanism =? 0 then
    Ok (Array (max_entropy_distribution purview (network self)))
  else if length purview =? 0 then
    Ok (Scalar 1)
  else
    cjd ← cause_cjd self mechanism purview;
    let cjd_sum := np_sum cjd in
    if negb (Qeq_bool cjd_sum 0) then
      cjd' ← np_divide cjd cjd_sum; Ok (Array cjd')
    else Ok (Array cjd).

(** [Subsystem.unconstrained_cause_repertoire] *)
Definition unconstrained_cause_repertoire (self : Subsystem)
    (purview : list Node) : result repertoire :=
  cause_repertoire self [] purview.

End RepertoireEngine.

(** ** Subsets and bipartitions *)

(** [itertools.combinations(s, r)] *)
Fixpoint combinations (s : list Node) (r : nat) {struct s}
    : list (list Node) :=
  match r, s with
  | O, _ => [[]]
  | S _, [] => []
  | S r', x :: s' => fmap (cons x) (combinations s' r') ++ combinations s' r
  end.

(** Modelled from the spec: [utils.powerset] is not among the sources.  It
    enumerates every subset of its argument, the empty one included, here
    by increasing size ([chain] of [combinations(s, r)] for
    [r = 0 .. len(s)]). *)
Definition powerset (s : list Node) : list (list Node) :=
  seq 0 (S (length s)) ≫= combinations s.

(** All ordered splits of a list into two sublists. *)
Fixpoint splits (l : list Node) : list (list Node * list Node) :=
  match l with
  | [] => [([], [])]
  | x :: l' =>
      splits l' ≫= fun ab => [(ab.1, x :: ab.2); (x :: ab.1, ab.2)]
  end.

(** Modelled from the spec: [utils.bipartition] is not among the sources.
    This enumeration lists every split of a list into two halves once, up
    to exchanging the halves, starting with the trivial one (nothing,
    everything).  The search below is stated for an arbitrary enumeration;
    this one serves as a concrete instance. *)
Definition bipartition_model (l : list Node) : list (list Node * list Node) :=
  match l with
  | [] => [([], [])]
  | x :: l' => fmap (fun ab => (ab.1, x :: ab.2)) (splits l')
  end.

(** ** PartitionSearch and MICESearch (subsystem.py) *)

Record a_mip : Type := mk_mip {
  mip_partition : a_part * a_part;
  mip_repertoire : repertoire;
  mip_difference : Q
}.

(** [x[::-1]] on a pair. *)
Definition reversed {A : Type} (x : A * A) : A * A := (x.2, x.1).

(** The threshold below which phi is considered to be zero: [10**-10]. *)
Definition EPSILON : Q := 1 # 10000000000.

(** [len(x)] where [x] may be [None]. *)
Definition py_len {A : Type} (x : option (list A)) : result nat :=
  match x with
  | Some l => Ok (length l)
  | None => Raise TypeError
  end.

Section MechanismSearch.
(** [utils.bipartition] and [utils.emd] are not among the sources. *)
Variable bipartition : list Node -> list (list Node * list Node).
Variable emd : repertoire -> repertoire -> Q.
(** The two repertoire methods.  The search is analysed for repertoire
    computations that return a value. *)
Variable cause_repertoire effect_repertoire :
  Subsystem -> list Node -> list Node -> repertoire.

(** The test [valid_partition] of [mip_bipartition]. *)
Definition valid_partition (numerators denominators : list Node * list Node)
    : bool :=
  bool_decide (list_to_set numerators.1 ∩ list_to_set denominators.1
               =@{gset Node} ∅)
  && bool_decide (list_to_set numerators.2 ∩ list_to_set denominators.2
                  =@{gset Node} ∅)
  && (0 <? length numerators.1 + length denominators.1)
  && (0 <? length numerators.2 + length denominators.2).

(** [Subsystem.mip_bipartition]: the pairs in the order they are
    yielded. *)
Definition mip_bipartition (mechanism purview : list Node)
    : list (a_part * a_part) :=
  let purview_bipartitions := bipartition purview in
  denominators ← purview_bipartitions ++ fmap reversed purview_bipartitions;
  numerators ← bipartition mechanism;
  if valid_partition numerators denominators
  then [(mk_part numerators.1 denominators.1,
         mk_part numerators.2 denominators.2)]
  else [].

(** The partitioned repertoire and its distance for one candidate. *)
Definition partitioned_repertoire
    (get_repertoire : list Node -> list Node -> repertoire)
    (parts : a_part * a_part) : repertoire :=
  repertoire_mul
    (get_repertoire (part_mechanism parts.1) (part_purview parts.1))
    (get_repertoire (part_mechanism parts.2) (part_purview parts.2)).

(** One iteration of the loop of [find_mip], as the loop prints it. *)
Definition iteration
    (get_repertoire : list Node -> list Node -> repertoire)
    (unpartitioned_repertoire : repertoire) (parts : a_part * a_part)
    : a_mip :=
  let partitioned := partitioned_repertoire get_repertoire parts in
  mk_mip parts partitioned (emd unpartitioned_repertoire partitioned).

(** The loop of [find_mip] over the candidates still to come, from the
    current [mip] and [difference_min]; the second component lists the
    iterations performed. *)
Fixpoint find_mip_loop
    (get_repertoire : list Node -> list Node -> repertoire)
    (unpartitioned_repertoire : repertoire)
    (candidates : list (a_part * a_part))
    (mip : option a_mip) (difference_min : pyfloat)
    : option a_mip * list a_mip :=
  match candidates with
  | [] => (mip, [])
  | parts :: rest =>
      let it := iteration get_repertoire unpartitioned_repertoire parts in
      let difference := mip_difference it in
      if Qltb difference EPSILON then (None, [it])
      else
        let out :=
          if flt (Fin difference) difference_min
          then find_mip_loop get_repertoire unpartitioned_repertoire rest
                 (Some it) (Fin difference)
          else find_mip_loop get_repertoire unpartitioned_repertoire rest
                 mip difference_min in
        (out.1, it :: out.2)
  end.

(** The choice of the repertoire method by [direction]. *)
Definition choose_repertoire (self : Subsystem) (direction : string)
    : result (list Node -> list Node -> repertoire) :=
  if String.eqb direction "past" then Ok (cause_repertoire self)
  else if String.eqb direction "future" then Ok (effect_repertoire self)
  else Raise ValueError.

(** [Subsystem.find_mip]: the MIP (or [None]) and the iterations run. *)
Definition find_mip (self : Subsystem) (direction : string)
    (mechanism purview : list Node) : result (option a_mip * list a_mip) :=
  get_repertoire ← choose_repertoire self direction;
  let unpartitioned_repertoire := get_repertoire mechanism purview in
  Ok (find_mip_loop get_repertoire unpartitioned_repertoire
        (mip_bipartition mechanism purview) None PosInf).

Definition mip_past (self : Subsystem) (mechanism purview : list Node) :=
  find_mip self "past" mechanism purview.

Definition mip_future (self : Subsystem) (mechanism purview : list Node) :=
  find_mip self "future" mechanism purview.

(** The test of the loop of [find_mice]:
    [phi > phi_max or (phi == phi_max and
                       len(purview) > len(maximal_purview))]. *)
Definition takes_over (phi phi_max : pyfloat) (purview : list Node)
    (maximal_purview : option (list Node)) : result bool :=
  if fgt phi phi_max then Ok true
  else if feq phi phi_max then
    n ← py_len maximal_purview;
    Ok (n <? length purview)
  else Ok false.

(** The loop of [find_mice] over the purviews still to come. *)
Fixpoint find_mice_loop
    (find_mip' : list Node -> list Node
                 -> result (option a_mip * list a_mip))
    (mechanism : list Node) (purviews : list (list Node))
    (phi_max : pyfloat) (maximal_purview : option (list Node))
    : result (pyfloat * option (list Node)) :=
  match purviews with
  | [] => Ok (phi_max, maximal_purview)
  | purview :: rest =>
      out ← find_mip' mechanism purview;
      match out.1 with
      | Some mip =>
          let phi := Fin (mip_difference mip) in
          take ← takes_over phi phi_max purview maximal_purview;
          if (take : bool)
          then find_mice_loop find_mip' mechanism rest phi (Some purview)
          else find_mice_loop find_mip' mechanism rest
                 phi_max maximal_purview
      | None =>
          find_mice_loop find_mip' mechanism rest phi_max maximal_purview
      end
  end.

(** [Subsystem.find_mice] *)
Definition find_mice (self : Subsystem) (direction : string)
    (mechanism : list Node) : result a_mice :=
  find_mip' ← (if String.eqb direction "past" then Ok (mip_past self)
               else if String.eqb direction "future"
                    then Ok (mip_future self)
                    else Raise ValueError);
  st ← find_mice_loop find_mip' mechanism (powerset (nodes self))
         NegInf None;
  Ok (mk_mice st.2 st.1).

Definition core_cause (self : Subsystem) (mechanism : list Node) :=
  find_mice self "past" mechanism.

Definition core_effect (self : Subsystem) (mechanism : list Node) :=
  find_mice self "future" mechanism.
End MechanismSearch.

(** ** Concepts, constellations and their distance (compute.py) *)

(** The builtin [sum] on a list of numbers. *)
Definition py_sum (l : list Q) : Q := foldl Qplus 0%Q l.

(** [l[-1] = x] *)
Definition set_last (l : list Q) (x : Q) : result (list Q) :=
  match l with
  | [] => Raise IndexError
  | _ => Ok (<[length l - 1 := x]> l)
  end.

Section ConstellationEngine.
(** [utils.hamming_emd], [utils.emd] and the methods of [Concept] that
    expand its repertoires are not among the sources. *)
Variable hamming_emd : tensor -> tensor -> Q.
Variable expand_cause_repertoire expand_effect_repertoire :
  Concept -> tensor.
Variable emd : list Q -> list Q -> list (list Q) -> Q.

(** [concept_distance] *)
Definition concept_distance (c1 c2 : Concept) : Q :=
  py_sum [hamming_emd (expand_cause_repertoire c1)
                      (expand_cause_repertoire c2);
          hamming_emd (expand_effect_repertoire c1)
                      (expand_effect_repertoire c2)].

(** [_constellation_distance_simple] *)
Definition _constellation_distance_simple (C1 C2 : list Concept)
    (subsystem : Subsystem) : Q :=
  let swapped := length C1 <? length C2 in
  let C1' := if swapped then C2 else C1 in
  let C2' := if swapped then C1 else C2 in
  let destroyed := filter (fun c => c ∉ C2') C1' in
  py_sum (fmap (fun c => (concept_phi c
                         * concept_distance c (null_concept subsystem))%Q)
              destroyed).

(** The concepts over which [_constellation_distance_emd] builds its two
    distributions. *)
Definition all_concepts (C1 C2 unique_C1 unique_C2 : list Concept)
    (subsystem : Subsystem) : list Concept :=
  let shared_concepts := filter (fun c => c ∈ C2) C1 in
  shared_concepts ++ unique_C1 ++ unique_C2 ++ [null_concept subsystem].

(** [[c.phi if c in constellation else 0 for c in all_concepts]] *)
Definition phi_distribution (constellation all : list Concept) : list Q :=
  fmap (fun c => if bool_decide (c ∈ constellation) then concept_phi c
                else 0%Q) all.

(** The two phi distributions [d1], [d2] of [_constellation_distance_emd]
    as they reach [utils.emd], after the residual has been assigned. *)
Definition phi_distributions (C1 C2 unique_C1 unique_C2 : list Concept)
    (subsystem : Subsystem) : result (list Q * list Q) :=
  let all := all_concepts C1 C2 unique_C1 unique_C2 subsystem in
  let d1 := phi_distribution C1 all in
  let d2 := phi_distribution C2 all in
  let residual := (py_sum d1 - py_sum d2)%Q in
  d2 ← (if Qltb 0 residual then set_last d2 residual else Ok d2);
  d1 ← (if Qltb residual 0 then set_last d1 residual else Ok d1);
  Ok (d1, d2).

(** The ground distance matrix of [_constellation_distance_emd]. *)
Definition distance_matrix (all : list Concept) : list (list Q) :=
  fmap (fun j => fmap (fun i => concept_distance i j) all) all.

(** [_constellation_distance_emd] *)
Definition _constellation_distance_emd
    (C1 C2 unique_C1 unique_C2 : list Concept) (subsystem : Subsystem)
    : result Q :=
  d ← phi_distributions C1 C2 unique_C1 unique_C2 subsystem;
  Ok (emd d.1 d.2
        (distance_matrix
           (all_concepts C1 C2 unique_C1 unique_C2 subsystem))).

(** [constellation_distance] *)
Definition constellation_distance (C1 C2 : list Concept)
    (subsystem : Subsystem) : result Q :=
  let concepts_only_in_C1 := filter (fun c => c ∉ C2) C1 in
  let concepts_only_in_C2 := filter (fun c => c ∉ C1) C2 in
  if bool_decide (concepts_only_in_C1 = [])
     || bool_decide (concepts_only_in_C2 = [])
  then Ok (_constellation_distance_simple C1 C2 subsystem)
  else _constellation_distance_emd C1 C2 concepts_only_in_C1
         concepts_only_in_C2 subsystem.
End ConstellationEngine.

(** ** SystemPartitionSearch (compute.py) *)

Record BigMip : Type := mkBigMip {
  bigmip_subsystem : Subsystem;
  bigmip_phi : Q;
  unpartitioned_constellation : option (list Concept);
  partitioned_constellation : option (list Concept)
}.

(** [_null_mip] *)
Definition _null_mip (subsystem : Subsystem) : BigMip :=
  {| bigmip_subsystem := subsystem;
     bigmip_phi := 0;
     unpartitioned_constellation := Some [];
     partitioned_constellation := Some [] |}.

(** Modelled from the spec: the truth value of a subsystem is not defined
    by the class in subsystem.py; a subsystem is empty when it has no
    nodes. *)
Definition Subsystem_bool (subsystem : Subsystem) : bool :=
  negb (length (nodes subsystem) =? 0).

(** [subsystem.node_indices] *)
Definition node_indices (subsystem : Subsystem) : list nat :=
  fmap index (nodes subsystem).

(** A comprehension whose body can raise. *)
Fixpoint rmap {A B : Type} (f : A -> result B) (l : list A)
    : result (list B) :=
  match l with
  | [] => Ok []
  | a :: l' => b ← f a; bs ← rmap f l'; Ok (b :: bs)
  end.

(** [cm[np.ix_(rows, cols)]] *)
Definition submatrix (cm : list (list Z)) (rows cols : list nat)
    : result (list (list Z)) :=
  rmap (fun i => row ← getindex cm i; rmap (getindex row) cols) rows.

(** The graph of a matrix: an edge for each non-zero entry. *)
Definition edge (cm : list (list Z)) (i j : nat) : bool :=
  match cm !! i with
  | Some row => match row !! j with
                | Some z => negb (z =? 0)%Z
                | None => false
                end
  | None => false
  end.

(** The same edges without their direction. *)
Definition undirected (e : nat -> nat -> bool) (i j : nat) : bool :=
  e i j || e j i.

(** One round of graph search: the vertices already seen and their
    successors. *)
Definition grow (e : nat -> nat -> bool) (n : nat) (seen : list nat)
    : list nat :=
  filter (fun j => j ∈ seen ∨ Exists (fun i => e i j = true) seen) (seq 0 n).

(** The vertices that can be reached from [i]. *)
Definition reach (e : nat -> nat -> bool) (n i : nat) : list nat :=
  Nat.iter n (grow e n) [i].

(** The number of classes of [0 .. n-1] under a relation given as an
    equivalence: the vertices not related to a smaller vertex. *)
Definition count_classes (related : nat -> nat -> bool) (n : nat) : nat :=
  length (filter (fun i => Forall (fun j => related j i = false) (seq 0 i))
                 (seq 0 n)).

(** [scipy.sparse.csgraph.connected_components(csr_matrix(cm))], called as
    compute.py calls it, with scipy's default arguments [directed=True,
    connection='weak']: the number of weakly connected components. *)
Definition connected_components (cm : list (list Z)) : nat :=
  let n := length cm in
  count_classes
    (fun j i => bool_decide (j ∈ reach (undirected (edge cm)) n i)) n.

(** The number of strongly connected components of the same graph. *)
Definition strongly_connected_components (cm : list (list Z)) : nat :=
  let n := length cm in
  count_classes
    (fun j i => bool_decide (j ∈ reach (edge cm) n i)
                && bool_decide (i ∈ reach (edge cm) n j)) n.

Section SystemPartitionSearch.
(** Constants of the package, the order on [BigMip] ([models]), the
    connectivity tests of a subsystem and the cached concept computation
    ([concept_caching]) are not among the sources. *)
Variable SINGLE_NODES_WITH_SELFLOOPS_HAVE_PHI : bool.
Variable BigMip_lt : BigMip -> BigMip -> bool.
Variable _all_connect_to_any _any_connect_to_all :
  Subsystem -> list Node -> list Node -> bool.
Variable _concept : Subsystem -> list Node -> Concept.
Variable bipartition : list nat -> list (list nat * list nat).
(** [constellation_distance], with its distances supplied. *)
Variable constellation_distance :
  list Concept -> list Concept -> Subsystem -> Q.
(** [ndarray.tostring] and the builtin [hash]. *)
Variable tostring : ndarray -> list byte.
Variable py_hash : hash_key -> Z.

(** [concept] *)
Definition concept (subsystem : Subsystem) (mechanism : list Node)
    : Concept :=
  if bool_decide (mechanism = []) then null_concept subsystem
  else if negb (_all_connect_to_any subsystem mechanism (nodes subsystem)
                && _any_connect_to_all subsystem (nodes subsystem)
                     mechanism)
  then mkConcept mechanism 0 None None
  else _concept subsystem mechanism.

(** Modelled from the spec: the truth value of a [Concept] ([models]) is
    not among the sources; [constellation] keeps the concepts with
    nonzero phi. *)
Definition Concept_bool (c : Concept) : bool :=
  negb (Qeq_bool (concept_phi c) 0).

(** [constellation] *)
Definition constellation (subsystem : Subsystem) : list Concept :=
  let concepts := fmap (concept subsystem) (powerset (nodes subsystem)) in
  filter (fun c => Concept_bool c = true) concepts.

(** The builtin [min] of two values and of a list. *)
Definition py_min2 (a b : BigMip) : BigMip :=
  if BigMip_lt b a then b else a.

Definition py_min (l : list BigMip) : result BigMip :=
  match l with
  | [] => Raise ValueError
  | x :: l' => Ok (foldl py_min2 x l')
  end.

(** [_single_node_mip] *)
Definition _single_node_mip (subsystem : Subsystem) : BigMip :=
  if SINGLE_NODES_WITH_SELFLOOPS_HAVE_PHI
  then {| bigmip_subsystem := subsystem;
          bigmip_phi := 1 # 2;
          unpartitioned_constellation := None;
          partitioned_constellation := None |}
  else _null_mip subsystem.

(** [_evaluate_partition] *)
Definition _evaluate_partition (uncut_subsystem : Subsystem)
    (partition : list nat * list nat)
    (unpartitioned : list Concept) : BigMip :=
  let forward_cut := mk_cut partition.1 partition.2 in
  let forward_cut_subsystem := set_cut uncut_subsystem forward_cut in
  let forward_constellation := constellation forward_cut_subsystem in
  let forward_mip :=
    {| bigmip_subsystem := uncut_subsystem;
       bigmip_phi := constellation_distance unpartitioned
                       forward_constellation uncut_subsystem;
       unpartitioned_constellation := Some unpartitioned;
       partitioned_constellation := Some forward_constellation |} in
  let backward_cut := mk_cut partition.2 partition.1 in
  let backward_cut_subsystem := set_cut uncut_subsystem backward_cut in
  let backward_constellation := constellation backward_cut_subsystem in
  let backward_mip :=
    {| bigmip_subsystem := uncut_subsystem;
       bigmip_phi := constellation_distance unpartitioned
                       backward_constellation uncut_subsystem;
       unpartitioned_constellation := Some unpartitioned;
       partitioned_constellation := Some backward_constellation |} in
  py_min2 forward_mip backward_mip.

(** The body of [_big_mip], which the decorator runs when it has no
    result stored: its outcome and the bipartitions it evaluated. *)
Definition _big_mip_body (cache_key : Z) (subsystem : Subsystem)
    : result BigMip * list (list nat * list nat) :=
  if length (nodes subsystem) =? 1
  then (Ok (_single_node_mip subsystem), [])
  else if negb (Subsystem_bool subsystem)
  then (Ok (_null_mip subsystem), [])
  else
    match submatrix (connectivity_matrix (network subsystem))
                    (fmap index (nodes subsystem))
                    (fmap index (nodes subsystem)) with
    | Raise e => (Raise e, [])
    | Ok cm =>
        let num_components := connected_components cm in
        if 1 <? num_components then (Ok (_null_mip subsystem), [])
        else
          let bipartitions := tail (bipartition (node_indices subsystem)) in
          let unpartitioned := constellation subsystem in
          let mip_candidates :=
            fmap (fun partition =>
                   _evaluate_partition subsystem partition unpartitioned)
                bipartitions in
          (py_min mip_candidates, bipartitions)
    end.

(** [_big_mip], as decorated by [@memory.cache(ignore=["subsystem"])]:
    the decorator ignores the argument [subsystem], so a result is stored
    and found under [cache_key] alone.  A call that finds a result
    returns it and runs nothing; otherwise the body runs, and what it
    returns is stored (nothing is stored when it raises).  The outcome,
    the bipartitions evaluated by this call, and the store after it. *)
Definition _big_mip (store : gmap Z BigMip) (cache_key : Z)
    (subsystem : Subsystem)
    : (result BigMip * list (list nat * list nat)) * gmap Z BigMip :=
  match store !! cache_key with
  | Some found => ((Ok found, []), store)
  | None =>
      let out := _big_mip_body cache_key subsystem in
      match out.1 with
      | Ok computed => (out, <[cache_key := computed]> store)
      | Raise _ => (out, store)
      end
  end.

(** [big_mip]: the cache key is the hash of the subsystem. *)
Definition big_mip (store : gmap Z BigMip) (subsystem : Subsystem)
    : (result BigMip * list (list nat * list nat)) * gmap Z BigMip :=
  _big_mip store (Subsystem_hash tostring py_hash subsystem) subsystem.
End SystemPartitionSearch.

(** ** Predicates of the specification *)

(** The sequence [l] holds every node of [ns] exactly once, and no other
    node. *)
Definition exactly_once (ns l : list Node) : Prop :=
  ∀ n : Node,
    count_occ Nat.eq_dec l n = if bool_decide (n ∈ ns) then 1 else 0.

(** The selection of [mip_bipartition] in the words of the specification:
    the mechanism halves of the two parts are disjoint, their purview
    halves are disjoint, and no part is empty in both halves. *)
Definition spec_valid_partition
    (numerators denominators : list Node * list Node) : bool :=
  bool_decide (list_to_set numerators.1 ∩ list_to_set numerators.2
               =@{gset Node} ∅)
  && bool_decide (list_to_set denominators.1 ∩ list_to_set denominators.2
                  =@{gset Node} ∅)
  && negb (bool_decide (numerators.1 = [])
           && bool_decide (denominators.1 = []))
  && negb (bool_decide (numerators.2 = [])
           && bool_decide (denominators.2 = [])).

Definition spec_mip_bipartition
    (bipartition : list Node -> list (list Node * list Node))
    (mechanism purview : list Node) : list (a_part * a_part) :=
  denominators ← bipartition purview ++ fmap reversed (bipartition purview);
  numerators ← bipartition mechanism;
  if spec_valid_partition numerators denominators
  then [(mk_part numerators.1 denominators.1,
         mk_part numerators.2 denominators.2)]
  else [].

(** The state of the loop of [find_mice] after the purviews in [seen],
    where [mip_of] gives the MIP found for each purview: nothing found
    yet, or the best purview so far with its phi. *)
Definition mice_state (mechanism : list Node)
    (mip_of : list Node -> option a_mip) (seen : list (list Node))
    (st : pyfloat * option (list Node)) : Prop :=
  (st = (NegInf, None) ∧ ∀ q, q ∈ seen -> mip_of q = None)
  ∨ ∃ p m,
      p ∈ seen ∧ mip_of p = Some m
      ∧ st = (Fin (mip_difference m), Some p)
      ∧ ∀ q mq, q ∈ seen -> mip_of q = Some mq ->
          (mip_difference mq <= mip_difference m)%Q
          ∧ (mip_difference mq == mip_difference m -> length q <= length p).

(** Modelled from the spec: [utils.emd] is not among the sources; it is the
    earth-mover's distance, the least cost of a transport plan between two
    mass vectors.  A transport plan moves a non-negative mass from each
    cell [i] of the first vector to each cell [j] of the second
    ([flow[i][j]]), all the mass of the first vector and exactly the mass
    of the second. *)
Definition transport_plan (d1 d2 : list Q) (flow : list (list Q)) : Prop :=
  Forall (fun row => length row = length d2
                     ∧ Forall (fun x => (0 <= x)%Q) row) flow
  ∧ Forall2 (fun row mass => (py_sum row == mass)%Q) flow d1
  ∧ ∀ j mass, d2 !! j = Some mass ->
      (py_sum ((fun row => default 0%Q (row !! j)) <$> flow) == mass)%Q.

(** A property of every cell of an array. *)
Fixpoint tforall (P : Q -> Prop) (t : tensor) : Prop :=
  match t with
  | Leaf q => P q
  | One t' => tforall P t'
  | Two t0 t1 => tforall P t0 ∧ tforall P t1
  end.

Definition all_zero (t : tensor) : Prop := tforall (fun q => (q == 0)%Q) t.

Definition nonnegative (t : tensor) : Prop := tforall (fun q => (0 <= q)%Q) t.

Definition probabilities (t : tensor) : Prop :=
  tforall (fun q => (0 <= q <= 1)%Q) t.

(** The array has the given shape ([true]: an axis of length 2). *)
Fixpoint has_shape (shape : list bool) (t : tensor) : Prop :=
  match shape, t with
  | [], Leaf _ => True
  | false :: sh, One t' => has_shape sh t'
  | true :: sh, Two t0 t1 => has_shape sh t0 ∧ has_shape sh t1
  | _, _ => False
  end.

(** A subsystem over a network of binary nodes: the state vectors have one
    binary entry per network node, and every node has a table of
    probabilities with one axis of length 2 per network node. *)
Record well_formed (self : Subsystem) : Prop := mk_well_formed {
  wf_current : length (current_state self) = size (network self);
  wf_past : length (past_state self) = size (network self);
  wf_past_binary : Forall (fun z => z = 0%Z ∨ z = 1%Z) (past_state self);
  wf_tpms : length (node_tpms (network self)) = size (network self);
  wf_tpm_shape :
    Forall (has_shape (replicate (size (network self)) true))
           (node_tpms (network self));
  wf_tpm_probabilities : Forall probabilities (node_tpms (network self))
}.

(** ** Sample networks and subsystems *)

(** A two-node network in which each node copies the other's previous
    state, and the subsystem of both nodes in state (1, 1). *)
Definition copy_tpm_of_1 : tensor :=
  Two (Two (Leaf 0) (Leaf 1)) (Two (Leaf 0) (Leaf 1)).

Definition copy_tpm_of_0 : tensor :=
  Two (Two (Leaf 0) (Leaf 0)) (Two (Leaf 1) (Leaf 1)).

Definition demo_null : Concept := mkConcept [] 0 None None.

Definition demo_net : Network :=
  mkNetwork 2 [copy_tpm_of_1; copy_tpm_of_0] [[0; 1]; [1; 0]]%Z.

Definition demo_sub : Subsystem :=
  Subsystem_init [0; 1] (np_array int64 [1; 1]%Z) (np_array int64 [1; 1]%Z)
    demo_net demo_null.

(** The same subsystem with its nodes listed in the other order, a cut
    applied and a MICE cache attached. *)
Definition demo_sub_cut : Subsystem :=
  {| nodes := [1; 0];
     current_state := np_array int64 [1; 1]%Z;
     past_state := np_array int64 [1; 1]%Z;
     network := demo_net;
     external_nodes := ∅;
     _cut := mk_cut [0] [1];
     null_concept := demo_null;
     _mice_cache := [([0], mk_mice (Some [1]) (Fin 1))] |}.

(** The sample subsystem with its two states held in arrays of 4-byte
    integers. *)
Definition demo_sub_int32 : Subsystem :=
  Subsystem_init [0; 1] (np_array int32 [1; 1]%Z) (np_array int32 [1; 1]%Z)
    demo_net demo_null.

(** Two concepts of the sample subsystem, of phi 1 and phi 2. *)
Definition concept_a : Concept :=
  mkConcept [0] 1 (Some (mk_mice (Some [1]) (Fin 1)))
            (Some (mk_mice (Some [1]) (Fin 1))).

Definition concept_b : Concept :=
  mkConcept [1] 2 (Some (mk_mice (Some [0]) (Fin 2)))
            (Some (mk_mice (Some [0]) (Fin 2))).

(** A two-node network with the single connection 0 -> 1: node 1 copies
    node 0, node 0 is on with probability 1/2; and the subsystem of both
    nodes. *)
Definition coin_tpm : tensor :=
  Two (Two (Leaf (1 # 2)) (Leaf (1 # 2))) (Two (Leaf (1 # 2)) (Leaf (1 # 2))).

Definition chain_net : Network :=
  mkNetwork 2 [coin_tpm; copy_tpm_of_0] [[0; 1]; [0; 0]]%Z.

Definition chain_sub : Subsystem :=
  Subsystem_init [0; 1] (np_array int64 [1; 1]%Z) (np_array int64 [1; 1]%Z)
    chain_net demo_null.

(** A network in which node 0 is never on and node 1 is always on, and its
    subsystem of both nodes in the current state (1, 0), which the network
    cannot reach. *)
Definition never_tpm : tensor :=
  Two (Two (Leaf 0) (Leaf 0)) (Two (Leaf 0) (Leaf 0)).

Definition always_tpm : tensor :=
  Two (Two (Leaf 1) (Leaf 1)) (Two (Leaf 1) (Leaf 1)).

Definition stuck_net : Network :=
  mkNetwork 2 [never_tpm; always_tpm] [[1; 1]; [1; 1]]%Z.

Definition stuck_sub : Subsystem :=
  Subsystem_init [0; 1] (np_array int64 [1; 0]%Z) (np_array int64 [1; 1]%Z)
    stuck_net demo_null.

(** A distance and a repertoire method to run the search on: the discrete
    distance between repertoires, and the cause repertoire with a default
    where it raises. *)
Definition demo_emd (a b : repertoire) : Q :=
  if bool_decide (a = b) then 0 else 1.

Definition demo_repertoire (self : Subsystem) (mechanism purview : list Node)
    : repertoire :=
  match RepertoireEngine.cause_repertoire self mechanism purview with
  | Ok r => r
  | Raise _ => Scalar 0
  end.

(** A hash of the key computed from its parts. *)
Definition demo_hash (key : hash_key) : Z :=
  Z.of_nat (length (elements key.1.1.1) + length key.1.1.2
            + length key.1.2 + size key.2).

(** ** Further operations of subsystem.py and compute.py *)

(** A sequence of calls of [cut] on one subsystem, each call given by its
    two arguments; a call that raises leaves the subsystem as it was and
    the sequence goes on. *)
Definition cut_calls (self : Subsystem) (calls : list (cut_arg * cut_arg))
    : Subsystem :=
  foldl (fun s call => (cut s call.1 call.2).2) self calls.

Section ConceptualInformation.
Variable hamming_emd : tensor -> tensor -> Q.
Variable expand_cause_repertoire expand_effect_repertoire :
  Concept -> tensor.
Variable emd : list Q -> list Q -> list (list Q) -> Q.
Variable _all_connect_to_any _any_connect_to_all :
  Subsystem -> list Node -> list Node -> bool.
Variable _concept : Subsystem -> list Node -> Concept.

(** [conceptual_information] *)
Definition conceptual_information (subsystem : Subsystem) : result Q :=
  constellation_distance hamming_emd expand_cause_repertoire
    expand_effect_repertoire emd
    (constellation _all_connect_to_any _any_connect_to_all _concept subsystem)
    [] subsystem.
End ConceptualInformation.

(** The contribution of a concept to the cheap path of the distance: its
    phi times its distance to the null concept. *)
Definition phi_distance (concept_distance : Concept -> Concept -> Q)
    (subsystem : Subsystem) (c : Concept) : Q :=
  (concept_phi c * concept_distance c (null_concept subsystem))%Q.

(** Sample distances between concepts. *)
Definition demo_hamming_emd (a b : tensor) : Q :=
  if bool_decide (a = b) then 0 else 1.

Definition demo_expand (c : Concept) : tensor := Leaf (concept_phi c).

Definition demo_emd3 (d1 d2 : list Q) (matrix : list (list Q)) : Q := 0.

(** The errors of the phi methods: those of [exn], and the
    [AttributeError] raised by reading an attribute of [None]. *)
Inductive py_error : Type :=
  | Builtin (e : exn)
  | AttributeError.

Inductive outcome (A : Type) : Type :=
  | Returns (a : A)
  | Fails (e : py_error).
Arguments Returns {A} a.
Arguments Fails {A} e.

(** [x.difference] where [x] is what [find_mip] gave. *)
Definition difference_of (found : result (option a_mip * list a_mip))
    : outcome Q :=
  match found with
  | Ok (Some mip, _) => Returns (mip_difference mip)
  | Ok (None, _) => Fails AttributeError
  | Raise e => Fails (Builtin e)
  end.

(** The builtin [min] of two numbers: the second one when it is less than
    the first, else the first. *)
Definition min_Q (a b : Q) : Q := if Qltb b a then b else a.

Definition min_float (a b : pyfloat) : pyfloat := if flt b a then b else a.

Section PhiMethods.
Variable bipartition : list Node -> list (list Node * list Node).
Variable emd : repertoire -> repertoire -> Q.
Variable cause_repertoire effect_repertoire :
  Subsystem -> list Node -> list Node -> repertoire.

(** [Subsystem.phi_mip_past] *)
Definition phi_mip_past (self : Subsystem) (mechanism purview : list Node)
    : outcome Q :=
  difference_of (mip_past bipartition emd cause_repertoire effect_repertoire
                   self mechanism purview).

(** [Subsystem.phi_mip_future] *)
Definition phi_mip_future (self : Subsystem) (mechanism purview : list Node)
    : outcome Q :=
  difference_of (mip_future bipartition emd cause_repertoire effect_repertoire
                   self mechanism purview).

(** [Subsystem.phi] *)
Definition phi (self : Subsystem) (mechanism purview : list Node)
    : outcome Q :=
  match phi_mip_past self mechanism purview with
  | Fails e => Fails e
  | Returns past =>
      match phi_mip_future self mechanism purview with
      | Fails e => Fails e
      | Returns future => Returns (min_Q past future)
      end
  end.

(** [Subsystem.phi_max] *)
Definition phi_max (self : Subsystem) (mechanism : list Node)
    : result pyfloat :=
  cause ← core_cause bipartition emd cause_repertoire effect_repertoire
            self mechanism;
  effect ← core_effect bipartition emd cause_repertoire effect_repertoire
             self mechanism;
  Ok (min_float (mice_phi cause) (mice_phi effect)).

(** [Subsystem.cause_info], [effect_info] and [cause_effect_info]; the
    unconstrained repertoire is the repertoire of the empty mechanism. *)
Definition cause_info (self : Subsystem) (mechanism purview : list Node) : Q :=
  emd (cause_repertoire self mechanism purview)
      (cause_repertoire self [] purview).

Definition effect_info (self : Subsystem) (mechanism purview : list Node)
    : Q :=
  emd (effect_repertoire self mechanism purview)
      (effect_repertoire self [] purview).

Definition cause_effect_info (self : Subsystem)
    (mechanism purview : list Node) : Q :=
  min_Q (cause_info self mechanism purview)
        (effect_info self mechanism purview).
End PhiMethods.

(** The shape left when the axes [ks] have been cut to length 1. *)
Definition clear_axes (ks : list nat) (shape : list bool) : list bool :=
  foldl (fun sh k => <[k := false]> sh) shape ks.

(** ** RepertoireEngine: the effect repertoire *)

(** [k] axes of length 1 around an array. *)
Definition singleton_axes (k : nat) (t : tensor) : tensor := Nat.iter k One t.

(** The value of an assignment [target[...] = value] seen with [n] axes, as
    numpy aligns it with a target of [n] axes: axes of length 1 are added
    in front of a value with fewer axes, and leading axes of length 1 are
    stripped from a value with more; other values cannot be broadcast. *)
Fixpoint strip_axes (k : nat) (t : tensor) : result tensor :=
  match k with
  | O => Ok t
  | S k' => match t with
            | One t' => strip_axes k' t'
            | _ => Raise ValueError
            end
  end.

Definition align_axes (n : nat) (t : tensor) : result tensor :=
  if ndim t <=? n then Ok (singleton_axes (n - ndim t) t)
  else strip_axes (ndim t - n) t.

(** The array stretched over [n] axes of length 2. *)
Definition broadcast_full (n : nat) (t : tensor) : tensor :=
  tzip (fun _ y => y) (np_ones (replicate n true)) t.

(** The future half of the table of the node [idx], for one state of the
    network: [axes] axes of length 1 but the node's own one, of length 2;
    the cell where every index is 0 holds [off], the cell where the node's
    index is 1 holds [on].  When [idx] is not one of the axes the two
    assignments write the same cell, [off] first and [on] last. *)
Fixpoint state_block (axes idx : nat) (off on : Q) : tensor :=
  match axes with
  | O => Leaf on
  | S axes' =>
      match idx with
      | O => Two (singleton_axes axes' (Leaf off))
                 (singleton_axes axes' (Leaf on))
      | S idx' => One (state_block axes' idx' off on)
      end
  end.

(** Every cell replaced by an array. *)
Fixpoint graft (f : Q -> tensor) (t : tensor) : tensor :=
  match t with
  | Leaf q => f q
  | One t' => One (graft f t')
  | Two t0 t1 => Two (graft f t0) (graft f t1)
  end.

(** The array [tpm] allocated for a purview node in [effect_repertoire]
    and filled by the two assignments: [n] axes for the state of the
    network, then [n] axes for the state of the node. *)
Definition two_sided_tpm (n idx : nat) (node_tpm : tensor) : result tensor :=
  aligned ← align_axes n node_tpm;
  Ok (graft (fun p => state_block n idx (1 - p)%Q p)
            (broadcast_full n aligned)).

(** [a.reshape(a.shape[n:2n])]: the first [n] axes must all be of length 1
    for the sizes to agree. *)
Fixpoint drop_axes (n : nat) (t : tensor) : result tensor :=
  match n with
  | O => Ok t
  | S n' => match t with
            | One t' => drop_axes n' t'
            | _ => Raise ValueError
            end
  end.

Module EffectRepertoire.

(** The body of the loop over the purview. *)
Definition effect_step (self : Subsystem) (past_nodes : list Node)
    (accumulated_cjd : tensor) (mechanism_node : Node) : result tensor :=
  node_tpm ← getindex (node_tpms (network self)) (index mechanism_node);
  tpm ← two_sided_tpm (size (network self)) (index mechanism_node) node_tpm;
  Ok (np_multiply accumulated_cjd
        (foldl (fun t non_past_input =>
                  marginalize_out (index non_past_input) t)
               tpm
               (elements (list_to_set (nodes self)
                          ∖ list_to_set past_nodes : gset Node)))).

(** The conditioning on the current state of one node: the integer index
    and [np.newaxis] put at the node's place in [conditioning_indices]. *)
Definition condition_on_current (self : Subsystem) (t : tensor) (node : Node)
    : result tensor :=
  if size (network self) <=? index node then Raise IndexError
  else
    state ← getindex (current_state self) (index node);
    take_axis (index node) state t.

(** [Subsystem.effect_repertoire] *)
Definition effect_repertoire (self : Subsystem) (mechanism purview : list Node)
    : result repertoire :=
  if length purview =? 0 then Ok (Scalar 1)
  else
    accumulated_cjd ←
      rfold (effect_step self mechanism) purview
            (np_ones (replicate (size (network self)) false
                      ++ purview_shape purview (network self)));
    accumulated_cjd ←
      rfold (condition_on_current self)
            (elements (list_to_set mechanism ∪ external_nodes self))
            accumulated_cjd;
    accumulated_cjd ← drop_axes (size (network self)) accumulated_cjd;
    Ok (Array accumulated_cjd).

(** [Subsystem.unconstrained_effect_repertoire] *)
Definition unconstrained_effect_repertoire (self : Subsystem)
    (purview : list Node) : result repertoire :=
  effect_repertoire self [] purview.

End EffectRepertoire.

(** The array has first the axes [first], and every array found under
    them satisfies [P]. *)
Fixpoint blocks (first : list bool) (P : tensor -> Prop) (t : tensor)
    : Prop :=
  match first with
  | [] => P t
  | false :: first' =>
      match t with
      | One t' => blocks first' P t'
      | _ => False
      end
  | true :: first' =>
      match t with
      | Two t0 t1 => blocks first' P t0 ∧ blocks first' P t1
      | _ => False
      end
  end.

(** The array does not depend on the index along axis [k], an axis of
    length 2. *)
Fixpoint const_along (k : nat) (t : tensor) : Prop :=
  match t with
  | Leaf _ => False
  | One t' =>
      match k with
      | O => False
      | S k' => const_along k' t'
      end
  | Two t0 t1 =>
      match k with
      | O => t0 = t1
      | S k' => const_along k' t0 ∧ const_along k' t1
      end
  end.

(** The future half of a node's table for one state of the network, as
    probabilities: the node is off with [off] and on with [on]. *)
Definition is_state_block (axes idx : nat) (block : tensor) : Prop :=
  ∃ off on : Q,
    block = state_block axes idx off on
    ∧ (0 <= off)%Q ∧ (0 <= on)%Q ∧ (off + on == 1)%Q.

(** What the loop over the purview keeps of every block of the accumulated
    array, the part indexed by the state of the purview: it has the shape
    of the purview, no negative cell, does not depend on the purview nodes
    still to come, and sums to the number of their states. *)
Definition purview_block (shape : list bool) (remaining : list Node)
    (block : tensor) : Prop :=
  has_shape shape block
  ∧ nonnegative block
  ∧ (∀ i, i ∈ remaining -> const_along i block)
  ∧ (np_sum block == inject_Z (Z.of_nat (2 ^ length remaining)))%Q.

(** [Subsystem.full_cause_repertoire] and [full_effect_repertoire]: the
    nodes outside the purview are passed on as a set, which the repertoire
    methods take in the set's order. *)
Definition full_cause_repertoire (self : Subsystem)
    (mechanism purview : list Node) : result repertoire :=
  let non_purview_nodes :=
    elements (list_to_set (network_nodes (network self))
              ∖ list_to_set purview : gset Node) in
  non_purview_cr ←
    RepertoireEngine.unconstrained_cause_repertoire self non_purview_nodes;
  cr ← RepertoireEngine.cause_repertoire self mechanism purview;
  Ok (repertoire_mul cr non_purview_cr).

Definition full_effect_repertoire (self : Subsystem)
    (mechanism purview : list Node) : result repertoire :=
  let non_purview_nodes :=
    elements (list_to_set (network_nodes (network self))
              ∖ list_to_set purview : gset Node) in
  non_purview_er ←
    EffectRepertoire.unconstrained_effect_repertoire self non_purview_nodes;
  er ← EffectRepertoire.effect_repertoire self mechanism purview;
  Ok (repertoire_mul er non_purview_er).

(** ** Node (node.py): the node's table *)

(** [a.sum(i, keepdims=True) / 2]: the sum over axis [i], kept with
    length 1, and halved.  An axis that the array does not have is an
    error (numpy's AxisError, a ValueError). *)
Fixpoint sum_keepdims_half (i : nat) (t : tensor) : result tensor :=
  match t with
  | Leaf _ => Raise ValueError
  | One t' =>
      match i with
      | O => Ok (One (tmap (fun q => (q / 2)%Q) t'))
      | S i' => r ← sum_keepdims_half i' t'; Ok (One r)
      end
  | Two t0 t1 =>
      match i with
      | O => Ok (One (tzip (fun x y => ((x + y) / 2)%Q) t0 t1))
      | S i' => r0 ← sum_keepdims_half i' t0;
                r1 ← sum_keepdims_half i' t1;
                Ok (Two r0 r1)
      end
  end.

(** The body of the loop of [Node.__init__] over [indices], on the pair
    [(tpm_off, tpm_on)]. *)
Definition marginalize_non_input (input_indices : list nat)
    (tables : tensor * tensor) (i : nat) : result (tensor * tensor) :=
  if bool_decide (i ∈ input_indices) then Ok tables
  else
    tpm_on ← sum_keepdims_half i tables.2;
    tpm_off ← sum_keepdims_half i tables.1;
    Ok (tpm_off, tpm_on).

(** The table [self.tpm] that [Node.__init__] builds from [tpm_on], the
    part [subsystem.tpm[..., index]] of the subsystem's table; the inputs
    of the node ([utils.get_inputs_from_cm] is not among the sources) and
    the indices to generate the table from are arguments. *)
Definition Node_tpm (tpm_on : tensor) (input_indices indices : list nat)
    : result tensor :=
  let tpm_off := tmap (fun q => (1 - q)%Q) tpm_on in
  tables ← rfold (marginalize_non_input input_indices) indices
                 (tpm_off, tpm_on);
  Ok (Two tables.1 tables.2).

(** [a * b] on arrays that may differ in their number of axes: numpy adds
    axes of length 1 in front of the one with fewer. *)
Definition broadcast_multiply (a b : tensor) : tensor :=
  let n := Nat.max (ndim a) (ndim b) in
  np_multiply (singleton_axes (n - ndim a) a) (singleton_axes (n - ndim b) b).

(** [tpm[1]] *)
Definition second_row (tpm : tensor) : result tensor :=
  match tpm with
  | Two _ row => Ok row
  | _ => Raise IndexError
  end.

(** [Node.expand_tpm] *)
Definition expand_tpm (tpm : tensor) (input_indices node_indices : list nat)
    : result tensor :=
  let uc := np_ones (fmap (fun index =>
                             bool_decide (index ∈ node_indices
                                          ∧ index ∉ input_indices))
                          node_indices) in
  row ← second_row tpm;
  Ok (broadcast_multiply row uc).

(** * Properties *)

(** ** The definitions on small inputs *)

Example powerset_three :
  powerset [0; 1; 2]
  = [[]; [0]; [1]; [2]; [0; 1]; [0; 2]; [1; 2]; [0; 1; 2]].
Proof. reflexivity. Qed.

Example bipartition_model_three :
  bipartition_model [0; 1; 2]
  = [([], [0; 1; 2]); ([1], [0; 2]); ([2], [0; 1]); ([1; 2], [0])].
Proof. reflexivity. Qed.

Example mip_bipartition_one_one :
  mip_bipartition bipartition_model [0] [1]
  = [(mk_part [] [1], mk_part [0] [])].
Proof. vm_compute. reflexivity. Qed.

Example mip_bipartition_empty_purview :
  mip_bipartition bipartition_model [0] [] = [].
Proof. vm_compute. reflexivity. Qed.

Example cut_rejects_missing_node :
  cut demo_sub (Single 0) (Tuple []) = (Raise ValueError, demo_sub).
Proof. vm_compute. reflexivity. Qed.

Example cut_rejects_repeated_node :
  cut demo_sub (Tuple [0; 0]) (Tuple []) = (Raise ValueError, demo_sub).
Proof. vm_compute. reflexivity. Qed.

Example components_of_a_cycle :
  connected_components [[0; 1; 0]; [0; 0; 1]; [1; 0; 0]]%Z = 1
  ∧ strongly_connected_components [[0; 1; 0]; [0; 0; 1]; [1; 0; 0]]%Z = 1.
Proof. split; vm_compute; reflexivity. Qed.

Example components_of_a_path :
  connected_components [[0; 1; 0]; [0; 0; 1]; [0; 0; 0]]%Z = 1
  ∧ strongly_connected_components [[0; 1; 0]; [0; 0; 1]; [0; 0; 0]]%Z = 3.
Proof. split; vm_compute; reflexivity. Qed.

Example components_without_connections :
  connected_components [[0; 0]; [0; 0]]%Z = 2.
Proof. vm_compute. reflexivity. Qed.

(** In the copy network, node 0 being on says that node 1 was on. *)
Example cause_repertoire_copy :
  RepertoireEngine.cause_repertoire demo_sub [0] [1]
  = Ok (Array (One (Two (Leaf (0 # 8)) (Leaf (8 # 8))))).
Proof. vm_compute. reflexivity. Qed.

Example cause_repertoire_empty_purview :
  RepertoireEngine.cause_repertoire demo_sub [0] [] = Ok (Scalar 1).
Proof. reflexivity. Qed.

Example cause_repertoire_empty_mechanism :
  RepertoireEngine.cause_repertoire demo_sub [] [0]
  = Ok (Array (Two (One (Leaf (1 # 2))) (One (Leaf (1 # 2))))).
Proof. vm_compute. reflexivity. Qed.

Example find_mice_copy :
  find_mice bipartition_model demo_emd demo_repertoire demo_repertoire
    demo_sub "past" [0]
  = Ok (mk_mice (Some [0; 1]) (Fin 1)).
Proof. vm_compute. reflexivity. Qed.

Example find_mice_bad_direction :
  find_mice bipartition_model demo_emd demo_repertoire demo_repertoire
    demo_sub "sideways" [0]
  = Raise ValueError.
Proof. reflexivity. Qed.


(** ** The subsystem and its cut *)

Lemma NoDup_count_occ_elem (ns : list Node) (n : Node) :
  NoDup ns ->
  count_occ Nat.eq_dec ns n = if bool_decide (n ∈ ns) then 1 else 0.
Proof.
  intros Hnd. case_bool_decide as Hin.
  - apply (proj1 (NoDup_count_occ' Nat.eq_dec ns)).
    + by apply NoDup_ListNoDup.
    +
by apply list_elem_of_In.
  - apply count_occ_not_In. by rewrite <- list_elem_of_In.
Qed.

Lemma exactly_once_Permutation (ns l : list Node) :
  NoDup ns -> ns ≡ₚ l <-> exactly_once ns l.
Proof.
  intros Hnd. unfold exactly_once.
  rewrite (Permutation_count_occ Nat.eq_dec). split.
  - intros H n. rewrite <- H. by apply NoDup_count_occ_elem.
  - intros H n. rewrite H. by apply NoDup_count_occ_elem.
Qed.

Lemma cut_check_Permutation (ns l : list Node) :
  NoDup ns ->
  (length ns = length l
   ∧ list_to_set ns =@{gset Node} list_to_set l) <-> ns ≡ₚ l.
Proof.
  intros Hnd. split.
  - intros [Hlen Hset]. apply submseteq_length_Permutation; [|lia].
    apply NoDup_submseteq; [done|]. intros x Hx.
    apply (elem_of_list_to_set (C := gset Node)).
    rewrite <- Hset. by apply elem_of_list_to_set.
  - intros Hp. split; [by rewrite Hp|].
    apply set_eq. intros x. rewrite !elem_of_list_to_set. by rewrite Hp.
Qed.

Lemma cut_raises_iff (self : Subsystem) (a b : cut_arg) :
  (cut self a b).1 = Raise ValueError
  <-> ¬ (length (nodes self) = length (as_tuple a ++ as_tuple b)
         ∧ list_to_set (nodes self)
           =@{gset Node} list_to_set (as_tuple a ++ as_tuple b)).
Proof.
  unfold cut.
  destruct (length (nodes self) =? length (as_tuple a ++ as_tuple b))
    eqn:Hlen; simpl.
  - apply Nat.eqb_eq in Hlen. case_bool_decide as Hset; simpl.
    + split; [discriminate|]. intros H. destruct H. done.
    + split; [|done]. intros _ [_ H]. done.
  - apply Nat.eqb_neq in Hlen. split; [|done]. intros _ [H _]. done.
Qed.

(** C9.  For a subsystem whose nodes are distinct, [cut] raises
    [ValueError] exactly when the concatenation of its two arguments
    (single nodes made singleton tuples) does not hold each node of the
    subsystem exactly once and nothing else; when it raises the subsystem,
    and with it the cut applied before, is unchanged; otherwise the call
    returns and the applied cut is the pair of the two arguments. *)
Theorem cut_spec (self : Subsystem) (a b : cut_arg) :
  NoDup (nodes self) ->
  ((cut self a b).1 = Raise ValueError
   <-> ¬ exactly_once (nodes self) (as_tuple a ++ as_tuple b))
  ∧ ((cut self a b).1 = Raise ValueError -> (cut self a b).2 = self)
  ∧ (exactly_once (nodes self) (as_tuple a ++ as_tuple b) ->
     (cut self a b).1 = Ok ()
     ∧ (cut self a b).2 = set_cut self (mk_cut (as_tuple a) (as_tuple b))
     ∧ _cut (cut self a b).2 = mk_cut (as_tuple a) (as_tuple b)).
Proof.
  intros Hnd.
  assert (Hiff : (cut self a b).1 = Raise ValueError
                 <-> ¬ exactly_once (nodes self) (as_tuple a ++ as_tuple b)).
  { rewrite cut_raises_iff, (cut_check_Permutation _ _ Hnd).
    by rewrite (exactly_once_Permutation _ _ Hnd). }
  split; [exact Hiff|]. split.
  - unfold cut. by destruct (negb _).
  - intros Hok. unfold cut in *.
    destruct (negb _) eqn:Hc; simpl in *; [|done].
    exfalso. by apply (proj1 Hiff).
Qed.

Lemma cut_spec_witness :
  NoDup (nodes demo_sub)
  ∧ (cut demo_sub (Single 1) (Tuple [0])).1 = Ok ()
  ∧ _cut (cut demo_sub (Single 1) (Tuple [0])).2 = mk_cut [1] [0].
Proof.
  assert (Hnd : NoDup (nodes demo_sub)).
  { apply (bool_decide_unpack (NoDup (nodes demo_sub))). vm_compute. exact I. }
  split; [exact Hnd|].
  destruct (cut_spec demo_sub (Single 1) (Tuple [0]) Hnd) as (_ & _ & H).
  assert (Hex : exactly_once (nodes demo_sub) (as_tuple (Single 1) ++ as_tuple (Tuple [0]))).
  { apply exactly_once_Permutation; [exact Hnd|]. simpl. apply Permutation_swap. }
  destruct (H Hex) as (H1 & _ & H3). split; assumption.
Defined.

(** ** The candidate partitions of a mechanism over a purview *)

Section MipBipartition.
Variable bipartition : list Node -> list (list Node * list Node).

Lemma valid_partition_true (numerators denominators : list Node * list Node) :
  valid_partition numerators denominators = true
  <-> (∀ n, n ∈ numerators.1 -> n ∉ denominators.1)
      ∧ (∀ n, n ∈ numerators.2 -> n ∉ denominators.2)
      ∧ ¬ (numerators.1 = [] ∧ denominators.1 = [])
      ∧ ¬ (numerators.2 = [] ∧ denominators.2 = []).
Proof.
  unfold valid_partition.
  rewrite !andb_true_iff, !bool_decide_eq_true, !Nat.ltb_lt.
  assert (Hd : ∀ a b : list Node,
             list_to_set a ∩ list_to_set b =@{gset Node} ∅
             <-> ∀ n, n ∈ a -> n ∉ b).
  { intros a b. split.
    - intros H n Ha Hb.
      assert (n ∈ (list_to_set a ∩ list_to_set b : gset Node)) as Hn
        by (apply elem_of_intersection; by rewrite !elem_of_list_to_set).
      rewrite H in Hn. by apply not_elem_of_empty in Hn.
    - intros H. apply set_eq. intros n.
      rewrite elem_of_intersection, !elem_of_list_to_set.
      split; [|by intros ?%not_elem_of_empty].
      intros [Ha Hb]. by destruct (H n Ha). }
  assert (He : ∀ a b : list Node,
             0 < length a + length b <-> ¬ (a = [] ∧ b = [])).
  { intros [|x a] [|y b]; simpl; split; try lia; try (intros _ [? ?]; done).
    intros H. destruct H. done. }
  rewrite !Hd, !He. tauto.
Qed.

Lemma reversed_involutive (x : list Node * list Node) :
  reversed (reversed x) = x.
Proof. by destruct x. Qed.

Lemma elem_of_both_orientations (d : list Node * list Node)
    (l : list (list Node * list Node)) :
  d ∈ l ++ (reversed <$> l) <-> d ∈ l ∨ reversed d ∈ l.
Proof.
  rewrite elem_of_app. split; (intros [H|H]; [by left|right]).
  - apply list_elem_of_fmap in H as (d' & -> & Hd').
    by rewrite reversed_involutive.
  - apply list_elem_of_fmap. exists (reversed d).
    by rewrite reversed_involutive.
Qed.

(** C4, as the code has it.  [mip_bipartition] yields exactly the pairs of
    parts obtained from a bipartition of the purview, in either
    orientation, and a bipartition of the mechanism, such that in each
    part the mechanism half and the purview half are disjoint and no
    part is empty in both halves. *)
Theorem mip_bipartition_yields (mechanism purview : list Node)
    (part0 part1 : a_part) :
  (part0, part1) ∈ mip_bipartition bipartition mechanism purview
  <-> ∃ numerators denominators : list Node * list Node,
        numerators ∈ bipartition mechanism
        ∧ (denominators ∈ bipartition purview
           ∨ reversed denominators ∈ bipartition purview)
        ∧ part0 = mk_part numerators.1 denominators.1
        ∧ part1 = mk_part numerators.2 denominators.2
        ∧ (∀ n, n ∈ part_mechanism part0 -> n ∉ part_purview part0)
        ∧ (∀ n, n ∈ part_mechanism part1 -> n ∉ part_purview part1)
        ∧ ¬ (part_mechanism part0 = [] ∧ part_purview part0 = [])
        ∧ ¬ (part_mechanism part1 = [] ∧ part_purview part1 = []).
Proof.
  unfold mip_bipartition. rewrite list_elem_of_bind. split.
  - intros (d & Hin & Hd). apply list_elem_of_bind in Hin as (n & Hin & Hn).
    destruct (valid_partition n d) eqn:Hv; [|by apply elem_of_nil in Hin].
    apply list_elem_of_singleton in Hin. injection Hin as -> ->.
    apply valid_partition_true in Hv.
    exists n, d. rewrite <- elem_of_both_orientations. simpl. tauto.
  - intros (n & d & Hn & Hd & -> & -> & Hv). simpl in Hv.
    exists d. rewrite elem_of_both_orientations. split; [|done].
    apply list_elem_of_bind. exists n. split; [|done].
    rewrite (proj2 (valid_partition_true n d)) by tauto.
    by apply list_elem_of_singleton.
Qed.
End MipBipartition.

(** C4, as the specification words it, fails: for the mechanism and the
    purview both made of nodes 0 and 1, the pair (1 / 1, 0 / 0) passes the
    selection of the specification, and [mip_bipartition] does not yield
    it. *)
Lemma spec_mip_bipartition_differs :
  (mk_part [1] [1], mk_part [0] [0])
    ∈ spec_mip_bipartition bipartition_model [0; 1] [0; 1]
  ∧ (mk_part [1] [1], mk_part [0] [0])
    ∉ mip_bipartition bipartition_model [0; 1] [0; 1].
Proof.
  split.
  - apply (bool_decide_unpack
             ((mk_part [1] [1], mk_part [0] [0])
              ∈ spec_mip_bipartition bipartition_model [0; 1] [0; 1])).
    vm_compute. exact I.
  - apply (bool_decide_unpack
             ((mk_part [1] [1], mk_part [0] [0])
              ∉ mip_bipartition bipartition_model [0; 1] [0; 1])).
    vm_compute. exact I.
Qed.

(** ** Comparisons of floats *)

Lemma Qltb_lt (a b : Q) : Qltb a b = true <-> (a < b)%Q.
Proof.
  unfold Qltb. rewrite negb_true_iff, <- not_true_iff_false, Qle_bool_iff.
  split; [apply Qnot_le_lt | apply Qlt_not_le].
Qed.

Lemma Qltb_ge (a b : Q) : Qltb a b = false <-> (b <= a)%Q.
Proof.
  unfold Qltb. rewrite negb_false_iff, Qle_bool_iff. done.
Qed.

Lemma flt_Fin (a b : Q) : flt (Fin a) (Fin b) = true <-> (a < b)%Q.
Proof. apply Qltb_lt. Qed.

(** A finite value below a bound is below every finite value that is not
    below that bound. *)
Lemma flt_below_not_below (a b : Q) (m : pyfloat) :
  flt (Fin a) m = true -> flt (Fin b) m = false -> (a < b)%Q.
Proof.
  destruct m as [|q|]; simpl; try discriminate.
  rewrite Qltb_lt, Qltb_ge. intros. lra.
Qed.

Lemma flt_Fin_trans (a b : Q) (m : pyfloat) :
  (a < b)%Q -> flt (Fin b) m = true -> flt (Fin a) m = true.
Proof.
  destruct m as [|q|]; simpl; try done.
  rewrite !Qltb_lt. intros. lra.
Qed.

(** ** The minimum information partition of a mechanism *)

Section FindMip.
Variable emd : repertoire -> repertoire -> Q.
Variable get_repertoire : list Node -> list Node -> repertoire.
Variable unpartitioned : repertoire.

Local Abbreviation it := (iteration emd get_repertoire unpartitioned).
Local Abbreviation dist :=
  (fun c => emd unpartitioned (partitioned_repertoire get_repertoire c)).
Local Abbreviation loop :=
  (find_mip_loop emd get_repertoire unpartitioned).

Lemma find_mip_loop_cons (x : a_part * a_part)
    (rest : list (a_part * a_part)) (mip : option a_mip)
    (difference_min : pyfloat) :
  loop (x :: rest) mip difference_min
  = if Qltb (dist x) EPSILON then (None, [it x])
    else if flt (Fin (dist x)) difference_min
         then ((loop rest (Some (it x)) (Fin (dist x))).1,
               it x :: (loop rest (Some (it x)) (Fin (dist x))).2)
         else ((loop rest mip difference_min).1,
               it x :: (loop rest mip difference_min).2).
Proof.
  cbn [find_mip_loop]. cbv zeta. cbn [mip_difference iteration].
  destruct (Qltb (dist x) EPSILON); [done|].
  destruct (flt (Fin (dist x)) difference_min); reflexivity.
Qed.

(** The loop stops at the first candidate below the threshold. *)
Lemma find_mip_loop_reducible (pre post : list (a_part * a_part))
    (c : a_part * a_part) (mip : option a_mip) (difference_min : pyfloat) :
  (∀ x, x ∈ pre -> (EPSILON <= dist x)%Q) ->
  (dist c < EPSILON)%Q ->
  loop (pre ++ c :: post) mip difference_min = (None, (it <$> pre) ++ [it c]).
Proof.
  intros Hpre Hc. revert mip difference_min.
  induction pre as [|x pre IH]; intros mip difference_min.
  - simpl app. rewrite find_mip_loop_cons.
    by rewrite (proj2 (Qltb_lt _ _) Hc).
  - rewrite <- app_comm_cons, find_mip_loop_cons.
    rewrite (proj2 (Qltb_ge _ _) (Hpre x (list_elem_of_here _ _))).
    assert (Hpre' : ∀ y, y ∈ pre -> (EPSILON <= dist y)%Q)
      by (intros y Hy; apply Hpre; by apply list_elem_of_further).
    destruct (flt _ difference_min); by rewrite (IH Hpre').
Qed.

(** Without a candidate below the threshold the loop runs over all
    candidates; it keeps the [mip] it started with when no candidate is
    below [difference_min], and otherwise ends with the first candidate
    of least distance. *)
Lemma find_mip_loop_minimal (candidates : list (a_part * a_part))
    (mip : option a_mip) (difference_min : pyfloat) :
  (∀ x, x ∈ candidates -> (EPSILON <= dist x)%Q) ->
  (loop candidates mip difference_min).2 = it <$> candidates
  ∧ (((loop candidates mip difference_min).1 = mip
      ∧ ∀ x, x ∈ candidates -> flt (Fin (dist x)) difference_min = false)
     ∨ ∃ pre c post,
         candidates = pre ++ c :: post
         ∧ (loop candidates mip difference_min).1 = Some (it c)
         ∧ flt (Fin (dist c)) difference_min = true
         ∧ (∀ x, x ∈ pre -> (dist c < dist x)%Q)
         ∧ (∀ x, x ∈ post -> (dist c <= dist x)%Q)).
Proof.
  revert mip difference_min.
  induction candidates as [|x rest IH]; intros mip difference_min Hall.
  - simpl. split; [done|]. left. split; [done|].
    intros x Hx. by apply elem_of_nil in Hx.
  - assert (Hrest : ∀ y, y ∈ rest -> (EPSILON <= dist y)%Q)
      by (intros y Hy; apply Hall; by apply list_elem_of_further).
    rewrite find_mip_loop_cons.
    rewrite (proj2 (Qltb_ge _ _) (Hall x (list_elem_of_here _ _))).
    destruct (flt (Fin (dist x)) difference_min) eqn:Hx.
    + destruct (IH (Some (it x)) (Fin (dist x)) Hrest) as [Hlog Hres].
      simpl. split; [by rewrite Hlog|]. right.
      destruct Hres as [[Hkeep Hno]|(pre & c & post & -> & Hr & Hc & Hp & Hq)].
      * exists [], x, rest. simpl. repeat split; try done.
        -- intros y Hy. by apply elem_of_nil in Hy.
        -- intros y Hy. apply Qltb_ge. exact (Hno y Hy).
      * exists (x :: pre), c, post. simpl. repeat split; try done.
        -- apply flt_Fin in Hc. by apply (flt_Fin_trans _ (dist x)).
        -- intros y [->|Hy]%elem_of_cons; [by apply flt_Fin in Hc|by apply Hp].
    + destruct (IH mip difference_min Hrest) as [Hlog Hres].
      simpl. split; [by rewrite Hlog|].
      destruct Hres as [[Hkeep Hno]|(pre & c & post & -> & Hr & Hc & Hp & Hq)].
      * left. split; [done|].
        intros y [->|Hy]%elem_of_cons; [done|by apply Hno].
      * right. exists (x :: pre), c, post. simpl. repeat split; try done.
        intros y [->|Hy]%elem_of_cons; [|by apply Hp].
        by apply (flt_below_not_below _ _ difference_min).
Qed.

(** A MIP that the loop returns is at least the threshold away, unless it
    is the one the loop started with. *)
Lemma find_mip_loop_difference (candidates : list (a_part * a_part))
    (mip : option a_mip) (difference_min : pyfloat) (m : a_mip) :
  (loop candidates mip difference_min).1 = Some m ->
  mip = Some m ∨ (EPSILON <= mip_difference m)%Q.
Proof.
  revert mip difference_min.
  induction candidates as [|x rest IH]; intros mip difference_min.
  - simpl. intros ->. by left.
  - rewrite find_mip_loop_cons.
    destruct (Qltb (dist x) EPSILON) eqn:Hx; [done|].
    apply Qltb_ge in Hx.
    destruct (flt _ difference_min); simpl; intros Hm.
    + destruct (IH _ _ Hm) as [[= <-]|H]; by right.
    + by apply (IH _ _ Hm).
Qed.
End FindMip.

Section FindMipSpec.
Variable bipartition : list Node -> list (list Node * list Node).
Variable emd : repertoire -> repertoire -> Q.
Variable cause_repertoire effect_repertoire :
  Subsystem -> list Node -> list Node -> repertoire.

Lemma choose_repertoire_valid (self : Subsystem) (direction : string) :
  direction = "past" ∨ direction = "future" ->
  choose_repertoire cause_repertoire effect_repertoire self direction
  = Ok (if String.eqb direction "past" then cause_repertoire self
        else effect_repertoire self).
Proof. by intros [-> | ->]. Qed.

(** C2.  For a valid direction, let the distance of a candidate
    bipartition be the EMD between the unpartitioned repertoire, that of
    the mechanism over the purview, and the product of the repertoires of
    the candidate's two parts.  [find_mip] returns [None] at the first
    candidate whose distance is less than [EPSILON], without running the
    loop on the candidates after it.  When no candidate is that close it
    runs the loop on all of them and returns the first candidate of least
    distance, with that product as its repertoire and that distance as
    its difference: every candidate before it is strictly farther away,
    and no candidate is closer ([None] when there is no candidate). *)
Theorem find_mip_spec (self : Subsystem) (direction : string)
    (mechanism purview : list Node) :
  direction = "past" ∨ direction = "future" ->
  let get_repertoire :=
    if String.eqb direction "past" then cause_repertoire self
    else effect_repertoire self in
  let candidates := mip_bipartition bipartition mechanism purview in
  let product := fun c : a_part * a_part =>
    repertoire_mul
      (get_repertoire (part_mechanism c.1) (part_purview c.1))
      (get_repertoire (part_mechanism c.2) (part_purview c.2)) in
  let dist := fun c => emd (get_repertoire mechanism purview) (product c) in
  let it := fun c => mk_mip c (product c) (dist c) in
  ∃ (mip : option a_mip) (log : list a_mip),
    find_mip bipartition emd cause_repertoire effect_repertoire
      self direction mechanism purview = Ok (mip, log)
    ∧ (∀ pre c post,
         candidates = pre ++ c :: post ->
         (∀ x, x ∈ pre -> (EPSILON <= dist x)%Q) ->
         (dist c < EPSILON)%Q ->
         mip = None ∧ log = (it <$> pre) ++ [it c])
    ∧ ((∀ x, x ∈ candidates -> (EPSILON <= dist x)%Q) ->
       log = it <$> candidates
       ∧ (candidates = [] -> mip = None)
       ∧ (candidates ≠ [] ->
          ∃ pre c post,
            candidates = pre ++ c :: post
            ∧ mip = Some (it c)
            ∧ (∀ x, x ∈ pre -> (dist c < dist x)%Q)
            ∧ (∀ x, x ∈ candidates -> (dist c <= dist x)%Q))).
Proof.
  intros Hdir get_repertoire candidates product dist it.
  (* one turn of the loop computes this product and this distance *)
  assert (Hit : it = iteration emd get_repertoire
                       (get_repertoire mechanism purview)) by reflexivity.
  assert (Hdist : dist = fun c => mip_difference (it c)) by reflexivity.
  clearbody it dist. subst it dist.
  unfold find_mip. rewrite (choose_repertoire_valid _ _ Hdir).
  simpl. fold get_repertoire. fold candidates.
  set (out := find_mip_loop emd get_repertoire
                (get_repertoire mechanism purview) candidates None PosInf).
  exists out.1, out.2. split; [by destruct out|]. split.
  - intros pre c post Hc Hpre Hlt. subst out. rewrite Hc.
    by rewrite (find_mip_loop_reducible emd get_repertoire _ pre post c).
  - intros Hall.
    destruct (find_mip_loop_minimal emd get_repertoire
                (get_repertoire mechanism purview) candidates None PosInf
                Hall) as [Hlog Hres].
    fold out in Hlog, Hres. split; [exact Hlog|].
    destruct Hres as [[Hnone Hno]|(pre & c & post & Hc & Hr & _ & Hp & Hq)].
    + split; [done|]. intros Hne. destruct candidates as [|x rest]; [done|].
      by specialize (Hno x (list_elem_of_here _ _)).
    + split.
      * intros Hnil. rewrite Hnil in Hc. by destruct pre.
      * intros _. exists pre, c, post. repeat split; try done.
        intros x Hx. rewrite Hc in Hx.
        apply elem_of_app in Hx as [Hx|Hx].
        -- apply Qlt_le_weak. by apply Hp.
        -- apply elem_of_cons in Hx as [->|Hx]; [apply Qle_refl|by apply Hq].
Qed.

(** A MIP returned by [find_mip] is at least [EPSILON] away. *)
Lemma find_mip_difference (self : Subsystem) (direction : string)
    (mechanism purview : list Node) (mip : a_mip) (log : list a_mip) :
  find_mip bipartition emd cause_repertoire effect_repertoire
    self direction mechanism purview = Ok (Some mip, log) ->
  (EPSILON <= mip_difference mip)%Q.
Proof.
  unfold find_mip.
  destruct (choose_repertoire _ _ self direction) as [get|e]; [|done].
  simpl. intros [= H]. apply (f_equal fst) in H. simpl in H.
  by destruct (find_mip_loop_difference emd get _ _ _ _ _ H).
Qed.
End FindMipSpec.

Lemma find_mip_spec_witness :
  ∃ (mip : option a_mip) (log : list a_mip),
    find_mip bipartition_model demo_emd demo_repertoire demo_repertoire
      demo_sub "past" [0] [1] = Ok (mip, log).
Proof.
  destruct (find_mip_spec bipartition_model demo_emd demo_repertoire
              demo_repertoire demo_sub "past" [0] [1]
              (or_introl eq_refl)) as (mip & log & H & _).
  exists mip, log. exact H.
Defined.

(** ** Subsets *)

Lemma elem_of_combinations (s q : list Node) (r : nat) :
  q ∈ combinations s r <-> q `sublist_of` s ∧ length q = r.
Proof.
  revert q r. induction s as [|x s IH]; intros q [|r]; simpl.
  - rewrite list_elem_of_singleton, sublist_nil_r.
    split; [by intros ->|by intros [-> _]].
  - rewrite elem_of_nil, sublist_nil_r. split; [done|by intros [-> ?]].
  - rewrite list_elem_of_singleton. split.
    + intros ->. split; [apply sublist_nil_l|done].
    + intros [_ Hlen]. by destruct q.
  - rewrite elem_of_app, list_elem_of_fmap, sublist_cons_r, IH. split.
    + intros [(q' & -> & [Hq' <-]%IH)|[Hq Hlen]].
      * split; [right; by exists q'|done].
      * split; [by left|done].
    + intros [[Hq|(q' & -> & Hq')] Hlen].
      * by right.
      * left. exists q'. split; [done|]. apply IH. split; [done|].
        simpl in Hlen. lia.
Qed.

(** The modelled [powerset] enumerates the subsets of a list of nodes, the
    empty one included. *)
Lemma elem_of_powerset (s q : list Node) :
  q ∈ powerset s <-> q `sublist_of` s.
Proof.
  unfold powerset. rewrite list_elem_of_bind. split.
  - intros (r & [Hq _]%elem_of_combinations & _). exact Hq.
  - intros Hq. exists (length q). split.
    + by apply elem_of_combinations.
    + apply elem_of_seq. apply sublist_length in Hq. lia.
Qed.

(** ** The maximally irreducible cause or effect of a mechanism *)

Section FindMice.
Variable find_mip' :
  list Node -> list Node -> result (option a_mip * list a_mip).
Variable mechanism : list Node.
(** The MIP that [find_mip'] returns for each purview. *)
Variable mip_of : list Node -> option a_mip.
Hypothesis find_mip_returns :
  ∀ purview, ∃ log, find_mip' mechanism purview = Ok (mip_of purview, log).

Local Abbreviation state := (mice_state mechanism mip_of).

Lemma mice_state_skip (seen : list (list Node)) (x : list Node)
    (st : pyfloat * option (list Node)) :
  mip_of x = None -> state seen st -> state (seen ++ [x]) st.
Proof.
  intros Hx [[-> Hall]|(p & m & Hp & Hm & -> & Hbest)].
  - left. split; [done|].
    intros q [Hq|Hq%list_elem_of_singleton]%elem_of_app;
      [by apply Hall|by subst].
  - right. exists p, m. split; [apply elem_of_app; by left|].
    split; [done|]. split; [done|].
    intros q mq [Hq|Hq%list_elem_of_singleton]%elem_of_app Hmq;
      [by apply (Hbest q mq)|subst; congruence].
Qed.

(** The purview [x] becomes the best one. *)
Lemma mice_state_take (seen : list (list Node)) (x : list Node)
    (m : a_mip) :
  mip_of x = Some m ->
  (∀ q mq, q ∈ seen -> mip_of q = Some mq ->
     (mip_difference mq <= mip_difference m)%Q
     ∧ (mip_difference mq == mip_difference m -> length q <= length x)) ->
  state (seen ++ [x]) (Fin (mip_difference m), Some x).
Proof.
  intros Hm Hbest. right. exists x, m.
  split; [apply elem_of_app; right; by left|].
  split; [done|]. split; [done|].
  intros q mq [Hq|Hq%list_elem_of_singleton]%elem_of_app Hmq;
    [by apply Hbest|].
  subst. assert (mq = m) as -> by congruence.
  split; [apply Qle_refl|done].
Qed.

(** The best purview so far stays the best one. *)
Lemma mice_state_keep (seen : list (list Node)) (x p : list Node)
    (m mp : a_mip) :
  mip_of x = Some m ->
  state seen (Fin (mip_difference mp), Some p) ->
  (mip_difference m <= mip_difference mp)%Q ->
  (mip_difference m == mip_difference mp -> length x <= length p) ->
  state (seen ++ [x]) (Fin (mip_difference mp), Some p).
Proof.
  intros Hm [[[=] _]|(p' & m' & Hp & Hm' & Heq & Hbest)] Hle Hlen.
  right. exists p', m'. split; [apply elem_of_app; by left|].
  split; [done|]. split; [done|].
  intros q mq [Hq|Hq%list_elem_of_singleton]%elem_of_app Hmq;
    [by apply Hbest|].
  subst. assert (mq = m) as -> by congruence.
  injection Heq as Hd Hp'. subst p'. rewrite <- Hd. by split.
Qed.

Lemma find_mice_loop_state (rest seen : list (list Node))
    (st : pyfloat * option (list Node)) :
  state seen st ->
  ∃ st', find_mice_loop find_mip' mechanism rest st.1 st.2 = Ok st'
         ∧ state (seen ++ rest) st'.
Proof.
  revert seen st. induction rest as [|x rest IH]; intros seen st Hst.
  - exists st. rewrite app_nil_r. by destruct st.
  - replace (seen ++ x :: rest) with ((seen ++ [x]) ++ rest)
      by (by rewrite <- app_assoc).
    destruct (find_mip_returns x) as [log Hx].
    cbn [find_mice_loop]. rewrite Hx. cbn [mbind result_bind rbind fst].
    destruct (mip_of x) as [m|] eqn:Hm;
      [|apply IH; by apply mice_state_skip].
    destruct Hst as [[-> Hall]|(p & mp & Hp & Hmp & -> & Hbest)].
    + (* nothing found yet: phi_max is -inf, and phi > phi_max *)
      cbn [takes_over fgt flt fst snd mbind result_bind rbind].
      apply (IH _ (Fin (mip_difference m), Some x)).
      apply mice_state_take; [done|].
      intros q mq Hq Hmq. rewrite (Hall q Hq) in Hmq. done.
    + assert (Hst : state seen (Fin (mip_difference mp), Some p)).
      { right. by exists p, mp. }
      unfold takes_over. cbn [fst snd fgt flt feq].
      destruct (Qltb (mip_difference mp) (mip_difference m)) eqn:Hgt.
      * (* phi > phi_max *)
        apply Qltb_lt in Hgt. cbn [mbind result_bind rbind].
        apply (IH _ (Fin (mip_difference m), Some x)).
        apply mice_state_take; [done|].
        intros q mq Hq Hmq. destruct (Hbest q mq Hq Hmq) as [Hle _].
        split; [lra|]. intros Heq. lra.
      * apply Qltb_ge in Hgt.
        destruct (Qeq_bool (mip_difference m) (mip_difference mp)) eqn:Heq.
        -- (* phi == phi_max: the longer purview wins *)
           apply Qeq_bool_iff in Heq.
           cbn [py_len mbind result_bind rbind].
           destruct (length p <? length x) eqn:Hlen.
           ++ apply Nat.ltb_lt in Hlen.
              apply (IH _ (Fin (mip_difference m), Some x)).
              apply mice_state_take; [done|].
              intros q mq Hq Hmq. destruct (Hbest q mq Hq Hmq) as [Hle Hl].
              split; [lra|]. intros Heq'.
              assert (length q <= length p) by (apply Hl; lra). lia.
           ++ apply Nat.ltb_ge in Hlen.
              apply (IH _ (Fin (mip_difference mp), Some p)).
              by apply (mice_state_keep _ _ _ m).
        -- (* phi < phi_max *)
           apply Qeq_bool_neq in Heq. cbn [mbind result_bind rbind].
           apply (IH _ (Fin (mip_difference mp), Some p)).
           apply (mice_state_keep _ _ _ m); [done|done|done|].
           intros Heq'. by destruct Heq.
Qed.
End FindMice.

Section FindMiceSpec.
Variable bipartition : list Node -> list (list Node * list Node).
Variable emd : repertoire -> repertoire -> Q.
Variable cause_repertoire effect_repertoire :
  Subsystem -> list Node -> list Node -> repertoire.

Local Abbreviation find_mip_ :=
  (find_mip bipartition emd cause_repertoire effect_repertoire).
Local Abbreviation find_mice_ :=
  (find_mice bipartition emd cause_repertoire effect_repertoire).

(** For a valid direction [find_mice] is its loop over the powerset of
    the subsystem's nodes, started with phi_max = -inf and no purview. *)
Lemma find_mice_valid (self : Subsystem) (direction : string)
    (mechanism : list Node) :
  direction = "past" ∨ direction = "future" ->
  find_mice_ self direction mechanism
  = (st ← find_mice_loop (find_mip_ self direction) mechanism
            (powerset (nodes self)) NegInf None;
     Ok (mk_mice st.2 st.1)).
Proof. by intros [-> | ->]. Qed.

Lemma find_mice_invalid (self : Subsystem) (direction : string)
    (mechanism : list Node) :
  ¬ (direction = "past" ∨ direction = "future") ->
  find_mice_ self direction mechanism = Raise ValueError.
Proof.
  intros Hdir. unfold find_mice.
  destruct (String.eqb direction "past") eqn:Hp.
  { apply String.eqb_eq in Hp. destruct Hdir. by left. }
  destruct (String.eqb direction "future") eqn:Hf.
  { apply String.eqb_eq in Hf. destruct Hdir. by right. }
  done.
Qed.

(** For a valid direction [find_mip] returns, for every purview. *)
Lemma find_mip_valid (self : Subsystem) (direction : string)
    (mechanism purview : list Node) :
  direction = "past" ∨ direction = "future" ->
  ∃ out, find_mip_ self direction mechanism purview = Ok out.
Proof.
  intros Hdir. unfold find_mip.
  rewrite (choose_repertoire_valid _ _ _ _ Hdir). simpl. eauto.
Qed.

(** The loop of [find_mice] ends in a state that accounts for every
    subset of the subsystem's nodes. *)
Lemma find_mice_loop_powerset (self : Subsystem) (direction : string)
    (mechanism : list Node) :
  direction = "past" ∨ direction = "future" ->
  ∃ mip_of st,
    (∀ q, ∃ log, find_mip_ self direction mechanism q = Ok (mip_of q, log))
    ∧ find_mice_loop (find_mip_ self direction) mechanism
        (powerset (nodes self)) NegInf None = Ok st
    ∧ mice_state mechanism mip_of (powerset (nodes self)) st.
Proof.
  intros Hdir.
  set (mip_of := fun q =>
         match find_mip_ self direction mechanism q with
         | Ok out => out.1
         | Raise _ => None
         end).
  assert (Hret : ∀ q, ∃ log,
             find_mip_ self direction mechanism q = Ok (mip_of q, log)).
  { intros q. subst mip_of. simpl.
    destruct (find_mip_valid self direction mechanism q Hdir) as [[m log] ->].
    by exists log. }
  destruct (find_mice_loop_state (find_mip_ self direction) mechanism
              mip_of Hret (powerset (nodes self)) [] (NegInf, None))
    as (st & Hloop & Hst).
  { left. split; [done|]. intros q Hq. by apply elem_of_nil in Hq. }
  exists mip_of, st. by rewrite app_nil_l in Hst.
Qed.

(** C6.  For a valid direction, [find_mice] takes every subset of the
    subsystem's nodes, the empty one included, as a candidate purview.
    If no subset yields a MIP it returns the MICE with purview [None]
    and phi = -inf.  Otherwise it returns a subset that yields a MIP,
    with that MIP's phi; no subset yields a MIP of larger phi, and none
    of equal phi has more nodes. *)
Theorem find_mice_spec (self : Subsystem) (direction : string)
    (mechanism : list Node) :
  direction = "past" ∨ direction = "future" ->
  ∃ mice,
    find_mice_ self direction mechanism = Ok mice
    ∧ ((∀ q, q `sublist_of` nodes self ->
          ∃ log, find_mip_ self direction mechanism q = Ok (None, log)) ->
       mice = mk_mice None NegInf)
    ∧ (∀ q mq log,
         q `sublist_of` nodes self ->
         find_mip_ self direction mechanism q = Ok (Some mq, log) ->
         ∃ p m logp,
           p `sublist_of` nodes self
           ∧ find_mip_ self direction mechanism p = Ok (Some m, logp)
           ∧ mice = mk_mice (Some p) (Fin (mip_difference m))
           ∧ (mip_difference mq <= mip_difference m)%Q
           ∧ (mip_difference mq == mip_difference m ->
              length q <= length p)).
Proof.
  intros Hdir.
  destruct (find_mice_loop_powerset self direction mechanism Hdir)
    as (mip_of & st & Hret & Hloop & Hst).
  rewrite (find_mice_valid _ _ _ Hdir), Hloop.
  cbn [mbind result_bind rbind].
  exists (mk_mice st.2 st.1). split; [done|].
  destruct Hst as [[-> Hall]|(p & m & Hp & Hm & -> & Hbest)].
  - split; [done|]. intros q mq log Hq Hmq.
    destruct (Hret q) as [log' Hq']. rewrite Hq' in Hmq.
    rewrite (Hall q) in Hmq by (by apply elem_of_powerset). done.
  - split.
    + intros Hnone. apply elem_of_powerset in Hp.
      destruct (Hnone p Hp) as [log Hlog].
      destruct (Hret p) as [log' Hlog']. congruence.
    + intros q mq log Hq Hmq. destruct (Hret p) as [logp Hlogp].
      exists p, m, logp. rewrite Hm in Hlogp.
      split; [by apply elem_of_powerset|]. split; [done|].
      split; [done|]. apply Hbest; [by apply elem_of_powerset|].
      destruct (Hret q) as [log' Hq']. congruence.
Qed.

(** C10.  Every MIP that [find_mip] returns is at least [EPSILON] away,
    which is greater than -inf; while no purview has been found, phi_max
    is -inf, so the test of the loop is decided by [phi > phi_max] and
    the length of [maximal_purview] is not taken; and [find_mice] never
    raises [TypeError]: it returns, or raises [ValueError] for a
    direction that is neither 'past' nor 'future'. *)
Theorem find_mice_len_safe (self : Subsystem) (direction : string)
    (mechanism : list Node) :
  (∀ purview,
     match find_mip_ self direction mechanism purview with
     | Ok (Some mip, _) =>
         (EPSILON <= mip_difference mip)%Q
         ∧ fgt (Fin (mip_difference mip)) NegInf = true
         ∧ takes_over (Fin (mip_difference mip)) NegInf purview None
           = Ok true
     | _ => True
     end)
  ∧ (find_mice_ self direction mechanism = Raise ValueError
     ∨ ∃ mice, find_mice_ self direction mechanism = Ok mice).
Proof.
  split.
  - intros purview.
    destruct (find_mip_ self direction mechanism purview)
      as [[[mip|] log]|e] eqn:Hmip; try done.
    split; [|done].
    by apply (find_mip_difference _ _ _ _ _ _ _ _ _ _ Hmip).
  - destruct (decide (direction = "past" ∨ direction = "future"))
      as [Hdir|Hdir].
    + right.
      destruct (find_mice_loop_powerset self direction mechanism Hdir)
        as (mip_of & st & _ & Hloop & _).
      rewrite (find_mice_valid _ _ _ Hdir), Hloop. eauto.
    + left. by apply find_mice_invalid.
Qed.
End FindMiceSpec.

Lemma find_mice_spec_witness :
  ∃ mice,
    find_mice bipartition_model demo_emd demo_repertoire demo_repertoire
      demo_sub "past" [0] = Ok mice.
Proof.
  destruct (find_mice_spec bipartition_model demo_emd demo_repertoire
              demo_repertoire demo_sub "past" [0] (or_introl eq_refl))
    as (mice & H & _).
  exists mice. exact H.
Defined.

(** ** The distance between constellations *)

Lemma py_sum_snoc (l : list Q) (x : Q) :
  py_sum (l ++ [x]) = (py_sum l + x)%Q.
Proof. unfold py_sum. by rewrite foldl_app. Qed.

Lemma set_last_snoc (l : list Q) (y x : Q) :
  set_last (l ++ [y]) x = Ok (l ++ [x]).
Proof.
  unfold set_last. destruct (l ++ [y]) eqn:E; [by destruct l|].
  rewrite <- E. f_equal.
  rewrite length_app. simpl.
  rewrite insert_app_r_alt by lia.
  replace (length l + 1 - 1 - length l) with 0 by lia. done.
Qed.

Lemma phi_distribution_snoc (constellation pre : list Concept) (c : Concept) :
  phi_distribution constellation (pre ++ [c])
  = phi_distribution constellation pre
    ++ [if bool_decide (c ∈ constellation) then concept_phi c else 0%Q].
Proof. unfold phi_distribution. by rewrite fmap_app. Qed.

(** What the assignment of the residual does to the two phi masses, for a
    null concept of phi zero: the masses are made equal when the first
    distribution is not the lighter one, and are left twice the residual
    apart when it is. *)
Lemma phi_distributions_masses (C1 C2 unique_C1 unique_C2 : list Concept)
    (subsystem : Subsystem) :
  (concept_phi (null_concept subsystem) == 0)%Q ->
  let all := all_concepts C1 C2 unique_C1 unique_C2 subsystem in
  let residual :=
    (py_sum (phi_distribution C1 all) - py_sum (phi_distribution C2 all))%Q in
  ∃ d1 d2,
    phi_distributions C1 C2 unique_C1 unique_C2 subsystem = Ok (d1, d2)
    ∧ ((0 <= residual)%Q -> (py_sum d1 == py_sum d2)%Q)
    ∧ ((residual < 0)%Q -> (py_sum d1 - py_sum d2 == 2 * residual)%Q).
Proof.
  intros Hnull all residual. unfold phi_distributions. fold all.
  fold residual.
  assert (Hall : all = (filter (fun c => c ∈ C2) C1 ++ unique_C1 ++ unique_C2)
                       ++ [null_concept subsystem]).
  { subst all. unfold all_concepts. by rewrite <- !app_assoc. }
  set (pre := filter (fun c => c ∈ C2) C1 ++ unique_C1 ++ unique_C2) in Hall.
  assert (Hd : ∀ C, ∃ z, (z == 0)%Q
                 ∧ phi_distribution C all = phi_distribution C pre ++ [z]).
  { intros C. rewrite Hall, phi_distribution_snoc.
    eexists. split; [|done]. by case_bool_decide. }
  destruct (Hd C1) as (z1 & Hz1 & Hd1). destruct (Hd C2) as (z2 & Hz2 & Hd2).
  assert (Hres : (residual == py_sum (phi_distribution C1 pre)
                              - py_sum (phi_distribution C2 pre))%Q).
  { subst residual. rewrite Hd1, Hd2, !py_sum_snoc. lra. }
  rewrite Hd1, Hd2.
  destruct (Qltb 0 residual) eqn:Hpos; destruct (Qltb residual 0) eqn:Hneg;
    rewrite ?set_last_snoc; cbn [mbind result_bind rbind];
    rewrite ?Qltb_lt, ?Qltb_ge in *;
    eexists _, _; (split; [reflexivity|]); rewrite ?py_sum_snoc;
    split; intros; lra.
Qed.

(** C1 fails on the code.  Constellation [a] (phi 1) against constellation
    [b] (phi 2): each holds a concept the other lacks, so the distance
    takes the general path; the residual is -1 and is written with its
    sign into the first distribution, whose mass becomes 0 against 2. *)
Theorem phi_distributions_unbalanced :
  filter (fun c => c ∉ [concept_b]) [concept_a] = [concept_a]
  ∧ filter (fun c => c ∉ [concept_a]) [concept_b] = [concept_b]
  ∧ phi_distributions [concept_a] [concept_b] [concept_a] [concept_b]
      demo_sub = Ok ([1; 0; -1]%Q, [0; 2; 0]%Q)
  ∧ py_sum [1; 0; -1]%Q = 0%Q
  ∧ py_sum [0; 2; 0]%Q = 2%Q
  ∧ ¬ (0 == 2)%Q.
Proof. repeat split; try (vm_compute; reflexivity). intros H. lra. Qed.

Lemma py_sum_from (l : list Q) (a : Q) :
  (foldl Qplus a l == a + py_sum l)%Q.
Proof.
  unfold py_sum. revert a. induction l as [|x l IH]; intros a; simpl.
  - lra.
  - rewrite (IH (a + x)%Q), (IH (0 + x)%Q). lra.
Qed.

Lemma py_sum_nonnegative (l : list Q) :
  Forall (fun x => (0 <= x)%Q) l -> (0 <= py_sum l)%Q.
Proof.
  induction 1 as [|x l Hx Hl IH]; [unfold py_sum; simpl; lra|].
  unfold py_sum. simpl. rewrite py_sum_from. lra.
Qed.

(** A transport plan carries non-negative masses only. *)
Lemma transport_plan_nonnegative (d1 d2 : list Q) (flow : list (list Q)) :
  transport_plan d1 d2 flow -> Forall (fun x => (0 <= x)%Q) d1.
Proof.
  intros (Hflow & Hrows & _). revert Hflow.
  induction Hrows as [|row mass flow d1 Hsum Hrows IH]; intros Hflow;
    [done|].
  apply Forall_cons in Hflow as [[_ Hrow] Hflow].
  apply Forall_cons. split; [|by apply IH].
  rewrite <- Hsum. by apply py_sum_nonnegative.
Qed.

Section ConstellationDistance.
Variable hamming_emd : tensor -> tensor -> Q.
Variable expand_cause_repertoire expand_effect_repertoire :
  Concept -> tensor.
Variable emd : list Q -> list Q -> list (list Q) -> Q.

Local Abbreviation distance :=
  (constellation_distance hamming_emd expand_cause_repertoire
     expand_effect_repertoire emd).
Local Abbreviation matrix :=
  (distance_matrix hamming_emd expand_cause_repertoire
     expand_effect_repertoire).

Lemma filter_nil_iff {A : Type} (P : A -> Prop) `{!∀ x, Decision (P x)}
    (l : list A) :
  filter P l = [] <-> ∀ x, x ∈ l -> ¬ P x.
Proof.
  split.
  - intros Hf x Hx HP. by apply (filter_nil_not_elem_of P l x).
  - intros Hf. induction l as [|x l IH]; [done|].
    rewrite filter_cons. destruct (decide (P x)) as [HP|_].
    + destruct (Hf x); [by left|done].
    + apply IH. intros y Hy. apply Hf. by right.
Qed.

(** A duplicate-free constellation whose concepts all occur in another one
    of the same length holds every concept of the other one. *)
Lemma same_length_covered (C1 C2 : list Concept) :
  NoDup C1 -> length C1 = length C2 ->
  filter (fun c => c ∉ C2) C1 = [] -> filter (fun c => c ∉ C1) C2 = [].
Proof.
  intros Hnd Hlen H. rewrite filter_nil_iff in H. apply filter_nil_iff.
  assert (Hp : C1 ≡ₚ C2).
  { apply submseteq_length_Permutation; [|lia].
    apply NoDup_submseteq; [done|]. intros x Hx.
    destruct (decide (x ∈ C2)) as [|Hn]; [done|]. by destruct (H x Hx). }
  intros x Hx Hn. apply Hn. by rewrite Hp.
Qed.

(** The cheap path is symmetric: for duplicate-free constellations of which
    one has no concept of its own, the distance does not depend on the
    order of the two constellations. *)
Lemma constellation_distance_simple_sym (C1 C2 : list Concept)
    (subsystem : Subsystem) :
  NoDup C1 -> NoDup C2 ->
  filter (fun c => c ∉ C2) C1 = [] ∨ filter (fun c => c ∉ C1) C2 = [] ->
  distance C1 C2 subsystem = distance C2 C1 subsystem.
Proof.
  intros Hnd1 Hnd2 Hone. unfold constellation_distance.
  assert (Hpath : bool_decide (filter (fun c => c ∉ C2) C1 = [])
                  || bool_decide (filter (fun c => c ∉ C1) C2 = []) = true).
  { destruct Hone as [H|H]; rewrite (bool_decide_eq_true_2 _ H);
      [done|apply orb_true_r]. }
  rewrite Hpath, (orb_comm (bool_decide (filter (fun c => c ∉ C1) C2 = []))).
  rewrite Hpath. f_equal. unfold _constellation_distance_simple.
  destruct (Nat.lt_trichotomy (length C1) (length C2)) as [Hlt|[Heq|Hgt]].
  - rewrite (proj2 (Nat.ltb_lt _ _) Hlt).
    by rewrite (proj2 (Nat.ltb_ge _ _)) by lia.
  - rewrite !(proj2 (Nat.ltb_ge _ _)) by lia.
    assert (filter (fun c => c ∉ C2) C1 = []
            ∧ filter (fun c => c ∉ C1) C2 = []) as [-> ->]; [|done].
    destruct Hone as [H|H].
    + split; [done|]. by apply same_length_covered.
    + split; [|done]. by apply same_length_covered.
  - rewrite (proj2 (Nat.ltb_lt _ _) Hgt).
    by rewrite (proj2 (Nat.ltb_ge _ _)) by lia.
Qed.

(** The two orders on the general path, for the constellations [a]
    (phi 1) and [b] (phi 2): in one order [utils.emd] is called on the
    masses (1, 0, -1) and (0, 2, 0), in the other on (2, 0, 0) and
    (0, 1, 1).  The second pair has a transport plan; the first has none
    (a negative mass).  What the two calls return is decided by
    [utils.emd], which is not among the sources. *)
Lemma constellation_distance_orders :
  distance [concept_a] [concept_b] demo_sub
  = Ok (emd [1; 0; -1]%Q [0; 2; 0]%Q
          (matrix [concept_a; concept_b; demo_null]))
  ∧ distance [concept_b] [concept_a] demo_sub
    = Ok (emd [2; 0; 0]%Q [0; 1; 1]%Q
            (matrix [concept_b; concept_a; demo_null]))
  ∧ (¬ ∃ flow, transport_plan [1; 0; -1]%Q [0; 2; 0]%Q flow)
  ∧ transport_plan [2; 0; 0]%Q [0; 1; 1]%Q
      [[0; 1; 1]; [0; 0; 0]; [0; 0; 0]]%Q.
Proof.
  split; [vm_compute; reflexivity|]. split; [vm_compute; reflexivity|].
  split.
  - intros [flow Hplan]. apply transport_plan_nonnegative in Hplan.
    rewrite !Forall_cons in Hplan. destruct Hplan as (_ & _ & Hneg & _).
    lra.
  - split; [|split].
    + repeat (apply Forall_cons; split; [split; [done|]|]);
        repeat (apply Forall_cons; split; [lra|]); by apply Forall_nil.
    + repeat (apply Forall2_cons; split; [vm_compute; reflexivity|]).
      by apply Forall2_nil.
    + intros [|[|[|j]]] mass [= <-]; vm_compute; reflexivity.
Qed.
End ConstellationDistance.
(** ** The big MIP of a subsystem *)

Section BigMipSpec.
Variable SINGLE_NODES_WITH_SELFLOOPS_HAVE_PHI : bool.
Variable BigMip_lt : BigMip -> BigMip -> bool.
Variable _all_connect_to_any _any_connect_to_all :
  Subsystem -> list Node -> list Node -> bool.
Variable _concept : Subsystem -> list Node -> Concept.
Variable bipartition : list nat -> list (list nat * list nat).
Variable constellation_distance :
  list Concept -> list Concept -> Subsystem -> Q.
Variable tostring : ndarray -> list byte.
Variable py_hash : hash_key -> Z.

Local Abbreviation _big_mip_body_ :=
  (_big_mip_body SINGLE_NODES_WITH_SELFLOOPS_HAVE_PHI BigMip_lt
     _all_connect_to_any _any_connect_to_all _concept bipartition
     constellation_distance).
Local Abbreviation _big_mip_ :=
  (_big_mip SINGLE_NODES_WITH_SELFLOOPS_HAVE_PHI BigMip_lt
     _all_connect_to_any _any_connect_to_all _concept bipartition
     constellation_distance).
Local Abbreviation big_mip_ :=
  (big_mip SINGLE_NODES_WITH_SELFLOOPS_HAVE_PHI BigMip_lt
     _all_connect_to_any _any_connect_to_all _concept bipartition
     constellation_distance tostring py_hash).

(** A call of [_big_mip] that finds nothing stored under its key runs the
    body, and stores what the body returns. *)
Lemma _big_mip_miss (store : gmap Z BigMip) (cache_key : Z)
    (subsystem : Subsystem) :
  store !! cache_key = None ->
  _big_mip_ store cache_key subsystem
  = (_big_mip_body_ cache_key subsystem,
     match (_big_mip_body_ cache_key subsystem).1 with
     | Ok computed => <[cache_key := computed]> store
     | Raise _ => store
     end).
Proof.
  intros Hmiss. unfold _big_mip. rewrite Hmiss.
  by destruct (_big_mip_body_ cache_key subsystem) as [[mip|e] evaluated].
Qed.

(** A call that finds a result returns it, evaluates nothing and leaves
    the store as it is. *)
Lemma _big_mip_hit (store : gmap Z BigMip) (cache_key : Z)
    (subsystem : Subsystem) (found : BigMip) :
  store !! cache_key = Some found ->
  _big_mip_ store cache_key subsystem = ((Ok found, []), store).
Proof. intros Hhit. unfold _big_mip. by rewrite Hhit. Qed.

(** What the code does at the degeneracy check, on a call that finds
    nothing stored: a subsystem that is empty, or whose induced
    connectivity matrix has more than one component as
    [connected_components] counts them (weakly connected components),
    gets the null MIP, and no bipartition is evaluated. *)
Lemma _big_mip_degenerate (store : gmap Z BigMip) (cache_key : Z)
    (subsystem : Subsystem) :
  store !! cache_key = None ->
  length (nodes subsystem) ≠ 1 ->
  nodes subsystem = []
  ∨ (∃ cm, submatrix (connectivity_matrix (network subsystem))
             (index <$> nodes subsystem) (index <$> nodes subsystem) = Ok cm
           ∧ 1 < connected_components cm) ->
  _big_mip_ store cache_key subsystem
  = ((Ok (_null_mip subsystem), []),
     <[cache_key := _null_mip subsystem]> store).
Proof.
  intros Hmiss Hlen Hdeg. rewrite (_big_mip_miss _ _ _ Hmiss).
  assert (Hbody : _big_mip_body_ cache_key subsystem
                  = (Ok (_null_mip subsystem), [])).
  { unfold _big_mip_body, Subsystem_bool.
    rewrite (proj2 (Nat.eqb_neq _ _) Hlen).
    destruct Hdeg as [Hnil|(cm & -> & Hcc)]; [by rewrite Hnil|].
    destruct (length (nodes subsystem) =? 0); [done|]. simpl.
    by rewrite (proj2 (Nat.ltb_lt _ _) Hcc). }
  by rewrite Hbody.
Qed.

(** Where the claim holds: two subsystems with the same set of nodes,
    the same state arrays (elements and element type) and the same network
    are equal and have the same hash, whatever their cuts and whatever
    caches they carry; the key under which [big_mip] stores and finds a
    result is this hash, so that after a call on one of them a call on
    the other finds the stored result and evaluates nothing. *)
Lemma subsystem_identity (s1 s2 : Subsystem) :
  list_to_set (nodes s1) =@{gset Node} list_to_set (nodes s2) ->
  current_state s1 = current_state s2 ->
  past_state s1 = past_state s2 ->
  network s1 = network s2 ->
  Subsystem_eq s1 s2 = true
  ∧ Subsystem_ne s1 s2 = false
  ∧ Subsystem_hash tostring py_hash s1 = Subsystem_hash tostring py_hash s2
  ∧ ∀ store found evaluated store',
      big_mip_ store s1 = ((Ok found, evaluated), store') ->
      big_mip_ store' s2 = ((Ok found, []), store').
Proof.
  intros Hnodes Hcur Hpast Hnet.
  assert (Heq : Subsystem_eq s1 s2 = true).
  { unfold Subsystem_eq, array_equal.
    by rewrite Hcur, Hpast, !bool_decide_eq_true_2. }
  assert (Hhash : Subsystem_hash tostring py_hash s1
                  = Subsystem_hash tostring py_hash s2).
  { unfold Subsystem_hash. by rewrite Hnodes, Hcur, Hpast, Hnet. }
  split; [done|]. split; [unfold Subsystem_ne; by rewrite Heq|].
  split; [done|].
  intros store found evaluated store'. unfold big_mip, _big_mip.
  rewrite <- Hhash.
  destruct (store !! Subsystem_hash tostring py_hash s1) as [r|] eqn:Hkey.
  - intros [= <- <- <-]. by rewrite Hkey.
  - destruct (_big_mip_body_ _ s1) as [[r|e] ev]; simpl.
    + intros [= <- <- <-]. by rewrite lookup_insert_eq.
    + intros [= ].
Qed.

(** C8 fails on the code.  [__eq__] compares the state arrays with
    [np.array_equal], by their elements; [__hash__] hashes their bytes,
    which depend on the element type.  The sample subsystem with its
    states (1, 1) held as 8-byte integers and the same subsystem with
    them held as 4-byte integers have the same node set, the same states
    and the same network, and they are equal; but the tuples that
    [__hash__] hashes differ (16 bytes against 8 for each state), so their
    hashes are equal only if the builtin [hash] gives two different
    tuples the same value; and where it does not, the result that
    [big_mip] stores for the one is not found for the other. *)
Theorem subsystem_identity_element_type :
  list_to_set (nodes demo_sub) =@{gset Node} list_to_set (nodes demo_sub_int32)
  ∧ tolist (current_state demo_sub) = tolist (current_state demo_sub_int32)
  ∧ tolist (past_state demo_sub) = tolist (past_state demo_sub_int32)
  ∧ network demo_sub = network demo_sub_int32
  ∧ Subsystem_eq demo_sub demo_sub_int32 = true
  ∧ Subsystem_ne demo_sub demo_sub_int32 = false
  ∧ ndarray_tostring (current_state demo_sub)
    = [x01; x00; x00; x00; x00; x00; x00; x00;
       x01; x00; x00; x00; x00; x00; x00; x00]
  ∧ ndarray_tostring (current_state demo_sub_int32)
    = [x01; x00; x00; x00; x01; x00; x00; x00]
  ∧ (list_to_set (nodes demo_sub),
     ndarray_tostring (current_state demo_sub),
     ndarray_tostring (past_state demo_sub), network demo_sub)
    ≠@{hash_key} (list_to_set (nodes demo_sub_int32),
       ndarray_tostring (current_state demo_sub_int32),
       ndarray_tostring (past_state demo_sub_int32), network demo_sub_int32)
  ∧ (Subsystem_hash ndarray_tostring py_hash demo_sub
     = Subsystem_hash ndarray_tostring py_hash demo_sub_int32 ->
     ∃ k1 k2 : hash_key, k1 ≠ k2 ∧ py_hash k1 = py_hash k2)
  ∧ Subsystem_hash ndarray_tostring demo_hash demo_sub
    ≠ Subsystem_hash ndarray_tostring demo_hash demo_sub_int32
  ∧ ∀ store found evaluated store',
      Subsystem_hash ndarray_tostring py_hash demo_sub
      ≠ Subsystem_hash ndarray_tostring py_hash demo_sub_int32 ->
      store !! Subsystem_hash ndarray_tostring py_hash demo_sub_int32 = None ->
      big_mip SINGLE_NODES_WITH_SELFLOOPS_HAVE_PHI BigMip_lt
        _all_connect_to_any _any_connect_to_all _concept bipartition
        constellation_distance ndarray_tostring py_hash store demo_sub
      = ((Ok found, evaluated), store') ->
      store' !! Subsystem_hash ndarray_tostring py_hash demo_sub_int32 = None.
Proof.
  assert (Hkeys : (list_to_set (nodes demo_sub),
                   ndarray_tostring (current_state demo_sub),
                   ndarray_tostring (past_state demo_sub), network demo_sub)
                  ≠@{hash_key}
                  (list_to_set (nodes demo_sub_int32),
                   ndarray_tostring (current_state demo_sub_int32),
                   ndarray_tostring (past_state demo_sub_int32),
                   network demo_sub_int32)).
  { intros [= _ H _]; try (vm_compute in H; discriminate). }
  split; [done|]. split; [done|]. split; [done|]. split; [done|].
  split; [by vm_compute|]. split; [by vm_compute|].
  split; [by vm_compute|]. split; [by vm_compute|].
  split; [exact Hkeys|].
  split; [intros Hsame; eexists _, _; split; [exact Hkeys|exact Hsame]|].
  split; [by vm_compute|].
  intros store found evaluated store' Hne Hmiss. unfold big_mip, _big_mip.
  destruct (store !! Subsystem_hash ndarray_tostring py_hash demo_sub)
    as [r|] eqn:Hkey.
  - by intros [= <- <- <-].
  - destruct (_big_mip_body _ _ _ _ _ _ _ _ demo_sub) as [[r|e] ev]; simpl.
    + intros [= <- <- <-]. by rewrite lookup_insert_ne.
    + intros [= ].
Qed.
End BigMipSpec.

(** The sample subsystem and its cut copy. *)
Example subsystem_identity_cut_copy :
  Subsystem_eq demo_sub demo_sub_cut = true
  ∧ Subsystem_hash ndarray_tostring demo_hash demo_sub
    = Subsystem_hash ndarray_tostring demo_hash demo_sub_cut
  ∧ _cut demo_sub ≠ _cut demo_sub_cut.
Proof.
  assert (Hnodes : list_to_set (nodes demo_sub)
                   =@{gset Node} list_to_set (nodes demo_sub_cut)).
  { apply (bool_decide_unpack _). vm_compute. exact I. }
  destruct (subsystem_identity true (fun _ _ => false)
              (fun _ _ _ => true) (fun _ _ _ => true)
              (fun _ m => mkConcept m 1 None None) bipartition_model
              (fun _ _ _ => 0%Q) ndarray_tostring demo_hash
              demo_sub demo_sub_cut Hnodes eq_refl eq_refl eq_refl)
    as (Heq & _ & Hhash & _).
  split; [exact Heq|]. split; [exact Hhash|]. discriminate.
Qed.

(** C3 fails on the code.  In the subsystem of two nodes with the single
    connection 0 -> 1 the induced connectivity matrix has two strongly
    connected components; [connected_components] counts one (weakly
    connected) component, so a call of [_big_mip] that finds nothing
    stored under its key does not return at the degeneracy check and goes
    on to evaluate the bipartition ((1), (0)). *)
Theorem _big_mip_one_way_connection
    (SINGLE_NODES_WITH_SELFLOOPS_HAVE_PHI : bool)
    (BigMip_lt : BigMip -> BigMip -> bool)
    (_all_connect_to_any _any_connect_to_all :
       Subsystem -> list Node -> list Node -> bool)
    (_concept : Subsystem -> list Node -> Concept)
    (constellation_distance : list Concept -> list Concept -> Subsystem -> Q)
    (cache_key : Z) :
  length (nodes chain_sub) = 2
  ∧ submatrix (connectivity_matrix (network chain_sub))
      (index <$> nodes chain_sub) (index <$> nodes chain_sub)
    = Ok [[0; 1]; [0; 0]]%Z
  ∧ strongly_connected_components [[0; 1]; [0; 0]]%Z = 2
  ∧ connected_components [[0; 1]; [0; 0]]%Z = 1
  ∧ (_big_mip_body SINGLE_NODES_WITH_SELFLOOPS_HAVE_PHI BigMip_lt
       _all_connect_to_any _any_connect_to_all _concept bipartition_model
       constellation_distance cache_key chain_sub).2 = [([1], [0])]
  ∧ ∀ store : gmap Z BigMip,
      store !! cache_key = None ->
      (_big_mip SINGLE_NODES_WITH_SELFLOOPS_HAVE_PHI BigMip_lt
         _all_connect_to_any _any_connect_to_all _concept bipartition_model
         constellation_distance store cache_key chain_sub).1.2
      = [([1], [0])].
Proof.
  split; [by vm_compute|]. split; [by vm_compute|].
  split; [by vm_compute|]. split; [by vm_compute|].
  split; [by vm_compute|].
  intros store Hmiss. rewrite (_big_mip_miss _ _ _ _ _ _ _ _ _ _ Hmiss).
  by vm_compute.
Qed.

(** ** The cause repertoire *)

Lemma tforall_impl (P R : Q -> Prop) (t : tensor) :
  (∀ q, P q -> R q) -> tforall P t -> tforall R t.
Proof.
  intros Himp. induction t as [q|t IH|t0 IH0 t1 IH1]; simpl.
  - apply Himp.
  - exact IH.
  - intros [H0 H1]. split; [by apply IH0|by apply IH1].
Qed.

Lemma tforall_tmap (P R : Q -> Prop) (f : Q -> Q) (t : tensor) :
  (∀ q, P q -> R (f q)) -> tforall P t -> tforall R (tmap f t).
Proof.
  intros Hf. induction t as [q|t IH|t0 IH0 t1 IH1]; simpl.
  - apply Hf.
  - exact IH.
  - intros [H0 H1]. split; [by apply IH0|by apply IH1].
Qed.

Lemma tforall_tzip (P R S : Q -> Prop) (f : Q -> Q -> Q) (a b : tensor) :
  (∀ x y, P x -> R y -> S (f x y)) ->
  tforall P a -> tforall R b -> tforall S (tzip f a b).
Proof.
  intros Hf. revert b.
  induction a as [x|a IH|a0 IH0 a1 IH1]; intros b Ha Hb.
  - simpl in *. apply (tforall_tmap R); [|done]. intros y. by apply Hf.
  - destruct b as [y|b|b0 b1]; simpl in *.
    + apply (tforall_tmap P); [|done]. intros x Hx. by apply Hf.
    + by apply IH.
    + destruct Hb. split; by apply IH.
  - destruct Ha as [Ha0 Ha1]. destruct b as [y|b|b0 b1]; simpl in *.
    + split; (apply (tforall_tmap P); [|done]); intros x Hx; by apply Hf.
    + split; [by apply IH0|by apply IH1].
    + destruct Hb. split; [by apply IH0|by apply IH1].
Qed.

Lemma has_shape_tmap (f : Q -> Q) (shape : list bool) (t : tensor) :
  has_shape shape t -> has_shape shape (tmap f t).
Proof.
  revert shape. induction t as [q|t IH|t0 IH0 t1 IH1];
    intros [|[] shape]; simpl; try done.
  - apply IH.
  - intros [H0 H1]. split; [by apply IH0|by apply IH1].
Qed.

Lemma ndim_has_shape (shape : list bool) (t : tensor) :
  has_shape shape t -> ndim t = length shape.
Proof.
  revert shape. induction t as [q|t IH|t0 IH0 t1 IH1];
    intros [|[] shape]; simpl; try done.
  - intros H. by rewrite (IH _ H).
  - intros [H0 _]. by rewrite (IH0 _ H0).
Qed.

Lemma nonnegative_np_ones (shape : list bool) : nonnegative (np_ones shape).
Proof.
  unfold nonnegative. induction shape as [|[] shape IH]; simpl; try done.
Qed.

Lemma np_sum_nonnegative (t : tensor) : nonnegative t -> (0 <= np_sum t)%Q.
Proof.
  unfold nonnegative.
  induction t as [q|t IH|t0 IH0 t1 IH1]; simpl; try done.
  intros [H0 H1]. specialize (IH0 H0). specialize (IH1 H1). lra.
Qed.

(** An array of non-negative cells whose sum is zero is zero everywhere. *)
Lemma np_sum_zero (t : tensor) :
  nonnegative t -> (np_sum t == 0)%Q -> all_zero t.
Proof.
  unfold nonnegative, all_zero.
  induction t as [q|t IH|t0 IH0 t1 IH1]; simpl; try done.
  intros [H0 H1] Hsum.
  pose proof (np_sum_nonnegative t0 H0).
  pose proof (np_sum_nonnegative t1 H1).
  split; [apply IH0|apply IH1]; try done; lra.
Qed.

(** Selecting the cell 0 or 1 of an axis of length 2 succeeds; the axis is
    kept with length 1, and what holds of every cell still holds. *)
Lemma take_axis_ok (P : Q -> Prop) (shape : list bool) (k : nat) (v : Z)
    (t : tensor) :
  has_shape shape t -> shape !! k = Some true -> v = 0%Z ∨ v = 1%Z ->
  ∃ t', take_axis k v t = Ok t'
        ∧ has_shape (<[k := false]> shape) t'
        ∧ (tforall P t -> tforall P t').
Proof.
  revert shape k. induction t as [q|t IH|t0 IH0 t1 IH1];
    intros [|[] shape] [|k]; simpl; try done.
  - intros Ht Hk Hv. destruct (IH shape k Ht Hk Hv) as (t' & -> & Hs & HP).
    by exists (One t').
  - intros [H0 H1] _ [-> | ->]; simpl.
    + exists (One t0). split; [done|]. split; [done|]. by intros [? _].
    + exists (One t1). split; [done|]. split; [done|]. by intros [_ ?].
  - intros [H0 H1] Hk Hv.
    destruct (IH0 shape k H0 Hk Hv) as (t0' & -> & Hs0 & HP0).
    destruct (IH1 shape k H1 Hk Hv) as (t1' & -> & Hs1 & HP1).
    exists (Two t0' t1'). simpl. split; [done|]. split; [done|].
    intros [? ?]. split; [by apply HP0|by apply HP1].
Qed.

Lemma nonnegative_marginalize_out (k : nat) (t : tensor) :
  nonnegative t -> nonnegative (marginalize_out k t).
Proof.
  unfold nonnegative. revert k.
  induction t as [q|t IH|t0 IH0 t1 IH1]; intros [|k]; simpl; try done.
  - apply IH.
  - intros [H0 H1].
    apply (tforall_tzip (fun q => (0 <= q)%Q) (fun q => (0 <= q)%Q));
      try done.
    intros x y Hx Hy. apply Qle_shift_div_l; lra.
  - intros [H0 H1]. split; [by apply IH0|by apply IH1].
Qed.

Section CauseRepertoire.
Variable self : Subsystem.
Hypothesis Hwf : well_formed self.

Lemma getindex_ok {A : Type} (l : list A) (i : nat) :
  i < length l -> ∃ a, getindex l i = Ok a ∧ l !! i = Some a.
Proof.
  intros Hi. unfold getindex.
  destruct (lookup_lt_is_Some_2 l i Hi) as [a Ha]. rewrite Ha. by exists a.
Qed.

Lemma condition_on_past_eq (t : tensor) (node : Node) :
  RepertoireEngine.condition_on_past self t node
  = (past ← getindex (past_state self) node;
     getitem (size (network self)) node past t).
Proof. reflexivity. Qed.

Lemma cjd_step_eq (purview : list Node) (cjd : tensor) (node : Node) :
  RepertoireEngine.cjd_step self purview cjd node
  = (t ← RepertoireEngine.conditioned_tpm self purview node;
     Ok (np_multiply cjd t)).
Proof. reflexivity. Qed.

(** The loop over the boundary inputs does not raise when each of them is
    conditioned once, on an axis of length 2. *)
Lemma condition_on_past_loop (P : Q -> Prop) (bs : list Node) :
  ∀ (shape : list bool) (t : tensor),
    NoDup bs ->
    (∀ b, b ∈ bs -> shape !! b = Some true) ->
    length shape = size (network self) ->
    has_shape shape t -> tforall P t ->
    ∃ t', rfold (RepertoireEngine.condition_on_past self) bs t = Ok t'
          ∧ tforall P t'.
Proof.
  induction bs as [|b bs IH]; intros shape t Hnd Htrue Hlen Hshape HP.
  - exists t. by split.
  - apply NoDup_cons in Hnd as [Hb Hnd].
    assert (Hbt : shape !! b = Some true) by (apply Htrue; by left).
    assert (Hlt : b < size (network self)).
    { rewrite <- Hlen. by apply (lookup_lt_Some shape b true). }
    cbn [rfold]. rewrite condition_on_past_eq.
    destruct (getindex_ok (past_state self) b) as (v & -> & Hv);
      [by rewrite (wf_past self Hwf)|].
    cbn [mbind result_bind rbind]. unfold getitem.
    rewrite (ndim_has_shape shape t Hshape), Hlen, Nat.ltb_irrefl.
    assert (Hbin : v = 0%Z ∨ v = 1%Z).
    { pose proof (wf_past_binary self Hwf) as Hall.
      rewrite Forall_lookup in Hall. by apply (Hall b). }
    destruct (take_axis_ok P shape b v t Hshape Hbt Hbin)
      as (t' & -> & Hshape' & HP').
    apply (IH (<[b := false]> shape) t'); try done.
    + intros b' Hb'. rewrite list_lookup_insert_ne; [apply Htrue; by right|].
      intros ->. done.
    + by rewrite length_insert.
    + by apply HP'.
Qed.

Lemma marginalize_out_loop (ms : list Node) (t : tensor) :
  nonnegative t ->
  nonnegative (foldl (fun t node => marginalize_out (index node) t) t ms).
Proof.
  revert t. induction ms as [|m ms IH]; intros t Ht; [done|].
  simpl. apply IH. by apply nonnegative_marginalize_out.
Qed.

Lemma boundary_inputs_in_network (purview : list Node) (n b : Node) :
  b ∈ elements (RepertoireEngine.boundary_inputs self purview n) ->
  b < size (network self).
Proof.
  rewrite elem_of_elements.
  unfold RepertoireEngine.boundary_inputs,
    RepertoireEngine.non_purview_inputs, RepertoireEngine.severed_inputs.
  rewrite elem_of_difference, elem_of_union, elem_of_difference,
    !elem_of_list_to_set, list_elem_of_filter.
  unfold network_nodes. rewrite elem_of_seq. intros [[[? _]|[_ ?]] _]; lia.
Qed.

(** One pass of the loop over the mechanism returns an array of
    non-negative cells. *)
Lemma conditioned_tpm_ok (purview : list Node) (n : Node) :
  n < size (network self) ->
  ∃ t, RepertoireEngine.conditioned_tpm self purview n = Ok t
       ∧ nonnegative t.
Proof.
  intros Hn. unfold RepertoireEngine.conditioned_tpm, index.
  destruct (getindex_ok (current_state self) n) as (state & -> & _);
    [by rewrite (wf_current self Hwf)|].
  destruct (getindex_ok (node_tpms (network self)) n) as (tpm & -> & Htpm);
    [by rewrite (wf_tpms self Hwf)|].
  cbn [mbind result_bind rbind].
  pose proof (wf_tpm_shape self Hwf) as Hshape.
  pose proof (wf_tpm_probabilities self Hwf) as Hprob.
  rewrite Forall_lookup in Hshape, Hprob.
  specialize (Hshape n tpm Htpm). specialize (Hprob n tpm Htpm).
  set (start := if (state =? 1)%Z then tpm
                else tmap (fun q => (1 - q)%Q) tpm).
  assert (Hstart : has_shape (replicate (size (network self)) true) start
                   ∧ nonnegative start).
  { subst start. destruct (state =? 1)%Z.
    - split; [done|].
      apply (tforall_impl (fun q => (0 <= q <= 1)%Q)); [|done].
      intros q Hq. lra.
    - split; [by apply has_shape_tmap|].
      apply (tforall_tmap (fun q => (0 <= q <= 1)%Q)); [|done].
      intros q Hq. lra. }
  destruct Hstart as [Hs Hnn].
  destruct (condition_on_past_loop (fun q => (0 <= q)%Q)
              (elements (RepertoireEngine.boundary_inputs self purview n))
              (replicate (size (network self)) true) start)
    as (t' & -> & Ht'); try done.
  - apply NoDup_elements.
  - intros b Hb. apply lookup_replicate_2.
    by apply (boundary_inputs_in_network purview n).
  - by rewrite length_replicate.
  - cbn [mbind result_bind rbind]. eexists. split; [done|].
    by apply marginalize_out_loop.
Qed.

(** The loop over the mechanism returns an array of non-negative cells. *)
Lemma cause_cjd_loop (purview mechanism : list Node) (cjd : tensor) :
  Forall (fun n => n < size (network self)) mechanism ->
  nonnegative cjd ->
  ∃ cjd', rfold (RepertoireEngine.cjd_step self purview) mechanism cjd
          = Ok cjd'
          ∧ nonnegative cjd'.
Proof.
  revert cjd. induction mechanism as [|n mechanism IH]; intros cjd Hm Hcjd.
  - by exists cjd.
  - apply Forall_cons in Hm as [Hn Hm].
    cbn [rfold]. rewrite cjd_step_eq.
    destruct (conditioned_tpm_ok purview n Hn) as (t & -> & Ht).
    cbn [mbind result_bind rbind]. apply IH; [done|].
    apply (tforall_tzip (fun q => (0 <= q)%Q) (fun q => (0 <= q)%Q));
      try done.
    intros x y Hx Hy. by apply Qmult_le_0_compat.
Qed.

Lemma cause_cjd_ok (mechanism purview : list Node) :
  Forall (fun n => n < size (network self)) mechanism ->
  ∃ cjd, RepertoireEngine.cause_cjd self mechanism purview = Ok cjd
         ∧ nonnegative cjd.
Proof.
  intros Hm. apply cause_cjd_loop; [done|]. apply nonnegative_np_ones.
Qed.
End CauseRepertoire.

(** C7, as the code has it.  [cause_repertoire] returns the purview's
    maximum-entropy distribution when the mechanism is empty; the integer
    1 when the purview is empty and the mechanism is not; and for a
    nonempty mechanism and purview of a well-formed subsystem it computes
    the conditional joint distribution without raising, and returns: when
    the total mass of that distribution is zero, the division is skipped
    and the result is that distribution, zero everywhere. *)
Theorem cause_repertoire_spec (self : Subsystem)
    (mechanism purview : list Node) :
  (mechanism = [] ->
   RepertoireEngine.cause_repertoire self mechanism purview
   = Ok (Array (max_entropy_distribution purview (network self))))
  ∧ (mechanism ≠ [] -> purview = [] ->
     RepertoireEngine.cause_repertoire self mechanism purview
     = Ok (Scalar 1))
  ∧ (mechanism ≠ [] -> purview ≠ [] ->
     well_formed self ->
     Forall (fun n => n < size (network self)) mechanism ->
     ∃ cjd,
       RepertoireEngine.cause_cjd self mechanism purview = Ok cjd
       ∧ (∃ r, RepertoireEngine.cause_repertoire self mechanism purview
               = Ok r)
       ∧ ((np_sum cjd == 0)%Q ->
          RepertoireEngine.cause_repertoire self mechanism purview
          = Ok (Array cjd)
          ∧ all_zero cjd)).
Proof.
  split; [by intros ->|]. split.
  - intros Hm ->. unfold RepertoireEngine.cause_repertoire.
    by destruct mechanism.
  - intros Hm Hp Hwf Hnodes.
    destruct (cause_cjd_ok self Hwf mechanism purview Hnodes)
      as (cjd & Hcjd & Hnn).
    exists cjd. split; [done|].
    unfold RepertoireEngine.cause_repertoire.
    destruct mechanism as [|n mechanism]; [done|].
    destruct purview as [|p purview]; [done|].
    cbn [length Nat.eqb]. rewrite Hcjd. cbn [mbind result_bind rbind].
    unfold np_divide.
    destruct (Qeq_bool (np_sum cjd) 0) eqn:Hsum; cbn [negb].
    + split; [eauto|]. intros _. split; [done|].
      apply np_sum_zero; [done|]. by apply Qeq_bool_iff.
    + split; [cbn [mbind result_bind rbind]; eauto|].
      intros Hzero. apply Qeq_bool_neq in Hsum. done.
Qed.

(** C7, as the specification words it, fails: with the mechanism and the
    purview both empty, the first test applies and the result is the
    maximum-entropy distribution of the empty purview, an array with a
    single cell, not the integer 1. *)
Lemma cause_repertoire_both_empty :
  RepertoireEngine.cause_repertoire demo_sub [] []
  = Ok (Array (One (One (Leaf 1))))
  ∧ RepertoireEngine.cause_repertoire demo_sub [] [] ≠ Ok (Scalar 1).
Proof. split; [vm_compute; reflexivity|discriminate]. Qed.

Lemma well_formed_stuck_sub : well_formed stuck_sub.
Proof.
  split; try reflexivity.
  - apply (bool_decide_unpack _). vm_compute. exact I.
  - repeat (apply Forall_cons; split); try apply Forall_nil; simpl; tauto.
  - repeat (apply Forall_cons; split); try apply Forall_nil;
      unfold probabilities; simpl; repeat split; lra.
Qed.

Lemma cause_repertoire_spec_witness :
  well_formed stuck_sub
  ∧ RepertoireEngine.cause_repertoire stuck_sub [0; 1] [0; 1]
    = Ok (Array never_tpm)
  ∧ all_zero never_tpm.
Proof.
  split; [exact well_formed_stuck_sub|].
  destruct (cause_repertoire_spec stuck_sub [0; 1] [0; 1]) as (_ & _ & H).
  destruct H as (cjd & Hcjd & _ & Hzero);
    [discriminate|discriminate|exact well_formed_stuck_sub
    |repeat constructor|].
  assert (Hval : RepertoireEngine.cause_cjd stuck_sub [0; 1] [0; 1]
                 = Ok never_tpm) by (vm_compute; reflexivity).
  rewrite Hval in Hcjd. injection Hcjd as <-.
  apply Hzero. reflexivity.
Defined.

(** ** More on the subsystem: identity and the stored cut *)

(** [Subsystem.__eq__] compares exactly the node set, the elements of
    the two states and the network. *)
Lemma Subsystem_eq_true (s1 s2 : Subsystem) :
  Subsystem_eq s1 s2 = true
  <-> list_to_set (nodes s1) =@{gset Node} list_to_set (nodes s2)
      ∧ tolist (current_state s1) = tolist (current_state s2)
      ∧ tolist (past_state s1) = tolist (past_state s2)
      ∧ network s1 = network s2.
Proof.
  unfold Subsystem_eq, array_equal.
  rewrite !andb_true_iff, !bool_decide_eq_true. tauto.
Qed.

(** An array is its element type and its elements. *)
Lemma ndarray_eq (a b : ndarray) :
  array_dtype a = array_dtype b -> tolist a = tolist b -> a = b.
Proof. destruct a, b. simpl. by intros -> ->. Qed.

(** X1.  [__eq__] is an equivalence relation on subsystems and [__ne__]
    is its negation.  Equal subsystems whose state arrays have the same
    element types have equal hashes. *)
Theorem Subsystem_eq_equivalence (tostring : ndarray -> list byte)
    (py_hash : hash_key -> Z) (s1 s2 s3 : Subsystem) :
  Subsystem_eq s1 s1 = true
  ∧ Subsystem_eq s1 s2 = Subsystem_eq s2 s1
  ∧ Subsystem_ne s1 s2 = negb (Subsystem_eq s1 s2)
  ∧ (Subsystem_eq s1 s2 = true -> Subsystem_eq s2 s3 = true ->
     Subsystem_eq s1 s3 = true)
  ∧ (Subsystem_eq s1 s2 = true ->
     array_dtype (current_state s1) = array_dtype (current_state s2) ->
     array_dtype (past_state s1) = array_dtype (past_state s2) ->
     Subsystem_hash tostring py_hash s1 = Subsystem_hash tostring py_hash s2).
Proof.
  split; [by apply Subsystem_eq_true|]. split.
  { destruct (Subsystem_eq s1 s2) eqn:H12; destruct (Subsystem_eq s2 s1) eqn:H21;
      try done.
    - apply Subsystem_eq_true in H12 as (? & ? & ? & ?).
      rewrite <- H21. symmetry. by apply Subsystem_eq_true.
    - apply Subsystem_eq_true in H21 as (? & ? & ? & ?).
      rewrite <- H12. by apply Subsystem_eq_true. }
  split; [done|]. split.
  - intros (? & ? & ? & ?)%Subsystem_eq_true (? & ? & ? & ?)%Subsystem_eq_true.
    apply Subsystem_eq_true. repeat split; congruence.
  - intros (Hn & Hc & Hp & Hnet)%Subsystem_eq_true Hdc Hdp.
    unfold Subsystem_hash.
    by rewrite Hn, (ndarray_eq _ _ Hdc Hc), (ndarray_eq _ _ Hdp Hp), Hnet.
Qed.

Lemma Subsystem_eq_equivalence_witness :
  Subsystem_eq demo_sub demo_sub_cut = true
  ∧ Subsystem_eq demo_sub_cut demo_sub = true
  ∧ Subsystem_eq demo_sub demo_sub = true
  ∧ Subsystem_hash ndarray_tostring demo_hash demo_sub
    = Subsystem_hash ndarray_tostring demo_hash demo_sub_cut.
Proof.
  assert (H12 : Subsystem_eq demo_sub demo_sub_cut = true)
    by (vm_compute; reflexivity).
  assert (H21 : Subsystem_eq demo_sub_cut demo_sub = true)
    by (vm_compute; reflexivity).
  destruct (Subsystem_eq_equivalence ndarray_tostring demo_hash
              demo_sub demo_sub_cut demo_sub) as (_ & _ & _ & Htrans & Hhash).
  split; [exact H12|]. split; [exact H21|].
  split; [exact (Htrans H12 H21)|exact (Hhash H12 eq_refl eq_refl)].
Defined.

Lemma cut_preserves_content (self : Subsystem) (a b : cut_arg) :
  nodes (cut self a b).2 = nodes self
  ∧ current_state (cut self a b).2 = current_state self
  ∧ past_state (cut self a b).2 = past_state self
  ∧ network (cut self a b).2 = network self
  ∧ external_nodes (cut self a b).2 = external_nodes self.
Proof. unfold cut. by destruct (negb _). Qed.

(** X2.  A call of [cut], whether it raises or not, changes nothing but
    the stored cut: the nodes, the states, the network and the external
    nodes stay, and the subsystem after the call is equal to the one
    before and has the same hash. *)
Theorem cut_keeps_identity (tostring : ndarray -> list byte)
    (py_hash : hash_key -> Z) (self : Subsystem) (a b : cut_arg) :
  nodes (cut self a b).2 = nodes self
  ∧ current_state (cut self a b).2 = current_state self
  ∧ past_state (cut self a b).2 = past_state self
  ∧ network (cut self a b).2 = network self
  ∧ external_nodes (cut self a b).2 = external_nodes self
  ∧ Subsystem_eq (cut self a b).2 self = true
  ∧ Subsystem_hash tostring py_hash (cut self a b).2
    = Subsystem_hash tostring py_hash self.
Proof.
  destruct (cut_preserves_content self a b) as (Hn & Hc & Hp & Hnet & Hext).
  repeat (split; [done|]). split.
  - apply Subsystem_eq_true. by rewrite Hn, Hc, Hp, Hnet.
  - unfold Subsystem_hash. by rewrite Hn, Hc, Hp, Hnet.
Qed.

(** The stored cut lists every node once: as many entries as nodes, and
    the same set. *)
Lemma cut_keeps_cover (self : Subsystem) (a b : cut_arg) :
  length (nodes self)
  = length (severed (_cut self) ++ intact (_cut self))
  ∧ list_to_set (nodes self)
    =@{gset Node} list_to_set (severed (_cut self) ++ intact (_cut self)) ->
  length (nodes (cut self a b).2)
  = length (severed (_cut (cut self a b).2) ++ intact (_cut (cut self a b).2))
  ∧ list_to_set (nodes (cut self a b).2)
    =@{gset Node} list_to_set (severed (_cut (cut self a b).2)
                               ++ intact (_cut (cut self a b).2)).
Proof.
  intros Hinv. unfold cut.
  destruct (length (nodes self) =? length (as_tuple a ++ as_tuple b))
    eqn:Hlen; [|done].
  case_bool_decide as Hset; [|done]. simpl.
  by apply Nat.eqb_eq in Hlen.
Qed.

(** X3.  The cut stored in a subsystem is always a cover of its nodes: it
    is one after [__init__], and whatever calls of [cut] follow, valid or
    not, the stored cut still holds every node of the subsystem exactly
    once and nothing else (for a subsystem built from distinct nodes). *)
Theorem stored_cut_covers (ns : list Node) (cs ps : ndarray) (net : Network)
    (null : Concept) (calls : list (cut_arg * cut_arg)) :
  NoDup ns ->
  nodes (cut_calls (Subsystem_init ns cs ps net null) calls) = ns
  ∧ exactly_once ns
      (severed (_cut (cut_calls (Subsystem_init ns cs ps net null) calls))
       ++ intact (_cut (cut_calls (Subsystem_init ns cs ps net null) calls))).
Proof.
  intros Hnd.
  set (inv := fun s : Subsystem =>
         nodes s = ns
         ∧ length (nodes s) = length (severed (_cut s) ++ intact (_cut s))
         ∧ list_to_set (nodes s)
           =@{gset Node} list_to_set (severed (_cut s) ++ intact (_cut s))).
  assert (Hall : ∀ s, inv s -> inv (cut_calls s calls)).
  { unfold cut_calls. induction calls as [|[a b] calls IH]; [done|].
    intros s (Hn & Hcover). simpl. apply IH. split.
    - by rewrite (proj1 (cut_preserves_content s a b)).
    - by apply cut_keeps_cover. }
  destruct (Hall (Subsystem_init ns cs ps net null)) as (Hn & Hlen & Hset);
    [by repeat split|].
  split; [done|].
  apply exactly_once_Permutation; [done|].
  rewrite <- Hn at 1. apply cut_check_Permutation; [by rewrite Hn|done].
Qed.

Lemma stored_cut_covers_witness :
  exactly_once [0; 1]
    (severed (_cut (cut_calls demo_sub
                      [(Single 1, Single 0); (Single 0, Tuple [])]))
     ++ intact (_cut (cut_calls demo_sub
                        [(Single 1, Single 0); (Single 0, Tuple [])]))).
Proof.
  assert (Hnd : NoDup [0; 1]).
  { apply (bool_decide_unpack (NoDup [0; 1])). vm_compute. exact I. }
  exact (proj2 (stored_cut_covers [0; 1] (np_array int64 [1; 1]%Z)
                  (np_array int64 [1; 1]%Z) demo_net demo_null
                  [(Single 1, Single 0); (Single 0, Tuple [])] Hnd)).
Defined.

(** ** More on the distance between constellations *)

Lemma filter_all {A : Type} (P : A -> Prop) `{!∀ x, Decision (P x)}
    (l : list A) :
  (∀ x, x ∈ l -> P x) -> filter P l = l.
Proof.
  intros Hall. induction l as [|x l IH]; [done|].
  rewrite filter_cons. destruct (decide (P x)) as [_|Hn].
  - f_equal. apply IH. intros y Hy. apply Hall. by right.
  - destruct Hn. apply Hall. by left.
Qed.

Section ConstellationDistanceMore.
Variable hamming_emd : tensor -> tensor -> Q.
Variable expand_cause_repertoire expand_effect_repertoire :
  Concept -> tensor.
Variable emd : list Q -> list Q -> list (list Q) -> Q.
Variable _all_connect_to_any _any_connect_to_all :
  Subsystem -> list Node -> list Node -> bool.
Variable _concept : Subsystem -> list Node -> Concept.

Local Abbreviation distance :=
  (constellation_distance hamming_emd expand_cause_repertoire
     expand_effect_repertoire emd).
Local Abbreviation cdist :=
  (concept_distance hamming_emd expand_cause_repertoire
     expand_effect_repertoire).
Local Abbreviation matrix :=
  (distance_matrix hamming_emd expand_cause_repertoire
     expand_effect_repertoire).

(** X4.  The distance from a constellation to itself is 0, whatever the
    concepts, the distances between concepts and the EMD. *)
Theorem constellation_distance_self (C : list Concept)
    (subsystem : Subsystem) :
  distance C C subsystem = Ok 0%Q.
Proof.
  unfold constellation_distance.
  assert (Hnone : filter (fun c => c ∉ C) C = []).
  { apply filter_nil_iff. intros c Hc Hn. by destruct Hn. }
  rewrite Hnone. simpl. unfold _constellation_distance_simple.
  rewrite Nat.ltb_irrefl. by rewrite Hnone.
Qed.

(** X5.  Against the empty constellation the distance takes the cheap
    path in either order, and is the sum over the concepts of phi times
    the distance to the null concept; [utils.emd] plays no part.  This is
    what [conceptual_information] returns for the constellation of a
    subsystem. *)
Theorem constellation_distance_empty (C : list Concept)
    (subsystem : Subsystem) :
  distance C [] subsystem = Ok (py_sum (phi_distance cdist subsystem <$> C))
  ∧ distance [] C subsystem
    = Ok (py_sum (phi_distance cdist subsystem <$> C))
  ∧ conceptual_information hamming_emd expand_cause_repertoire
      expand_effect_repertoire emd _all_connect_to_any _any_connect_to_all
      _concept subsystem
    = Ok (py_sum (phi_distance cdist subsystem
                  <$> constellation _all_connect_to_any _any_connect_to_all
                        _concept subsystem)).
Proof.
  assert (Hall : ∀ C' : list Concept, filter (fun c => c ∉ []) C' = C').
  { intros C'. apply filter_all. intros c _. apply not_elem_of_nil. }
  assert (H1 : ∀ C', distance C' [] subsystem
                     = Ok (py_sum (phi_distance cdist subsystem <$> C'))).
  { intros C'. unfold constellation_distance.
    rewrite filter_nil, (bool_decide_eq_true_2 ([] = [])), orb_true_r by done.
    unfold _constellation_distance_simple.
    replace (length C' <? length []) with false
      by (symmetry; apply Nat.ltb_ge; simpl; lia).
    by rewrite Hall. }
  split; [apply H1|]. split; [|apply H1].
  unfold constellation_distance.
  rewrite filter_nil, (bool_decide_eq_true_2 ([] = [])) by done. simpl.
  unfold _constellation_distance_simple.
  destruct C as [|c C]; [done|].
  replace (length [] <? length (c :: C)) with true
    by (symmetry; apply Nat.ltb_lt; simpl; lia).
  by rewrite Hall.
Qed.

(** X6.  On the general path the two phi distributions are always built
    without an error, and they and the ground distance matrix agree in
    size: with n the number of shared concepts, plus those of either side
    alone, plus one for the null concept, both distributions have n
    entries and the matrix has n rows of n entries.  So
    [constellation_distance] returns for all constellations. *)
Theorem phi_distributions_sizes (C1 C2 unique_C1 unique_C2 : list Concept)
    (subsystem : Subsystem) :
  let all := all_concepts C1 C2 unique_C1 unique_C2 subsystem in
  length all
  = length (filter (fun c => c ∈ C2) C1) + length unique_C1
    + length unique_C2 + 1
  ∧ (∃ d1 d2,
       phi_distributions C1 C2 unique_C1 unique_C2 subsystem = Ok (d1, d2)
       ∧ length d1 = length all ∧ length d2 = length all)
  ∧ length (matrix all) = length all
  ∧ Forall (fun row => length row = length all) (matrix all)
  ∧ ∃ q, distance C1 C2 subsystem = Ok q.
Proof.
  intros all.
  assert (Hlen : length all
                 = length (filter (fun c => c ∈ C2) C1) + length unique_C1
                   + length unique_C2 + 1).
  { subst all. unfold all_concepts. rewrite !length_app. simpl. lia. }
  assert (Hlast : ∀ (d : list Q) (x : Q), length d = length all ->
            ∃ d', set_last d x = Ok d' ∧ length d' = length all).
  { intros d x Hd. unfold set_last. destruct d as [|y d].
    - simpl in Hd. lia.
    - eexists. split; [done|]. by rewrite length_insert. }
  assert (Hdist : ∀ u1 u2 all',
            all' = all_concepts C1 C2 u1 u2 subsystem ->
            (∀ (d : list Q) (x : Q), length d = length all' ->
               ∃ d', set_last d x = Ok d' ∧ length d' = length all') ->
            ∃ d1 d2, phi_distributions C1 C2 u1 u2 subsystem = Ok (d1, d2)
                     ∧ length d1 = length all' ∧ length d2 = length all').
  { intros u1 u2 all' -> Hl. unfold phi_distributions.
    set (all' := all_concepts C1 C2 u1 u2 subsystem) in *.
    set (residual := (py_sum (phi_distribution C1 all')
                      - py_sum (phi_distribution C2 all'))%Q).
    assert (H1 : length (phi_distribution C1 all') = length all')
      by (unfold phi_distribution; by rewrite length_fmap).
    assert (H2 : length (phi_distribution C2 all') = length all')
      by (unfold phi_distribution; by rewrite length_fmap).
    destruct (Hl _ residual H1) as (d1' & Hd1 & Hl1).
    destruct (Hl _ residual H2) as (d2' & Hd2 & Hl2).
    destruct (Qltb 0 residual); destruct (Qltb residual 0);
      rewrite ?Hd1, ?Hd2; cbn [mbind result_bind rbind]; eauto. }
  split; [exact Hlen|]. split; [by apply Hdist|].
  split; [unfold distance_matrix; by rewrite length_fmap|]. split.
  - unfold distance_matrix. apply Forall_fmap, Forall_forall.
    intros j _. simpl. by rewrite length_fmap.
  - unfold constellation_distance.
    destruct (bool_decide _ || bool_decide _); [eauto|].
    unfold _constellation_distance_emd.
    set (u1 := filter (fun c => c ∉ C2) C1).
    set (u2 := filter (fun c => c ∉ C1) C2).
    destruct (Hdist u1 u2 (all_concepts C1 C2 u1 u2 subsystem) eq_refl)
      as (d1 & d2 & -> & _).
    + intros d x Hd. unfold set_last. destruct d as [|y d].
      * unfold all_concepts in Hd. rewrite !length_app in Hd.
        simpl in Hd. lia.
      * eexists. split; [done|]. by rewrite length_insert.
    + cbn [mbind result_bind rbind]. eauto.
Qed.
End ConstellationDistanceMore.

(** X7.  The assignment of the residual, for a null concept of phi zero:
    when the first constellation is not the lighter one the two phi
    masses come out equal; when it is the lighter one they are left twice
    the residual apart. *)
Theorem phi_distributions_residual (C1 C2 unique_C1 unique_C2 : list Concept)
    (subsystem : Subsystem) :
  (concept_phi (null_concept subsystem) == 0)%Q ->
  let all := all_concepts C1 C2 unique_C1 unique_C2 subsystem in
  let residual :=
    (py_sum (phi_distribution C1 all) - py_sum (phi_distribution C2 all))%Q in
  ∃ d1 d2,
    phi_distributions C1 C2 unique_C1 unique_C2 subsystem = Ok (d1, d2)
    ∧ ((0 <= residual)%Q -> (py_sum d1 == py_sum d2)%Q)
    ∧ ((residual < 0)%Q -> (py_sum d1 - py_sum d2 == 2 * residual)%Q).
Proof. apply phi_distributions_masses. Qed.

Lemma phi_distributions_residual_witness :
  ∃ d1 d2,
    phi_distributions [concept_b] [concept_a] [concept_b] [concept_a]
      demo_sub = Ok (d1, d2)
    ∧ (py_sum d1 == py_sum d2)%Q.
Proof.
  destruct (phi_distributions_residual [concept_b] [concept_a] [concept_b]
              [concept_a] demo_sub) as (d1 & d2 & Hd & Hbal & _).
  - reflexivity.
  - exists d1, d2. split; [exact Hd|]. apply Hbal. vm_compute. discriminate.
Defined.

(** X8.  On the cheap path the distance is symmetric: for two
    constellations without repeated concepts, one of which has no concept
    of its own, the distance is the same in either order. *)
Theorem constellation_distance_cheap_symmetric
    (hamming_emd : tensor -> tensor -> Q)
    (expand_cause_repertoire expand_effect_repertoire : Concept -> tensor)
    (emd : list Q -> list Q -> list (list Q) -> Q)
    (C1 C2 : list Concept) (subsystem : Subsystem) :
  NoDup C1 -> NoDup C2 ->
  filter (fun c => c ∉ C2) C1 = [] ∨ filter (fun c => c ∉ C1) C2 = [] ->
  constellation_distance hamming_emd expand_cause_repertoire
    expand_effect_repertoire emd C1 C2 subsystem
  = constellation_distance hamming_emd expand_cause_repertoire
      expand_effect_repertoire emd C2 C1 subsystem.
Proof. apply constellation_distance_simple_sym. Qed.

Lemma constellation_distance_cheap_symmetric_witness :
  constellation_distance demo_hamming_emd demo_expand demo_expand demo_emd3
    [concept_a; concept_b] [concept_b] demo_sub
  = constellation_distance demo_hamming_emd demo_expand demo_expand demo_emd3
      [concept_b] [concept_a; concept_b] demo_sub.
Proof.
  apply constellation_distance_cheap_symmetric.
  - apply (bool_decide_unpack (NoDup [concept_a; concept_b])).
    vm_compute. exact I.
  - apply (bool_decide_unpack (NoDup [concept_b])). vm_compute. exact I.
  - right. vm_compute. reflexivity.
Defined.

(** ** More on the search: what a MIP and a MICE can be *)

Section SearchMore.
Variable bipartition : list Node -> list (list Node * list Node).
Variable emd : repertoire -> repertoire -> Q.
Variable cause_repertoire effect_repertoire :
  Subsystem -> list Node -> list Node -> repertoire.

Local Abbreviation find_mip_ :=
  (find_mip bipartition emd cause_repertoire effect_repertoire).
Local Abbreviation find_mice_ :=
  (find_mice bipartition emd cause_repertoire effect_repertoire).

(** A MIP that the loop returns is the one it started with or the
    iteration of one of the candidates. *)
Lemma find_mip_loop_candidate
    (get_repertoire : list Node -> list Node -> repertoire)
    (unpartitioned : repertoire) (candidates : list (a_part * a_part))
    (mip : option a_mip) (difference_min : pyfloat) (m : a_mip) :
  (find_mip_loop emd get_repertoire unpartitioned candidates mip
     difference_min).1 = Some m ->
  mip = Some m
  ∨ ∃ c, c ∈ candidates ∧ m = iteration emd get_repertoire unpartitioned c.
Proof.
  revert mip difference_min.
  induction candidates as [|x rest IH]; intros mip difference_min.
  - simpl. intros ->. by left.
  - rewrite find_mip_loop_cons.
    destruct (Qltb _ EPSILON); [done|].
    destruct (flt _ difference_min); simpl; intros Hm.
    + destruct (IH _ _ Hm) as [[= <-]|(c & Hc & ->)].
      * right. exists x. split; [by left|done].
      * right. exists c. split; [by right|done].
    + destruct (IH _ _ Hm) as [->|(c & Hc & ->)]; [by left|].
      right. exists c. split; [by right|done].
Qed.

(** Every pair that [mip_bipartition] yields passed its test. *)
Lemma mip_bipartition_valid (mechanism purview : list Node)
    (parts : a_part * a_part) :
  parts ∈ mip_bipartition bipartition mechanism purview ->
  (∀ n, n ∈ part_mechanism parts.1 -> n ∉ part_purview parts.1)
  ∧ (∀ n, n ∈ part_mechanism parts.2 -> n ∉ part_purview parts.2)
  ∧ ¬ (part_mechanism parts.1 = [] ∧ part_purview parts.1 = [])
  ∧ ¬ (part_mechanism parts.2 = [] ∧ part_purview parts.2 = []).
Proof.
  unfold mip_bipartition. intros (d & Hin & _)%list_elem_of_bind.
  apply list_elem_of_bind in Hin as (n & Hin & _).
  destruct (valid_partition n d) eqn:Hv; [|by apply elem_of_nil in Hin].
  apply list_elem_of_singleton in Hin as ->.
  by apply valid_partition_true in Hv.
Qed.

(** X9.  A MIP returned by [find_mip] is consistent: its partition is one
    of the pairs of [mip_bipartition], so in each part the mechanism and
    the purview share no node and are not both empty; its repertoire is
    the product of the repertoires of its two parts; its difference is the
    distance of that product to the unpartitioned repertoire, and is at
    least [EPSILON]. *)
Theorem find_mip_consistent (self : Subsystem) (direction : string)
    (mechanism purview : list Node) (mip : a_mip) (log : list a_mip) :
  find_mip_ self direction mechanism purview = Ok (Some mip, log) ->
  ∃ get_repertoire,
    choose_repertoire cause_repertoire effect_repertoire self direction
    = Ok get_repertoire
    ∧ mip_partition mip ∈ mip_bipartition bipartition mechanism purview
    ∧ (∀ n, n ∈ part_mechanism (mip_partition mip).1 ->
            n ∉ part_purview (mip_partition mip).1)
    ∧ (∀ n, n ∈ part_mechanism (mip_partition mip).2 ->
            n ∉ part_purview (mip_partition mip).2)
    ∧ ¬ (part_mechanism (mip_partition mip).1 = []
         ∧ part_purview (mip_partition mip).1 = [])
    ∧ ¬ (part_mechanism (mip_partition mip).2 = []
         ∧ part_purview (mip_partition mip).2 = [])
    ∧ mip_repertoire mip
      = repertoire_mul
          (get_repertoire (part_mechanism (mip_partition mip).1)
                          (part_purview (mip_partition mip).1))
          (get_repertoire (part_mechanism (mip_partition mip).2)
                          (part_purview (mip_partition mip).2))
    ∧ mip_difference mip
      = emd (get_repertoire mechanism purview) (mip_repertoire mip)
    ∧ (EPSILON <= mip_difference mip)%Q.
Proof.
  intros Hmip.
  assert (Heps : (EPSILON <= mip_difference mip)%Q)
    by (by apply (find_mip_difference _ _ _ _ _ _ _ _ _ _ Hmip)).
  unfold find_mip in Hmip.
  destruct (choose_repertoire _ _ self direction) as [get|e]; [|done].
  simpl in Hmip. injection Hmip as Hmip. apply (f_equal fst) in Hmip.
  simpl in Hmip.
  destruct (find_mip_loop_candidate _ _ _ _ _ _ Hmip) as [[=]|(c & Hc & ->)].
  exists get. split; [done|]. simpl. split; [done|].
  destruct (mip_bipartition_valid _ _ _ Hc) as (? & ? & ? & ?).
  by repeat split.
Qed.

(** What [find_mice] returns for a valid direction: no purview and
    phi = -inf, or a subset of the subsystem's nodes and a phi of at least
    [EPSILON]. *)
Lemma find_mice_range (self : Subsystem) (direction : string)
    (mechanism : list Node) :
  direction = "past" ∨ direction = "future" ->
  ∃ mice,
    find_mice_ self direction mechanism = Ok mice
    ∧ ((mice_purview mice = None ∧ mice_phi mice = NegInf)
       ∨ ∃ p d, mice_purview mice = Some p ∧ p `sublist_of` nodes self
                ∧ mice_phi mice = Fin d ∧ (EPSILON <= d)%Q).
Proof.
  intros Hdir.
  destruct (find_mice_loop_powerset bipartition emd cause_repertoire
              effect_repertoire self direction mechanism Hdir)
    as (mip_of & st & Hret & Hloop & Hst).
  rewrite (find_mice_valid _ _ _ _ _ _ _ Hdir), Hloop.
  cbn [mbind result_bind rbind]. eexists. split; [done|].
  destruct Hst as [[-> _]|(p & m & Hp & Hm & -> & _)]; [by left|].
  right. exists p, (mip_difference m). simpl.
  split; [done|]. split; [by apply elem_of_powerset|]. split; [done|].
  destruct (Hret p) as [log Hlog]. rewrite Hm in Hlog.
  by apply (find_mip_difference _ _ _ _ _ _ _ _ _ _ Hlog).
Qed.

(** X10.  [phi] raises [AttributeError] exactly when [find_mip] finds the
    mechanism reducible over the purview in the past or in the future
    direction (it reads [.difference] of [None]); otherwise it returns the
    smaller of the two differences, which is at least [EPSILON].  It
    raises nothing else and never returns 0. *)
Theorem phi_outcome (self : Subsystem) (mechanism purview : list Node) :
  match phi bipartition emd cause_repertoire effect_repertoire
          self mechanism purview with
  | Returns v =>
      ∃ past future logp logf,
        find_mip_ self "past" mechanism purview = Ok (Some past, logp)
        ∧ find_mip_ self "future" mechanism purview = Ok (Some future, logf)
        ∧ v = min_Q (mip_difference past) (mip_difference future)
        ∧ (EPSILON <= v)%Q
  | Fails AttributeError =>
      (∃ log, find_mip_ self "past" mechanism purview = Ok (None, log))
      ∨ (∃ log, find_mip_ self "future" mechanism purview = Ok (None, log))
  | Fails (Builtin _) => False
  end.
Proof.
  unfold phi, phi_mip_past, phi_mip_future, mip_past, mip_future.
  destruct (find_mip_valid bipartition emd cause_repertoire effect_repertoire
              self "past" mechanism purview (or_introl eq_refl))
    as [[mp logp] Hp].
  destruct (find_mip_valid bipartition emd cause_repertoire effect_repertoire
              self "future" mechanism purview (or_intror eq_refl))
    as [[mf logf] Hf].
  rewrite Hp, Hf. cbn [difference_of].
  destruct mp as [mp|]; [|left; eauto].
  destruct mf as [mf|]; [|right; eauto].
  exists mp, mf, logp, logf. split; [done|]. split; [done|]. split; [done|].
  pose proof (find_mip_difference _ _ _ _ _ _ _ _ _ _ Hp).
  pose proof (find_mip_difference _ _ _ _ _ _ _ _ _ _ Hf).
  unfold min_Q. by destruct (Qltb _ _).
Qed.

(** X11.  [core_cause], [core_effect] and [phi_max] always return.  A core
    cause or effect is either no purview with phi = -inf, or a subset of
    the subsystem's nodes with a phi of at least [EPSILON]; [phi_max] is
    the smaller of the two phis, so it is -inf or at least [EPSILON], and
    never 0 nor +inf. *)
Theorem phi_max_range (self : Subsystem) (mechanism : list Node) :
  ∃ cause effect,
    core_cause bipartition emd cause_repertoire effect_repertoire
      self mechanism = Ok cause
    ∧ core_effect bipartition emd cause_repertoire effect_repertoire
        self mechanism = Ok effect
    ∧ ((mice_purview cause = None ∧ mice_phi cause = NegInf)
       ∨ ∃ p d, mice_purview cause = Some p ∧ p `sublist_of` nodes self
                ∧ mice_phi cause = Fin d ∧ (EPSILON <= d)%Q)
    ∧ ((mice_purview effect = None ∧ mice_phi effect = NegInf)
       ∨ ∃ p d, mice_purview effect = Some p ∧ p `sublist_of` nodes self
                ∧ mice_phi effect = Fin d ∧ (EPSILON <= d)%Q)
    ∧ phi_max bipartition emd cause_repertoire effect_repertoire
        self mechanism
      = Ok (min_float (mice_phi cause) (mice_phi effect))
    ∧ (min_float (mice_phi cause) (mice_phi effect) = NegInf
       ∨ ∃ d, min_float (mice_phi cause) (mice_phi effect) = Fin d
              ∧ (EPSILON <= d)%Q).
Proof.
  destruct (find_mice_range self "past" mechanism (or_introl eq_refl))
    as (cause & Hc & Hcr).
  destruct (find_mice_range self "future" mechanism (or_intror eq_refl))
    as (effect & He & Her).
  exists cause, effect. unfold phi_max, core_cause, core_effect.
  rewrite Hc, He. cbn [mbind result_bind rbind].
  repeat (split; [done|]).
  unfold min_float.
  destruct Hcr as [[_ Hcp]|(? & dc & _ & _ & Hcp & Hdc)];
    destruct Her as [[_ Hep]|(? & de & _ & _ & Hep & Hde)];
    rewrite Hcp, Hep; simpl; eauto.
  destruct (Qltb de dc); eauto.
Qed.
End SearchMore.

Lemma find_mip_consistent_witness :
  ∃ mip log,
    find_mip bipartition_model demo_emd demo_repertoire demo_repertoire
      demo_sub "past" [0] [1] = Ok (Some mip, log)
    ∧ (EPSILON <= mip_difference mip)%Q.
Proof.
  destruct (find_mip bipartition_model demo_emd demo_repertoire
              demo_repertoire demo_sub "past" [0] [1])
    as [[[mip|] log]|e] eqn:Hrun.
  - exists mip, log. split; [reflexivity|].
    destruct (find_mip_consistent bipartition_model demo_emd demo_repertoire
                demo_repertoire demo_sub "past" [0] [1] mip log Hrun)
      as (_ & _ & _ & _ & _ & _ & _ & _ & _ & Heps).
    exact Heps.
  - vm_compute in Hrun. discriminate.
  - vm_compute in Hrun. discriminate.
Defined.

(** ** More on the big MIP *)

Lemma elem_of_grow (e : nat -> nat -> bool) (n : nat) (seen : list nat)
    (j : nat) :
  j ∈ grow e n seen
  <-> j < n ∧ (j ∈ seen ∨ ∃ i, i ∈ seen ∧ e i j = true).
Proof.
  unfold grow. rewrite list_elem_of_filter, elem_of_seq, Exists_exists.
  split.
  - intros [H1 H2]. split; [lia|done].
  - intros [H1 H2]. split; [done|lia].
Qed.

(** A search along more edges, from more vertices, reaches more. *)
Lemma iter_grow_mono (e e' : nat -> nat -> bool) (n k : nat)
    (seen seen' : list nat) :
  (∀ i j, e i j = true -> e' i j = true) ->
  (∀ j, j ∈ seen -> j ∈ seen') ->
  ∀ j, j ∈ Nat.iter k (grow e n) seen -> j ∈ Nat.iter k (grow e' n) seen'.
Proof.
  intros He Hseen. induction k as [|k IH]; [exact Hseen|].
  simpl. intros j. rewrite !elem_of_grow.
  intros [Hj [Hin|(i & Hi & Hij)]]; (split; [done|]).
  - left. by apply IH.
  - right. exists i. split; [by apply IH|by apply He].
Qed.

Lemma filter_length_mono {A : Type} (P R : A -> Prop)
    `{!∀ x, Decision (P x)} `{!∀ x, Decision (R x)} (l : list A) :
  (∀ x, P x -> R x) -> length (filter P l) <= length (filter R l).
Proof.
  intros Himp. induction l as [|x l IH]; [done|].
  rewrite !filter_cons.
  destruct (decide (P x)) as [HP|_]; destruct (decide (R x)) as [_|HR];
    simpl; try lia.
  destruct HR. by apply Himp.
Qed.

(** X12.  The components that [_big_mip] counts are never more than the
    strongly connected components: whenever [_big_mip] returns the null
    MIP at its test [num_components > 1], the induced connectivity matrix
    does have more than one strongly connected component. *)
Theorem connected_components_le_strong (cm : list (list Z)) :
  connected_components cm <= strongly_connected_components cm.
Proof.
  unfold connected_components, strongly_connected_components, count_classes.
  apply filter_length_mono. intros i Hweak.
  rewrite Forall_forall in Hweak. apply Forall_forall. intros j Hj.
  specialize (Hweak j Hj).
  apply bool_decide_eq_false in Hweak.
  apply andb_false_iff. left. apply bool_decide_eq_false.
  intros Hstrong. apply Hweak. unfold reach in *.
  apply (iter_grow_mono (edge cm) (undirected (edge cm)) _ _ [i] [i]);
    try done.
  intros a b Hab. unfold undirected. by rewrite Hab.
Qed.

Section BigMipMore.
Variable SINGLE_NODES_WITH_SELFLOOPS_HAVE_PHI : bool.
Variable BigMip_lt : BigMip -> BigMip -> bool.
Variable _all_connect_to_any _any_connect_to_all :
  Subsystem -> list Node -> list Node -> bool.
Variable _concept : Subsystem -> list Node -> Concept.
Variable bipartition : list nat -> list (list nat * list nat).
Variable constellation_distance :
  list Concept -> list Concept -> Subsystem -> Q.

Local Abbreviation _big_mip_body_ :=
  (_big_mip_body SINGLE_NODES_WITH_SELFLOOPS_HAVE_PHI BigMip_lt
     _all_connect_to_any _any_connect_to_all _concept bipartition
     constellation_distance).
Local Abbreviation _big_mip_ :=
  (_big_mip SINGLE_NODES_WITH_SELFLOOPS_HAVE_PHI BigMip_lt
     _all_connect_to_any _any_connect_to_all _concept bipartition
     constellation_distance).
Local Abbreviation evaluate :=
  (_evaluate_partition BigMip_lt _all_connect_to_any _any_connect_to_all
     _concept constellation_distance).
Local Abbreviation constellation_ :=
  (constellation _all_connect_to_any _any_connect_to_all _concept).

(** The builtin [min] returns one of its arguments. *)
Lemma py_min_elem (x : BigMip) (l : list BigMip) :
  foldl (py_min2 BigMip_lt) x l ∈ x :: l.
Proof.
  revert x. induction l as [|y l IH]; intros x; [by left|].
  simpl. specialize (IH (py_min2 BigMip_lt x y)).
  apply elem_of_cons in IH as [->|IH].
  - unfold py_min2. destruct (BigMip_lt y x); [right; by left|by left].
  - right. by right.
Qed.

(** The MIP of a partition is reported for the uncut subsystem and the
    unpartitioned constellation it was given. *)
Lemma _evaluate_partition_subsystem (uncut : Subsystem)
    (partition : list nat * list nat) (unpartitioned : list Concept) :
  bigmip_subsystem (evaluate uncut partition unpartitioned) = uncut
  ∧ unpartitioned_constellation (evaluate uncut partition unpartitioned)
    = Some unpartitioned.
Proof.
  unfold _evaluate_partition, py_min2. by destruct (BigMip_lt _ _).
Qed.

(** What the body of [_big_mip] returns. *)
Lemma _big_mip_body_result (cache_key : Z) (subsystem : Subsystem)
    (mip : BigMip) (evaluated : list (list nat * list nat)) :
  _big_mip_body_ cache_key subsystem = (Ok mip, evaluated) ->
  bigmip_subsystem mip = subsystem
  ∧ ((evaluated = []
      ∧ (mip = _null_mip subsystem
         ∨ mip = _single_node_mip SINGLE_NODES_WITH_SELFLOOPS_HAVE_PHI
                   subsystem))
     ∨ (evaluated = tail (bipartition (node_indices subsystem))
        ∧ unpartitioned_constellation mip = Some (constellation_ subsystem)
        ∧ ∃ partition,
            partition ∈ evaluated
            ∧ mip = evaluate subsystem partition (constellation_ subsystem))).
Proof.
  unfold _big_mip_body.
  destruct (length (nodes subsystem) =? 1).
  { intros [= <- <-]. split.
    - unfold _single_node_mip. by destruct SINGLE_NODES_WITH_SELFLOOPS_HAVE_PHI.
    - left. split; [done|by right]. }
  destruct (negb (Subsystem_bool subsystem)).
  { intros [= <- <-]. split; [done|]. left. split; [done|by left]. }
  destruct (submatrix _ _ _) as [cm|e]; [|done].
  destruct (1 <? connected_components cm).
  { intros [= <- <-]. split; [done|]. left. split; [done|by left]. }
  unfold py_min.
  destruct (tail (bipartition (node_indices subsystem))) as [|p ps] eqn:Hb;
    [done|].
  rewrite fmap_cons. intros [= <- <-].
  pose proof (py_min_elem (evaluate subsystem p (constellation_ subsystem))
                ((fun partition =>
                    evaluate subsystem partition (constellation_ subsystem))
                 <$> ps)) as Hin.
  rewrite <- (fmap_cons (fun partition =>
                evaluate subsystem partition (constellation_ subsystem)))
    in Hin.
  apply list_elem_of_fmap in Hin as (partition & Hmip & Hin).
  rewrite Hmip.
  destruct (_evaluate_partition_subsystem subsystem partition
              (constellation_ subsystem)) as [Hs Hu].
  split; [done|]. right. split; [done|]. split; [done|].
  by exists partition.
Qed.

(** X13.  A call of [_big_mip] that returns a big MIP either found it
    stored under its cache key, and then it returns the stored value as
    it is, whatever the subsystem, evaluates no bipartition and leaves
    the store unchanged; or it found nothing stored, and then the result
    is stored under the key, it is reported for the subsystem the call
    was made on, never for one of the cut copies, and it is either the
    null MIP or the single-node MIP, with no bipartition evaluated, or the
    MIP of one of the evaluated bipartitions, which are all the
    bipartitions of the node indices but the first, and then its
    unpartitioned constellation is the constellation of the subsystem. *)
Theorem _big_mip_result (store : gmap Z BigMip) (cache_key : Z)
    (subsystem : Subsystem) (mip : BigMip)
    (evaluated : list (list nat * list nat)) (store' : gmap Z BigMip) :
  _big_mip_ store cache_key subsystem = ((Ok mip, evaluated), store') ->
  (store !! cache_key = Some mip ∧ evaluated = [] ∧ store' = store)
  ∨ (store !! cache_key = None
     ∧ store' = <[cache_key := mip]> store
     ∧ bigmip_subsystem mip = subsystem
     ∧ ((evaluated = []
         ∧ (mip = _null_mip subsystem
            ∨ mip = _single_node_mip SINGLE_NODES_WITH_SELFLOOPS_HAVE_PHI
                      subsystem))
        ∨ (evaluated = tail (bipartition (node_indices subsystem))
           ∧ unpartitioned_constellation mip
             = Some (constellation_ subsystem)
           ∧ ∃ partition,
               partition ∈ evaluated
               ∧ mip = evaluate subsystem partition
                         (constellation_ subsystem)))).
Proof.
  unfold _big_mip.
  destruct (store !! cache_key) as [found|] eqn:Hkey.
  - intros [= <- <- <-]. by left.
  - destruct (_big_mip_body_ cache_key subsystem) as [[r|e] ev] eqn:Hbody;
      simpl; [|by intros [= ]].
    intros [= <- <- <-]. right.
    destruct (_big_mip_body_result cache_key subsystem r ev Hbody)
      as [Hsub Hcases].
    by repeat split.
Qed.
End BigMipMore.

Lemma _big_mip_result_witness :
  ∃ mip store',
    _big_mip true (fun _ _ => false) (fun _ _ _ => true) (fun _ _ _ => true)
      (fun _ m => mkConcept m 1 None None) bipartition_model
      (fun _ _ _ => 0%Q) ∅ 0%Z demo_sub
    = ((Ok mip, [([1], [0])]), store')
    ∧ bigmip_subsystem mip = demo_sub
    ∧ store' !! 0%Z = Some mip.
Proof.
  destruct (_big_mip true (fun _ _ => false) (fun _ _ _ => true)
              (fun _ _ _ => true) (fun _ m => mkConcept m 1 None None)
              bipartition_model (fun _ _ _ => 0%Q) ∅ 0%Z demo_sub)
    as [[[mip|e] evaluated] store'] eqn:Hrun.
  - assert (Hev : evaluated = [([1], [0])]).
    { apply (f_equal (fun out => out.1.2)) in Hrun.
      vm_compute in Hrun. by symmetry. }
    subst evaluated. exists mip, store'. split; [reflexivity|].
    destruct (_big_mip_result true (fun _ _ => false) (fun _ _ _ => true)
                (fun _ _ _ => true) (fun _ m => mkConcept m 1 None None)
                bipartition_model (fun _ _ _ => 0%Q) ∅ 0%Z demo_sub mip
                [([1], [0])] store' Hrun)
      as [(Hhit & _)|(_ & Hstore & Hsub & _)].
    + rewrite lookup_empty in Hhit. discriminate.
    + split; [exact Hsub|]. rewrite Hstore. apply lookup_insert_eq.
  - apply (f_equal (fun out => out.1.1)) in Hrun.
    vm_compute in Hrun. discriminate.
Defined.

(** ** More on the cause repertoire: a distribution over the purview *)

Lemma np_sum_tmap_div (t : tensor) (s : Q) :
  (np_sum (tmap (fun q => (q / s)%Q) t) == np_sum t / s)%Q.
Proof.
  induction t as [q|t IH|t0 IH0 t1 IH1]; simpl.
  - reflexivity.
  - exact IH.
  - rewrite IH0, IH1. unfold Qdiv. ring.
Qed.

Lemma has_shape_np_ones (shape : list bool) : has_shape shape (np_ones shape).
Proof.
  induction shape as [|b shape IH]; [done|].
  destruct b; simpl; [by split|done].
Qed.

Lemma zip_with_orb_diag (shape : list bool) : zip_with orb shape shape = shape.
Proof.
  induction shape as [|b shape IH]; [done|].
  simpl. rewrite IH. by destruct b.
Qed.

(** Broadcasting: the result has an axis of length 2 wherever one of the
    operands has one. *)
Lemma has_shape_tzip (f : Q -> Q -> Q) (a b : tensor) (sa sb : list bool) :
  length sa = length sb -> has_shape sa a -> has_shape sb b ->
  has_shape (zip_with orb sa sb) (tzip f a b).
Proof.
  revert b sa sb. induction a as [x|a IH|a0 IH0 a1 IH1];
    intros [y|b|b0 b1] [|[] sa] [|[] sb]; simpl; try done;
    intros [= Hlen].
  - intros Ha Hb. by apply IH.
  - intros Ha [Hb0 Hb1]. split; by apply IH.
  - intros [Ha0 Ha1] Hb. split; [by apply IH0|by apply IH1].
  - intros [Ha0 Ha1] [Hb0 Hb1]. split; [by apply IH0|by apply IH1].
Qed.

Lemma has_shape_marginalize_out (k : nat) (t : tensor) (shape : list bool) :
  has_shape shape t -> has_shape (<[k := false]> shape) (marginalize_out k t).
Proof.
  revert k shape. induction t as [q|t IH|t0 IH0 t1 IH1];
    intros [|k] [|[] shape]; simpl; try done.
  - apply IH.
  - intros [H0 H1]. rewrite <- (zip_with_orb_diag shape).
    by apply has_shape_tzip.
  - intros [H0 H1]. split; [by apply IH0|by apply IH1].
Qed.

Lemma clear_axes_length (ks : list nat) (shape : list bool) :
  length (clear_axes ks shape) = length shape.
Proof.
  unfold clear_axes. revert shape.
  induction ks as [|k ks IH]; intros shape; [done|].
  simpl. by rewrite IH, length_insert.
Qed.

(** An axis that is still of length 2 was of length 2 and was not cut. *)
Lemma clear_axes_true (ks : list nat) (shape : list bool) (i : nat) :
  clear_axes ks shape !! i = Some true ->
  (i ∉ ks) ∧ shape !! i = Some true.
Proof.
  unfold clear_axes. revert shape.
  induction ks as [|k ks IH]; intros shape; simpl.
  - intros H. split; [apply not_elem_of_nil|done].
  - intros H. destruct (IH _ H) as [Hks Hi].
    destruct (decide (i = k)) as [->|Hne].
    + rewrite list_lookup_insert in Hi.
      destruct (decide (k = k ∧ k < length shape)) as [_|Hn]; [done|].
      destruct Hn. split; [done|]. by apply (lookup_lt_Some shape k true).
    + rewrite list_lookup_insert_ne in Hi by done.
      split; [|done]. intros [->|?]%elem_of_cons; done.
Qed.

Lemma zip_with_orb_absorb (P C : list bool) :
  length P = length C ->
  (∀ i, C !! i = Some true -> P !! i = Some true) ->
  zip_with orb P C = P.
Proof.
  revert C. induction P as [|p P IH]; intros [|c C]; simpl; try done.
  intros [= Hlen] Himp. f_equal.
  - destruct c; [|by destruct p].
    specialize (Himp 0 eq_refl). simpl in Himp. by injection Himp as ->.
  - apply IH; [done|]. intros i Hi. by apply (Himp (S i)).
Qed.

Section CauseRepertoireShape.
Variable self : Subsystem.
Hypothesis Hwf : well_formed self.

(** The loop over the boundary inputs, with the shape it leaves. *)
Lemma condition_on_past_loop_shape (P : Q -> Prop) (bs : list Node) :
  ∀ (shape : list bool) (t : tensor),
    NoDup bs ->
    (∀ b, b ∈ bs -> shape !! b = Some true) ->
    length shape = size (network self) ->
    has_shape shape t -> tforall P t ->
    ∃ t', rfold (RepertoireEngine.condition_on_past self) bs t = Ok t'
          ∧ has_shape (clear_axes bs shape) t'
          ∧ tforall P t'.
Proof.
  induction bs as [|b bs IH]; intros shape t Hnd Htrue Hlen Hshape HP.
  - exists t. by repeat split.
  - apply NoDup_cons in Hnd as [Hb Hnd].
    assert (Hbt : shape !! b = Some true) by (apply Htrue; by left).
    cbn [rfold]. rewrite condition_on_past_eq.
    destruct (getindex_ok (past_state self) b) as (v & -> & Hv).
    { rewrite (wf_past self Hwf), <- Hlen.
      by apply (lookup_lt_Some shape b true). }
    cbn [mbind result_bind rbind]. unfold getitem.
    rewrite (ndim_has_shape shape t Hshape), Hlen, Nat.ltb_irrefl.
    assert (Hbin : v = 0%Z ∨ v = 1%Z).
    { pose proof (wf_past_binary self Hwf) as Hall.
      rewrite Forall_lookup in Hall. by apply (Hall b). }
    destruct (take_axis_ok P shape b v t Hshape Hbt Hbin)
      as (t' & -> & Hshape' & HP').
    apply (IH (<[b := false]> shape) t'); try done.
    + intros b' Hb'. rewrite list_lookup_insert_ne; [apply Htrue; by right|].
      intros ->. done.
    + by rewrite length_insert.
    + by apply HP'.
Qed.

Lemma marginalize_out_loop_shape (ms : list Node) (t : tensor)
    (shape : list bool) :
  has_shape shape t ->
  has_shape (clear_axes ms shape)
    (foldl (fun t node => marginalize_out (index node) t) t ms).
Proof.
  revert t shape. induction ms as [|m ms IH]; intros t shape Ht; [done|].
  simpl. apply (IH _ (<[m := false]> shape)).
  by apply has_shape_marginalize_out.
Qed.

(** An axis of the conditioned table that is still of length 2 belongs to
    a purview node. *)
Lemma conditioned_axes_in_purview (purview : list Node) (n i : nat) :
  clear_axes (elements (RepertoireEngine.marginal_inputs self purview n))
    (clear_axes (elements (RepertoireEngine.boundary_inputs self purview n))
       (replicate (size (network self)) true)) !! i = Some true ->
  purview_shape purview (network self) !! i = Some true.
Proof.
  intros [Hm [Hb Hi]%clear_axes_true]%clear_axes_true.
  apply lookup_replicate in Hi as [_ Hi].
  unfold purview_shape, network_nodes.
  rewrite list_lookup_fmap, lookup_seq_lt by done. simpl. f_equal.
  apply bool_decide_eq_true.
  rewrite elem_of_elements in Hm, Hb.
  unfold RepertoireEngine.marginal_inputs in Hm.
  destruct (decide (i ∈ purview)) as [|Hn]; [done|].
  assert (Hnpi : i ∈ RepertoireEngine.non_purview_inputs self purview).
  { unfold RepertoireEngine.non_purview_inputs, network_nodes.
    apply elem_of_difference. rewrite !elem_of_list_to_set, elem_of_seq.
    split; [lia|done]. }
  destruct Hm. apply elem_of_difference. split; [|done].
  apply elem_of_union. by left.
Qed.

Lemma conditioned_tpm_shape (purview : list Node) (n : Node) :
  n < size (network self) ->
  ∃ t shape,
    RepertoireEngine.conditioned_tpm self purview n = Ok t
    ∧ nonnegative t ∧ has_shape shape t
    ∧ length shape = size (network self)
    ∧ ∀ i, shape !! i = Some true ->
           purview_shape purview (network self) !! i = Some true.
Proof.
  intros Hn. unfold RepertoireEngine.conditioned_tpm, index.
  destruct (getindex_ok (current_state self) n) as (state & -> & _);
    [by rewrite (wf_current self Hwf)|].
  destruct (getindex_ok (node_tpms (network self)) n) as (tpm & -> & Htpm);
    [by rewrite (wf_tpms self Hwf)|].
  cbn [mbind result_bind rbind].
  pose proof (wf_tpm_shape self Hwf) as Hshape.
  pose proof (wf_tpm_probabilities self Hwf) as Hprob.
  rewrite Forall_lookup in Hshape, Hprob.
  specialize (Hshape n tpm Htpm). specialize (Hprob n tpm Htpm).
  set (start := if (state =? 1)%Z then tpm
                else tmap (fun q => (1 - q)%Q) tpm).
  assert (Hstart : has_shape (replicate (size (network self)) true) start
                   ∧ nonnegative start).
  { subst start. destruct (state =? 1)%Z.
    - split; [done|].
      apply (tforall_impl (fun q => (0 <= q <= 1)%Q)); [|done].
      intros q Hq. lra.
    - split; [by apply has_shape_tmap|].
      apply (tforall_tmap (fun q => (0 <= q <= 1)%Q)); [|done].
      intros q Hq. lra. }
  destruct Hstart as [Hs Hnn].
  destruct (condition_on_past_loop_shape (fun q => (0 <= q)%Q)
              (elements (RepertoireEngine.boundary_inputs self purview n))
              (replicate (size (network self)) true) start)
    as (t' & -> & Hshape' & Ht'); try done.
  - apply NoDup_elements.
  - intros b Hb. apply lookup_replicate_2.
    by apply (boundary_inputs_in_network self purview n).
  - by rewrite length_replicate.
  - cbn [mbind result_bind rbind]. eexists _, _. split; [done|].
    split; [by apply marginalize_out_loop|].
    split; [by apply marginalize_out_loop_shape|].
    split; [by rewrite !clear_axes_length, length_replicate|].
    apply conditioned_axes_in_purview.
Qed.

Lemma purview_shape_length (purview : list Node) :
  length (purview_shape purview (network self)) = size (network self).
Proof.
  unfold purview_shape, network_nodes. by rewrite length_fmap, length_seq.
Qed.

Lemma cause_cjd_loop_shape (purview mechanism : list Node) (cjd : tensor) :
  Forall (fun n => n < size (network self)) mechanism ->
  nonnegative cjd ->
  has_shape (purview_shape purview (network self)) cjd ->
  ∃ cjd', rfold (RepertoireEngine.cjd_step self purview) mechanism cjd
          = Ok cjd'
          ∧ nonnegative cjd'
          ∧ has_shape (purview_shape purview (network self)) cjd'.
Proof.
  revert cjd. induction mechanism as [|n mechanism IH];
    intros cjd Hm Hcjd Hshape.
  - by exists cjd.
  - apply Forall_cons in Hm as [Hn Hm].
    cbn [rfold]. rewrite cjd_step_eq.
    destruct (conditioned_tpm_shape purview n Hn)
      as (t & shape & -> & Ht & Hts & Hlen & Himp).
    cbn [mbind result_bind rbind]. apply IH; [done| |].
    + apply (tforall_tzip (fun q => (0 <= q)%Q) (fun q => (0 <= q)%Q));
        try done.
      intros x y Hx Hy. by apply Qmult_le_0_compat.
    + rewrite <- (zip_with_orb_absorb
                    (purview_shape purview (network self)) shape);
        [|by rewrite purview_shape_length|done].
      apply has_shape_tzip; [by rewrite purview_shape_length|done|done].
Qed.
End CauseRepertoireShape.

(** The normalization at the end of [cause_repertoire]. *)
Lemma cause_repertoire_array (self : Subsystem)
    (mechanism purview : list Node) :
  mechanism ≠ [] -> purview ≠ [] ->
  well_formed self ->
  Forall (fun n => n < size (network self)) mechanism ->
  ∃ t,
    RepertoireEngine.cause_repertoire self mechanism purview = Ok (Array t)
    ∧ has_shape (purview_shape purview (network self)) t
    ∧ nonnegative t
    ∧ ((np_sum t == 1)%Q ∨ all_zero t).
Proof.
  intros Hm Hp Hwf Hnodes.
  destruct (cause_cjd_loop_shape self Hwf purview mechanism
              (np_ones (purview_shape purview (network self))) Hnodes)
    as (cjd & Hcjd & Hnn & Hshape).
  { apply nonnegative_np_ones. }
  { apply has_shape_np_ones. }
  unfold RepertoireEngine.cause_repertoire.
  destruct mechanism as [|n mechanism]; [done|].
  destruct purview as [|p purview]; [done|].
  cbn [length Nat.eqb]. unfold RepertoireEngine.cause_cjd.
  rewrite Hcjd. cbn [mbind result_bind rbind]. unfold np_divide.
  destruct (Qeq_bool (np_sum cjd) 0) eqn:Hsum; cbn [negb].
  - exists cjd. split; [done|]. split; [done|]. split; [done|].
    right. apply np_sum_zero; [done|]. by apply Qeq_bool_iff.
  - cbn [mbind result_bind rbind]. eexists. split; [done|].
    apply Qeq_bool_neq in Hsum.
    pose proof (np_sum_nonnegative cjd Hnn) as Hge.
    split; [by apply has_shape_tmap|]. split.
    + apply (tforall_tmap (fun q => (0 <= q)%Q)); [|done].
      intros q Hq. apply Qle_shift_div_l; lra.
    + left. rewrite np_sum_tmap_div. field. done.
Qed.

(** X14.  For a nonempty mechanism and purview of a well-formed subsystem
    the cause repertoire is an array over the purview alone: an axis of
    length 2 for each purview node and of length 1 for every other node of
    the network.  Its cells are non-negative, and they sum to 1 unless
    they are all zero: the result is a probability distribution over the
    states of the purview, or identically zero. *)
Theorem cause_repertoire_distribution (self : Subsystem)
    (mechanism purview : list Node) :
  mechanism ≠ [] -> purview ≠ [] ->
  well_formed self ->
  Forall (fun n => n < size (network self)) mechanism ->
  ∃ t,
    RepertoireEngine.cause_repertoire self mechanism purview = Ok (Array t)
    ∧ has_shape (purview_shape purview (network self)) t
    ∧ nonnegative t
    ∧ ((np_sum t == 1)%Q ∨ all_zero t).
Proof. apply cause_repertoire_array. Qed.

Lemma cause_repertoire_distribution_witness :
  ∃ t,
    RepertoireEngine.cause_repertoire stuck_sub [1] [0] = Ok (Array t)
    ∧ has_shape [true; false] t
    ∧ ((np_sum t == 1)%Q ∨ all_zero t).
Proof.
  destruct (cause_repertoire_distribution stuck_sub [1] [0])
    as (t & Ht & Hshape & _ & Hsum).
  - discriminate.
  - discriminate.
  - exact well_formed_stuck_sub.
  - repeat constructor.
  - exists t. split; [exact Ht|]. split; [exact Hshape|exact Hsum].
Defined.

(** ** The effect repertoire *)

Lemma has_shape_singleton_axes (n : nat) (q : Q) :
  has_shape (replicate n false) (singleton_axes n (Leaf q)).
Proof. induction n as [|n IH]; [done|exact IH]. Qed.

(** The shape of the future half of a node's table. *)
Lemma has_shape_state_block (axes idx : nat) (off on : Q) :
  idx < axes ->
  has_shape (<[idx := true]> (replicate axes false))
            (state_block axes idx off on).
Proof.
  revert idx. induction axes as [|axes IH]; intros [|idx] Hidx; try lia.
  - simpl. split; apply has_shape_singleton_axes.
  - simpl. apply IH. lia.
Qed.

Lemma nonnegative_state_block (axes idx : nat) (off on : Q) :
  (0 <= off)%Q -> (0 <= on)%Q -> nonnegative (state_block axes idx off on).
Proof.
  intros Hoff Hon. unfold nonnegative.
  assert (Hs : ∀ n q, (0 <= q)%Q ->
            tforall (fun q => (0 <= q)%Q) (singleton_axes n (Leaf q))).
  { intros n q Hq. induction n as [|n IH]; [done|exact IH]. }
  revert idx. induction axes as [|axes IH]; intros [|idx]; simpl; try done.
  split; by apply Hs.
Qed.

(** Elementwise operations on two such halves act on their two cells. *)
Lemma tzip_singleton_axes (f : Q -> Q -> Q) (n : nat) (x y : Q) :
  tzip f (singleton_axes n (Leaf x)) (singleton_axes n (Leaf y))
  = singleton_axes n (Leaf (f x y)).
Proof.
  induction n as [|n IH]; [done|]. simpl. by rewrite IH.
Qed.

Lemma tzip_state_block (f : Q -> Q -> Q) (axes idx : nat)
    (off on off' on' : Q) :
  tzip f (state_block axes idx off on) (state_block axes idx off' on')
  = state_block axes idx (f off off') (f on on').
Proof.
  revert idx. induction axes as [|axes IH]; intros [|idx]; simpl; try done.
  - by rewrite !tzip_singleton_axes.
  - by rewrite IH.
Qed.

(** The average of two such halves is one. *)
Lemma is_state_block_average (axes idx : nat) (x y : tensor) :
  is_state_block axes idx x -> is_state_block axes idx y ->
  is_state_block axes idx (tzip (fun a b => ((a + b) / 2)%Q) x y).
Proof.
  intros (a & b & -> & Ha & Hb & Hab) (a' & b' & -> & Ha' & Hb' & Hab').
  rewrite tzip_state_block.
  exists ((a + a') / 2)%Q, ((b + b') / 2)%Q. split; [done|].
  split; [apply Qle_shift_div_l; lra|].
  split; [apply Qle_shift_div_l; lra|].
  assert (H : ((a + a') / 2 + (b + b') / 2
               == ((a + b) + (a' + b')) / 2)%Q) by field.
  rewrite H, Hab, Hab'. reflexivity.
Qed.

(** A product with an array of one cell scales the array. *)
Lemma tzip_scale (shape : list bool) (t : tensor) (c : Q) :
  has_shape shape t ->
  (np_sum (tzip Qmult t (singleton_axes (length shape) (Leaf c)))
   == np_sum t * c)%Q
  ∧ ∀ i, const_along i t ->
         const_along i (tzip Qmult t (singleton_axes (length shape) (Leaf c))).
Proof.
  revert shape. induction t as [q|t IH|t0 IH0 t1 IH1];
    intros [|[] shape]; simpl; try done.
  - intros _. split; [reflexivity|]. intros [|i] Hi; destruct Hi.
  - intros Ht. destruct (IH shape Ht) as [Hsum Hconst].
    split; [done|]. intros [|i]; [done|]. apply Hconst.
  - intros [H0 H1]. destruct (IH0 shape H0) as [Hsum0 Hconst0].
    destruct (IH1 shape H1) as [Hsum1 Hconst1]. split.
    + rewrite Hsum0, Hsum1. ring.
    + intros [|i]; [by intros ->|].
      intros [Hc0 Hc1]. split; [by apply Hconst0|by apply Hconst1].
Qed.

(** The product of a block of the accumulated array with the future half
    of the table of a node whose axis the block does not depend on:
    the sum is halved, and the block still does not depend on the axes it
    did not depend on, but for the node's own. *)
Lemma tzip_state_block_sum (shape : list bool) (t : tensor) (idx : nat)
    (off on : Q) :
  has_shape shape t -> shape !! idx = Some true -> const_along idx t ->
  (off + on == 1)%Q ->
  (np_sum (tzip Qmult t (state_block (length shape) idx off on)) * 2
   == np_sum t)%Q
  ∧ ∀ i, i ≠ idx -> const_along i t ->
         const_along i (tzip Qmult t (state_block (length shape) idx off on)).
Proof.
  intros Ht Hidx Hconst Hsum. revert shape idx Ht Hidx Hconst.
  induction t as [q|t IH|t0 IH0 t1 IH1];
    intros [|[] shape] [|idx]; simpl; try done.
  - intros Ht Hidx Hconst. destruct (IH shape idx Ht Hidx Hconst) as [Hs Hc].
    split; [done|]. intros [|i] Hne; [done|]. apply Hc. lia.
  - intros [H0 H1] _ <-.
    destruct (tzip_scale shape t0 off H0) as [Hoff Hcoff].
    destruct (tzip_scale shape t0 on H0) as [Hon Hcon]. split.
    + rewrite Hoff, Hon.
      assert (H : (np_sum t0 * off + np_sum t0 * on
                   == np_sum t0 * (off + on))%Q) by ring.
      rewrite H, Hsum. ring.
    + intros [|i] Hne; [done|].
      intros [Hc0 Hc1]. split; [by apply Hcoff|by apply Hcon].
  - intros [H0 H1] Hidx [Hc0 Hc1].
    destruct (IH0 shape idx H0 Hidx Hc0) as [Hs0 Hk0].
    destruct (IH1 shape idx H1 Hidx Hc1) as [Hs1 Hk1]. split.
    + assert (H : ((np_sum (tzip Qmult t0
                              (state_block (length shape) idx off on))
                    + np_sum (tzip Qmult t1
                                (state_block (length shape) idx off on))) * 2
                   == np_sum (tzip Qmult t0
                                (state_block (length shape) idx off on)) * 2
                      + np_sum (tzip Qmult t1
                                  (state_block (length shape) idx off on)) * 2)%Q)
        by ring.
      rewrite H, Hs0, Hs1. reflexivity.
    + intros [|i] Hne.
      * by intros ->.
      * intros [Hi0 Hi1]. split; [apply Hk0|apply Hk1]; (lia || done).
Qed.

(** ** Arrays of blocks *)

Lemma blocks_impl (first : list bool) (P R : tensor -> Prop) (t : tensor) :
  (∀ b, P b -> R b) -> blocks first P t -> blocks first R t.
Proof.
  intros Himp. revert t.
  induction first as [|[] first IH]; intros t; simpl.
  - apply Himp.
  - destruct t as [q|t|t0 t1]; try done.
    intros [H0 H1]. split; by apply IH.
  - destruct t as [q|t|t0 t1]; try done. apply IH.
Qed.

(** Broadcasting over the first axes: the blocks of the result are the
    results on the blocks. *)
Lemma blocks_tzip (f : Q -> Q -> Q) (P R S : tensor -> Prop)
    (fa fb : list bool) (a b : tensor) :
  length fa = length fb ->
  (∀ x y, P x -> R y -> S (tzip f x y)) ->
  blocks fa P a -> blocks fb R b ->
  blocks (zip_with orb fa fb) S (tzip f a b).
Proof.
  intros Hlen Hf. revert fb a b Hlen.
  induction fa as [|[] fa IH]; intros [|[] fb] a b; simpl; try done.
  - intros _. apply Hf.
  - intros [= Hlen]. destruct a as [x|a|a0 a1], b as [y|b|b0 b1]; try done.
    intros [Ha0 Ha1] [Hb0 Hb1]. simpl. split; by apply IH.
  - intros [= Hlen]. destruct a as [x|a|a0 a1], b as [y|b|b0 b1]; try done.
    intros [Ha0 Ha1] Hb. simpl. split; by apply IH.
  - intros [= Hlen]. destruct a as [x|a|a0 a1], b as [y|b|b0 b1]; try done.
    intros Ha [Hb0 Hb1]. simpl. split; by apply IH.
  - intros [= Hlen]. destruct a as [x|a|a0 a1], b as [y|b|b0 b1]; try done.
    intros Ha Hb. simpl. by apply IH.
Qed.

Lemma blocks_marginalize_out (P : tensor -> Prop) (first : list bool)
    (k : nat) (t : tensor) :
  (∀ x y, P x -> P y -> P (tzip (fun a b => ((a + b) / 2)%Q) x y)) ->
  k < length first -> blocks first P t ->
  blocks (<[k := false]> first) P (marginalize_out k t).
Proof.
  intros Havg. revert k t.
  induction first as [|[] first IH]; intros [|k] t; simpl; try lia;
    destruct t as [q|t|t0 t1]; try done.
  - intros _ [H0 H1]. simpl.
    rewrite <- (zip_with_orb_diag first).
    by apply (blocks_tzip _ P P).
  - intros Hk [H0 H1]. simpl. split; apply IH; (lia || done).
  - intros Hk H. simpl. apply IH; (lia || done).
Qed.

Lemma blocks_marginalize_out_loop (P : tensor -> Prop) (ks : list nat)
    (first : list bool) (t : tensor) :
  (∀ x y, P x -> P y -> P (tzip (fun a b => ((a + b) / 2)%Q) x y)) ->
  Forall (fun k => k < length first) ks -> blocks first P t ->
  blocks (clear_axes ks first) P
         (foldl (fun t k => marginalize_out (index k) t) t ks).
Proof.
  intros Havg. unfold clear_axes. revert first t.
  induction ks as [|k ks IH]; intros first t Hks Ht; [done|].
  inversion Hks as [|? ? Hk Hks']; subst. simpl. apply IH.
  - by rewrite length_insert.
  - by apply blocks_marginalize_out.
Qed.

Lemma blocks_take_axis (P : tensor -> Prop) (first : list bool) (k : nat)
    (v : Z) (t : tensor) :
  first !! k = Some true -> v = 0%Z ∨ v = 1%Z -> blocks first P t ->
  ∃ t', take_axis k v t = Ok t' ∧ blocks (<[k := false]> first) P t'.
Proof.
  intros Hk Hv. revert k t Hk.
  induction first as [|[] first IH]; intros [|k] t; simpl; try done;
    destruct t as [q|t|t0 t1]; try done.
  - intros _ [H0 H1]. destruct Hv as [->| ->]; simpl; eauto.
  - intros Hk [H0 H1].
    destruct (IH k t0 Hk H0) as (r0 & -> & Hr0).
    destruct (IH k t1 Hk H1) as (r1 & -> & Hr1).
    by exists (Two r0 r1).
  - intros Hk H. destruct (IH k t Hk H) as (r & -> & Hr).
    by exists (One r).
Qed.

Lemma blocks_drop_axes (P : tensor -> Prop) (n : nat) (t : tensor) :
  blocks (replicate n false) P t -> ∃ b, drop_axes n t = Ok b ∧ P b.
Proof.
  revert t. induction n as [|n IH]; intros t; simpl; [by eauto|].
  destruct t as [q|t|t0 t1]; try done. apply IH.
Qed.

Lemma blocks_np_ones (first shape : list bool) :
  blocks first (eq (np_ones shape)) (np_ones (first ++ shape)).
Proof.
  induction first as [|[] first IH]; simpl; [done|by split|done].
Qed.

Lemma blocks_graft (P : tensor -> Prop) (f : Q -> tensor)
    (shape : list bool) (t : tensor) :
  has_shape shape t -> tforall (fun q => P (f q)) t ->
  blocks shape P (graft f t).
Proof.
  revert t. induction shape as [|[] shape IH];
    intros [q|t|t0 t1]; simpl; try done.
  - intros [H0 H1] [Hq0 Hq1]. split; by apply IH.
  - apply IH.
Qed.

Lemma broadcast_full_id (n : nat) (t : tensor) :
  has_shape (replicate n true) t -> broadcast_full n t = t.
Proof.
  unfold broadcast_full. revert t.
  induction n as [|n IH]; intros [q|t|t0 t1]; simpl; try done.
  intros [H0 H1]. by rewrite IH, IH.
Qed.

Lemma two_sided_tpm_blocks (n idx : nat) (node_tpm : tensor) :
  has_shape (replicate n true) node_tpm -> probabilities node_tpm ->
  ∃ tpm, two_sided_tpm n idx node_tpm = Ok tpm
         ∧ blocks (replicate n true) (is_state_block n idx) tpm.
Proof.
  intros Hshape Hprob. unfold two_sided_tpm, align_axes.
  rewrite (ndim_has_shape _ _ Hshape), length_replicate.
  rewrite Nat.leb_refl, Nat.sub_diag. simpl.
  eexists. split; [reflexivity|].
  rewrite (broadcast_full_id _ _ Hshape).
  apply blocks_graft; [done|].
  apply (tforall_impl (fun q => (0 <= q <= 1)%Q)); [|exact Hprob].
  intros p [Hp0 Hp1]. exists (1 - p)%Q, p.
  split; [done|]. split; [lra|]. split; [done|]. ring.
Qed.

(** ** The array of ones and the shapes of the loop *)

Lemma const_along_np_ones (shape : list bool) (i : nat) :
  shape !! i = Some true -> const_along i (np_ones shape).
Proof.
  revert i. induction shape as [|[] shape IH]; intros [|i]; simpl; try done.
  - intros H. split; by apply IH.
  - apply IH.
Qed.

Lemma np_sum_np_ones_purview (ns l : list Node) :
  (np_sum (np_ones (fmap (fun node => bool_decide (node ∈ ns)) l))
   == inject_Z (Z.of_nat (2 ^ length (filter (fun node => node ∈ ns) l))))%Q.
Proof.
  induction l as [|x l IH]; [done|].
  rewrite fmap_cons, filter_cons. destruct (decide (x ∈ ns)) as [Hx|Hx].
  - rewrite bool_decide_eq_true_2 by done. simpl np_sum. rewrite IH.
    simpl length. rewrite Nat.pow_succ_r', Nat2Z.inj_mul, inject_Z_mult.
    change (inject_Z (Z.of_nat 2)) with 2%Q. ring.
  - rewrite bool_decide_eq_false_2 by done. simpl. exact IH.
Qed.

Lemma purview_count (n : nat) (purview : list Node) :
  NoDup purview -> Forall (fun p => p < n) purview ->
  length (filter (fun node => node ∈ purview) (seq 0 n)) = length purview.
Proof.
  intros Hnd Hall. apply Permutation_length, NoDup_Permutation.
  - apply NoDup_filter, NoDup_seq.
  - done.
  - intros x. rewrite list_elem_of_filter, elem_of_seq.
    rewrite Forall_forall in Hall. split; [by intros [? _]|].
    intros Hx. split; [done|]. specialize (Hall x Hx). lia.
Qed.

Lemma purview_shape_lookup (purview : list Node) (net : Network) (p : Node) :
  p ∈ purview -> p < size net -> purview_shape purview net !! p = Some true.
Proof.
  intros Hp Hlt. unfold purview_shape, network_nodes.
  rewrite list_lookup_fmap, lookup_seq_lt by done. simpl.
  by rewrite bool_decide_eq_true_2.
Qed.

Lemma clear_axes_other (ks : list nat) (shape : list bool) (i : nat) :
  i ∉ ks -> clear_axes ks shape !! i = shape !! i.
Proof.
  unfold clear_axes. revert shape.
  induction ks as [|k ks IH]; intros shape Hi; [done|].
  apply not_elem_of_cons in Hi as [Hne Hi]. simpl.
  rewrite IH by done. by apply list_lookup_insert_ne.
Qed.

Lemma clear_axes_cut (ks : list nat) (shape : list bool) (i : nat) :
  i ∈ ks -> i < length shape -> clear_axes ks shape !! i = Some false.
Proof.
  revert shape. induction ks as [|k ks IH]; intros shape Hi Hlt.
  - by apply elem_of_nil in Hi.
  - destruct (decide (i ∈ ks)) as [Hin|Hout].
    + change (clear_axes (k :: ks) shape)
        with (clear_axes ks (<[k := false]> shape)).
      apply IH; [done|]. by rewrite length_insert.
    + apply elem_of_cons in Hi as [->|Hi]; [|done].
      change (clear_axes (k :: ks) shape)
        with (clear_axes ks (<[k := false]> shape)).
      rewrite clear_axes_other by done.
      rewrite list_lookup_insert.
      destruct (decide (k = k ∧ k < length shape)) as [_|Hn]; [done|].
      exfalso. apply Hn. by split.
Qed.

Lemma clear_axes_all (ks : list nat) (n : nat) :
  (∀ i, i < n -> i ∈ ks) ->
  clear_axes ks (replicate n true) = replicate n false.
Proof.
  intros Hall. apply list_eq. intros i.
  destruct (decide (i < n)) as [Hlt|Hge].
  - rewrite clear_axes_cut; [|by apply Hall|by rewrite length_replicate].
    symmetry. by apply lookup_replicate_2.
  - rewrite !lookup_ge_None_2; [done|..].
    + rewrite length_replicate. lia.
    + rewrite clear_axes_length, length_replicate. lia.
Qed.

Lemma zip_with_orb_false (n : nat) (shape : list bool) :
  length shape = n -> zip_with orb (replicate n false) shape = shape.
Proof.
  revert shape. induction n as [|n IH]; intros [|b shape]; simpl; try done.
  intros [= Hlen]. by rewrite IH.
Qed.

(** One turn of the loop over the purview, on one block. *)
Lemma purview_block_step (shape : list bool) (p : Node) (rest : list Node)
    (x y : tensor) :
  shape !! p = Some true -> p ∉ rest ->
  purview_block shape (p :: rest) x -> is_state_block (length shape) p y ->
  purview_block shape rest (tzip Qmult x y).
Proof.
  intros Hp Hrest (Hshape & Hnn & Hconst & Hsum)
         (off & on & -> & Hoff & Hon & Hone).
  assert (Hlt : p < length shape) by by eapply lookup_lt_Some.
  destruct (tzip_state_block_sum shape x p off on Hshape Hp) as [Hs Hc];
    [apply Hconst; by left|done|].
  split; [|split; [|split]].
  - pose proof (has_shape_tzip Qmult x (state_block (length shape) p off on)
                  shape (<[p := true]> (replicate (length shape) false)))
      as H.
    rewrite zip_with_orb_absorb in H.
    + apply H; [by rewrite length_insert, length_replicate|done|].
      by apply has_shape_state_block.
    + by rewrite length_insert, length_replicate.
    + intros i. destruct (decide (i = p)) as [->|Hne]; [done|].
      rewrite list_lookup_insert_ne by done.
      intros Hi. apply lookup_replicate in Hi as [? _]. done.
  - apply (tforall_tzip (fun q => (0 <= q)%Q) (fun q => (0 <= q)%Q));
      [|done|by apply nonnegative_state_block].
    intros a b Ha Hb. by apply Qmult_le_0_compat.
  - intros i Hi. apply Hc.
    + intros ->. done.
    + apply Hconst. by right.
  - simpl length in Hsum.
    rewrite Nat.pow_succ_r', Nat2Z.inj_mul, inject_Z_mult in Hsum.
    change (inject_Z (Z.of_nat 2)) with 2%Q in Hsum.
    rewrite <- Hs in Hsum. lra.
Qed.

Section EffectRepertoireDistribution.
Variable self : Subsystem.
Hypothesis Hwf : well_formed self.
Hypothesis Hnodes :
  Forall (fun node => node < size (network self)) (nodes self).

(** One turn of the loop over the purview: the table of the purview node,
    averaged over the subsystem nodes outside the mechanism, is multiplied
    into every block. *)
Lemma effect_step_blocks (mechanism purview rest : list Node) (p : Node)
    (first : list bool) (acc : tensor) :
  length first = size (network self) ->
  p < size (network self) -> p ∈ purview -> p ∉ rest ->
  blocks first
    (purview_block (purview_shape purview (network self)) (p :: rest)) acc ->
  ∃ acc',
    EffectRepertoire.effect_step self mechanism acc p = Ok acc'
    ∧ blocks
        (zip_with orb first
           (clear_axes
              (elements (list_to_set (nodes self) ∖ list_to_set mechanism
                         : gset Node))
              (replicate (size (network self)) true)))
        (purview_block (purview_shape purview (network self)) rest) acc'.
Proof.
  intros Hlen Hp Hin Hrest Hacc. unfold EffectRepertoire.effect_step.
  destruct (getindex_ok (node_tpms (network self)) (index p))
    as (node_tpm & -> & Hlook); [by rewrite (wf_tpms _ Hwf)|].
  pose proof (Forall_lookup_1 _ _ _ _ (wf_tpm_shape _ Hwf) Hlook) as Hshape.
  pose proof (Forall_lookup_1 _ _ _ _ (wf_tpm_probabilities _ Hwf) Hlook)
    as Hprob.
  destruct (two_sided_tpm_blocks (size (network self)) (index p) node_tpm
              Hshape Hprob) as (tpm & Htpm & Hblocks).
  simpl. rewrite Htpm. simpl. eexists. split; [reflexivity|].
  unfold np_multiply.
  apply (blocks_tzip Qmult
           (purview_block (purview_shape purview (network self)) (p :: rest))
           (is_state_block (size (network self)) p)).
  - by rewrite clear_axes_length, length_replicate.
  - intros x y Hx Hy. apply (purview_block_step _ p); try done.
    + by apply purview_shape_lookup.
    + by rewrite purview_shape_length.
  - done.
  - apply blocks_marginalize_out_loop; [|
      |exact Hblocks].
    + intros x y. apply is_state_block_average.
    + rewrite length_replicate. apply Forall_forall. intros k Hk.
      apply elem_of_elements, elem_of_difference in Hk as [Hk _].
      apply elem_of_list_to_set in Hk.
      rewrite Forall_forall in Hnodes. by apply Hnodes.
Qed.

(** The loop over the purview. *)
Lemma effect_loop_blocks (mechanism purview rest : list Node)
    (first : list bool) (acc : tensor) :
  NoDup rest ->
  (∀ p, p ∈ rest -> p ∈ purview ∧ p < size (network self)) ->
  length first = size (network self) ->
  blocks first
    (purview_block (purview_shape purview (network self)) rest) acc ->
  ∃ acc',
    rfold (EffectRepertoire.effect_step self mechanism) rest acc = Ok acc'
    ∧ blocks
        (foldl (fun sh _ =>
                  zip_with orb sh
                    (clear_axes
                       (elements (list_to_set (nodes self)
                                  ∖ list_to_set mechanism : gset Node))
                       (replicate (size (network self)) true)))
               first rest)
        (purview_block (purview_shape purview (network self)) []) acc'.
Proof.
  revert first acc.
  induction rest as [|p rest IH]; intros first acc Hnd Hall Hlen Hacc.
  - by exists acc.
  - apply NoDup_cons in Hnd as [Hp Hnd].
    destruct (Hall p) as [Hin Hlt]; [by left|].
    destruct (effect_step_blocks mechanism purview rest p first acc)
      as (acc1 & Hstep & Hacc1); try done.
    simpl. rewrite Hstep. simpl. apply IH; try done.
    + intros q Hq. apply Hall. by right.
    + rewrite length_zip_with, clear_axes_length, length_replicate. lia.
Qed.

(** The conditioning on the current state of the mechanism and of the
    nodes outside the subsystem. *)
Lemma condition_on_current_loop (P : tensor -> Prop) (ks : list Node)
    (first : list bool) (t : tensor) :
  Forall (fun z => z = 0%Z ∨ z = 1%Z) (current_state self) ->
  NoDup ks -> Forall (fun k => first !! k = Some true) ks ->
  length first = size (network self) ->
  blocks first P t ->
  ∃ t', rfold (EffectRepertoire.condition_on_current self) ks t = Ok t'
        ∧ blocks (clear_axes ks first) P t'.
Proof.
  intros Hcur. revert first t.
  induction ks as [|k ks IH]; intros first t Hnd Hks Hlen Ht.
  - by exists t.
  - apply NoDup_cons in Hnd as [Hk Hnd].
    inversion Hks as [|? ? Hfk Hks']; subst.
    assert (Hlt : k < size (network self)).
    { rewrite <- Hlen. by eapply lookup_lt_Some. }
    destruct (getindex_ok (current_state self) (index k))
      as (state & Hstate & Hlook); [by rewrite (wf_current _ Hwf)|].
    pose proof (Forall_lookup_1 _ _ _ _ Hcur Hlook) as Hbin.
    destruct (blocks_take_axis P first k state t Hfk Hbin Ht)
      as (t1 & Htake & Ht1).
    assert (Hstep : EffectRepertoire.condition_on_current self t k = Ok t1).
    { unfold EffectRepertoire.condition_on_current.
      replace (size (network self) <=? index k) with false
        by (symmetry; apply Nat.leb_gt; exact Hlt).
      rewrite Hstate. exact Htake. }
    simpl. rewrite Hstep. simpl.
    apply IH; try done.
    + apply Forall_forall. intros j Hj.
      rewrite list_lookup_insert_ne by (intros ->; done).
      rewrite Forall_forall in Hks'. by apply Hks'.
    + by rewrite length_insert.
Qed.
End EffectRepertoireDistribution.

(** The whole of [effect_repertoire] for a nonempty purview. *)
Lemma effect_repertoire_array (self : Subsystem)
    (mechanism purview : list Node) :
  well_formed self ->
  Forall (fun z => z = 0%Z ∨ z = 1%Z) (current_state self) ->
  Forall (fun node => node < size (network self)) (nodes self) ->
  external_nodes self
  = list_to_set (network_nodes (network self)) ∖ list_to_set (nodes self) ->
  Forall (fun node => node < size (network self)) mechanism ->
  Forall (fun node => node < size (network self)) purview ->
  NoDup purview -> purview ≠ [] ->
  ∃ t,
    EffectRepertoire.effect_repertoire self mechanism purview = Ok (Array t)
    ∧ has_shape (purview_shape purview (network self)) t
    ∧ nonnegative t
    ∧ (np_sum t == 1)%Q.
Proof.
  intros Hwf Hcur Hnodes Hext Hmech Hpur Hnd Hne.
  unfold EffectRepertoire.effect_repertoire.
  destruct purview as [|p0 rest0] eqn:Epur; [done|].
  rewrite <- Epur in *. replace (length purview =? 0) with false
    by (by rewrite Epur).
  set (n := size (network self)).
  set (psh := purview_shape purview (network self)).
  set (G := clear_axes
              (elements (list_to_set (nodes self) ∖ list_to_set mechanism
                         : gset Node))
              (replicate n true)).
  assert (HG : length G = n).
  { unfold G. by rewrite clear_axes_length, length_replicate. }
  (* the loop over the purview *)
  destruct (effect_loop_blocks self Hwf Hnodes mechanism purview purview
              (replicate n false) (np_ones (replicate n false ++ psh)))
    as (acc1 & -> & Hacc1).
  - done.
  - intros p Hp. split; [done|]. rewrite Forall_forall in Hpur.
    by apply Hpur.
  - by rewrite length_replicate.
  - apply (blocks_impl _ (eq (np_ones psh))); [|apply blocks_np_ones].
    intros b <-. split; [apply has_shape_np_ones|].
    split; [apply nonnegative_np_ones|]. split.
    + intros i Hi. apply const_along_np_ones.
      apply purview_shape_lookup; [done|].
      rewrite Forall_forall in Hpur. by apply Hpur.
    + unfold psh, purview_shape, network_nodes.
      rewrite np_sum_np_ones_purview. by rewrite purview_count.
  - fold n in Hacc1. fold G in Hacc1.
    assert (Hfirst : foldl (fun sh _ => zip_with orb sh G)
                           (replicate n false) purview = G).
    { rewrite Epur. simpl. rewrite zip_with_orb_false by done.
      clear. induction rest0 as [|q rest IH]; [done|].
      simpl. by rewrite zip_with_orb_diag. }
    rewrite Hfirst in Hacc1. simpl.
    (* the conditioning *)
    destruct (condition_on_current_loop self Hwf
                (purview_block psh [])
                (elements (list_to_set mechanism ∪ external_nodes self))
                G acc1 Hcur) as (acc2 & -> & Hacc2).
    + apply NoDup_elements.
    + apply Forall_forall. intros k Hk.
      apply elem_of_elements in Hk.
      assert (Hlt : k < n).
      { apply elem_of_union in Hk as [Hk|Hk].
        - apply elem_of_list_to_set in Hk.
          rewrite Forall_forall in Hmech. by apply Hmech.
        - rewrite Hext in Hk. apply elem_of_difference in Hk as [Hk _].
          apply elem_of_list_to_set in Hk. unfold network_nodes in Hk.
          apply elem_of_seq in Hk. unfold n. lia. }
      unfold G. rewrite clear_axes_other.
      * by apply lookup_replicate_2.
      * rewrite elem_of_elements, elem_of_difference, !elem_of_list_to_set.
        intros [Hin Hout]. apply elem_of_union in Hk as [Hk|Hk].
        -- by apply elem_of_list_to_set in Hk.
        -- rewrite Hext in Hk. apply elem_of_difference in Hk as [_ Hk].
           by rewrite elem_of_list_to_set in Hk.
    + done.
    + done.
    + simpl.
      match type of Hacc2 with
      | blocks ?cleared _ _ =>
          assert (Hcleared : cleared = replicate n false)
      end.
      { unfold G, clear_axes. rewrite <- foldl_app.
        apply clear_axes_all. intros i Hi.
        rewrite elem_of_app, !elem_of_elements, elem_of_difference,
          elem_of_union, Hext, elem_of_difference, !elem_of_list_to_set.
        unfold network_nodes. rewrite elem_of_seq.
        destruct (decide (i ∈ mechanism)); [by right; left|].
        destruct (decide (i ∈ nodes self)); [by left|].
        right. right. split; [|done]. unfold n in Hi. lia. }
      rewrite Hcleared in Hacc2.
      destruct (blocks_drop_axes _ _ _ Hacc2)
        as (t & -> & Hshape & Hnn & _ & Hsum).
      simpl. exists t. repeat split; try done.
Qed.

(** X15.  For a subsystem of a network of binary nodes whose nodes are
    network nodes and whose external nodes are the other network nodes, a
    mechanism of network nodes and a purview of one or more distinct
    network nodes, the effect repertoire is returned without error as an
    array with the shape of the purview, with no negative cell, whose
    cells sum to one. *)
Theorem effect_repertoire_distribution (self : Subsystem)
    (mechanism purview : list Node) :
  well_formed self ->
  Forall (fun z => z = 0%Z ∨ z = 1%Z) (current_state self) ->
  Forall (fun node => node < size (network self)) (nodes self) ->
  external_nodes self
  = list_to_set (network_nodes (network self)) ∖ list_to_set (nodes self) ->
  Forall (fun node => node < size (network self)) mechanism ->
  Forall (fun node => node < size (network self)) purview ->
  NoDup purview -> purview ≠ [] ->
  ∃ t,
    EffectRepertoire.effect_repertoire self mechanism purview = Ok (Array t)
    ∧ has_shape (purview_shape purview (network self)) t
    ∧ nonnegative t
    ∧ (np_sum t == 1)%Q.
Proof. apply effect_repertoire_array. Qed.

Lemma effect_repertoire_distribution_witness :
  ∃ t,
    EffectRepertoire.effect_repertoire stuck_sub [1] [0] = Ok (Array t)
    ∧ has_shape [true; false] t
    ∧ (np_sum t == 1)%Q.
Proof.
  destruct (effect_repertoire_distribution stuck_sub [1] [0])
    as (t & Ht & Hshape & _ & Hsum).
  - exact well_formed_stuck_sub.
  - repeat (apply Forall_cons; split); try apply Forall_nil; tauto.
  - repeat (apply Forall_cons; split); try apply Forall_nil; simpl; lia.
  - reflexivity.
  - repeat (apply Forall_cons; split); try apply Forall_nil; simpl; lia.
  - repeat (apply Forall_cons; split); try apply Forall_nil; simpl; lia.
  - apply NoDup_singleton.
  - discriminate.
  - exists t. split; [exact Ht|]. split; [exact Hshape|exact Hsum].
Defined.

(** ** Repertoires over the whole network *)

(** The product of two arrays over different nodes. *)
Lemma np_sum_tzip_disjoint (sa sb : list bool) (a b : tensor) :
  length sa = length sb -> has_shape sa a -> has_shape sb b ->
  (∀ i, sa !! i = Some true -> sb !! i = Some true -> False) ->
  (np_sum (tzip Qmult a b) == np_sum a * np_sum b)%Q.
Proof.
  revert sa sb b. induction a as [x|a IH|a0 IH0 a1 IH1];
    intros [|[] sa] [|[] sb] [y|b|b0 b1]; simpl; try done;
    intros [= Hlen].
  - intros Ha [Hb0 Hb1] Hdis.
    rewrite (IH sa sb b0), (IH sa sb b1); try done;
      try (intros i; apply (Hdis (S i))).
    ring.
  - intros Ha Hb Hdis. apply (IH sa sb); try done.
    intros i; apply (Hdis (S i)).
  - intros _ _ Hdis. destruct (Hdis 0); done.
  - intros [Ha0 Ha1] Hb Hdis.
    rewrite (IH0 sa sb b), (IH1 sa sb b); try done;
      try (intros i; apply (Hdis (S i))).
    ring.
Qed.

Lemma np_sum_tmap_scale (f : Q -> Q) (c : Q) (t : tensor) :
  (∀ q, f q == c * q)%Q -> (np_sum (tmap f t) == c * np_sum t)%Q.
Proof.
  intros Hf. induction t as [q|t IH|t0 IH0 t1 IH1]; simpl.
  - apply Hf.
  - exact IH.
  - rewrite IH0, IH1. ring.
Qed.

Lemma np_sum_np_ones_positive (shape : list bool) :
  (0 < np_sum (np_ones shape))%Q.
Proof.
  induction shape as [|[] shape IH]; simpl; lra.
Qed.

(** Modelled helper: the maximum-entropy distribution is a distribution
    over the purview. *)
Lemma max_entropy_distribution_ok (ns : list Node) (net : Network) :
  has_shape (purview_shape ns net) (max_entropy_distribution ns net)
  ∧ nonnegative (max_entropy_distribution ns net)
  ∧ (np_sum (max_entropy_distribution ns net) == 1)%Q.
Proof.
  unfold max_entropy_distribution. simpl.
  pose proof (np_sum_np_ones_positive (purview_shape ns net)) as Hpos.
  split; [apply has_shape_tmap, has_shape_np_ones|]. split.
  - apply (tforall_tmap (fun q => (0 <= q)%Q)); [|apply nonnegative_np_ones].
    intros q Hq. apply Qle_shift_div_l; lra.
  - rewrite np_sum_tmap_div. field. lra.
Qed.

(** The purview and the nodes outside it share no axis, and have all the
    axes between them. *)
Lemma purview_shapes_disjoint (purview : list Node) (net : Network) (i : nat) :
  purview_shape purview net !! i = Some true ->
  purview_shape
    (elements (list_to_set (network_nodes net) ∖ list_to_set purview
               : gset Node)) net !! i = Some true ->
  False.
Proof.
  unfold purview_shape, network_nodes. rewrite !list_lookup_fmap.
  intros H1 H2.
  apply fmap_Some in H1 as (x & Hx & H1).
  apply fmap_Some in H2 as (x' & Hx' & H2).
  rewrite Hx in Hx'. injection Hx' as <-.
  symmetry in H1, H2.
  apply bool_decide_eq_true_1 in H1. apply bool_decide_eq_true_1 in H2.
  apply elem_of_elements, elem_of_difference in H2 as [_ H2].
  apply H2. by apply elem_of_list_to_set.
Qed.

Lemma purview_shapes_cover (purview : list Node) (net : Network) :
  zip_with orb (purview_shape purview net)
    (purview_shape
       (elements (list_to_set (network_nodes net) ∖ list_to_set purview
                  : gset Node)) net)
  = replicate (size net) true.
Proof.
  unfold purview_shape.
  assert (H : ∀ l, (∀ x, x ∈ l -> x ∈ network_nodes net) ->
            zip_with orb
              (fmap (fun node => bool_decide (node ∈ purview)) l)
              (fmap (fun node =>
                       bool_decide
                         (node ∈ elements
                                   (list_to_set (network_nodes net)
                                    ∖ list_to_set purview : gset Node))) l)
            = replicate (length l) true).
  { induction l as [|x l IH]; intros Hl; [done|].
    rewrite !fmap_cons. cbn [zip_with length replicate].
    f_equal; [|apply IH; intros y Hy; apply Hl; by right].
    destruct (decide (x ∈ purview)) as [Hx|Hx].
    - by rewrite bool_decide_eq_true_2.
    - rewrite (bool_decide_eq_true_2 (x ∈ elements _)); [by rewrite orb_true_r|].
      apply elem_of_elements, elem_of_difference. split.
      + apply elem_of_list_to_set, Hl. by left.
      + by rewrite elem_of_list_to_set. }
  rewrite H by done. unfold network_nodes. by rewrite length_seq.
Qed.

Lemma purview_shape_nil (net : Network) :
  purview_shape [] net = replicate (size net) false.
Proof.
  unfold purview_shape, network_nodes.
  generalize 0. induction (size net) as [|n IH]; intros start; [done|].
  simpl. by rewrite IH.
Qed.

Lemma zip_with_orb_false_r (n : nat) (shape : list bool) :
  length shape = n -> zip_with orb shape (replicate n false) = shape.
Proof.
  revert shape. induction n as [|n IH]; intros [|b shape]; simpl; try done.
  intros [= Hlen]. by rewrite IH, orb_false_r.
Qed.

(** The product of a repertoire over the purview, which is a distribution
    or zero everywhere, with a distribution over the other nodes. *)
Lemma np_multiply_distributions (purview : list Node) (net : Network)
    (a b : tensor) :
  has_shape (purview_shape purview net) a ->
  has_shape
    (purview_shape
       (elements (list_to_set (network_nodes net) ∖ list_to_set purview
                  : gset Node)) net) b ->
  nonnegative a -> nonnegative b ->
  (np_sum a == 1)%Q ∨ all_zero a -> (np_sum b == 1)%Q ->
  has_shape (replicate (size net) true) (np_multiply a b)
  ∧ nonnegative (np_multiply a b)
  ∧ ((np_sum (np_multiply a b) == 1)%Q ∨ all_zero (np_multiply a b)).
Proof.
  intros Ha Hb Hna Hnb Hsa Hsb. unfold np_multiply.
  assert (Hlen : length (purview_shape purview net)
                 = length (purview_shape
                             (elements (list_to_set (network_nodes net)
                                        ∖ list_to_set purview : gset Node))
                             net)).
  { unfold purview_shape. by rewrite !length_fmap. }
  split; [|split].
  - rewrite <- (purview_shapes_cover purview net).
    by apply has_shape_tzip.
  - apply (tforall_tzip (fun q => (0 <= q)%Q) (fun q => (0 <= q)%Q));
      [|done|done].
    intros x y Hx Hy. by apply Qmult_le_0_compat.
  - destruct Hsa as [Hsa|Hzero].
    + left. rewrite (np_sum_tzip_disjoint _ _ _ _ Hlen Ha Hb).
      * rewrite Hsa, Hsb. ring.
      * apply purview_shapes_disjoint.
    + right.
      apply (tforall_tzip (fun q => (q == 0)%Q) (fun q => (0 <= q)%Q));
        [|done|done].
      intros x y Hx _. rewrite Hx. ring.
Qed.

Lemma has_shape_others_all (net : Network) :
  purview_shape
    (elements (list_to_set (network_nodes net) ∖ list_to_set []
               : gset Node)) net
  = replicate (size net) true.
Proof.
  pose proof (purview_shapes_cover [] net) as Hcover.
  rewrite purview_shape_nil, zip_with_orb_false in Hcover; [done|].
  unfold purview_shape, network_nodes. by rewrite length_fmap, length_seq.
Qed.

(** X16.  The full cause repertoire of a well-formed subsystem, for a
    mechanism of network nodes and any purview, is returned without error
    as an array over all the nodes of the network, with no negative cell,
    whose cells sum to one unless they are all zero. *)
Theorem full_cause_repertoire_distribution (self : Subsystem)
    (mechanism purview : list Node) :
  well_formed self ->
  Forall (fun node => node < size (network self)) mechanism ->
  ∃ t,
    full_cause_repertoire self mechanism purview = Ok (Array t)
    ∧ has_shape (replicate (size (network self)) true) t
    ∧ nonnegative t
    ∧ ((np_sum t == 1)%Q ∨ all_zero t).
Proof.
  intros Hwf Hmech. unfold full_cause_repertoire.
  unfold RepertoireEngine.unconstrained_cause_repertoire.
  change (RepertoireEngine.cause_repertoire self []
            (elements (list_to_set (network_nodes (network self))
                       ∖ list_to_set purview : gset Node)))
    with (Ok (Array (max_entropy_distribution
                       (elements (list_to_set (network_nodes (network self))
                                  ∖ list_to_set purview : gset Node))
                       (network self))) : result repertoire).
  cbn [mbind result_bind rbind].
  destruct (max_entropy_distribution_ok
              (elements (list_to_set (network_nodes (network self))
                         ∖ list_to_set purview : gset Node))
              (network self)) as (Hshape' & Hnn' & Hsum').
  destruct mechanism as [|m mechanism].
  - change (RepertoireEngine.cause_repertoire self [] purview)
      with (Ok (Array (max_entropy_distribution purview (network self)))
            : result repertoire).
    cbn [mbind result_bind rbind repertoire_mul].
    destruct (max_entropy_distribution_ok purview (network self))
      as (Hshape & Hnn & Hsum).
    eexists. split; [reflexivity|].
    apply (np_multiply_distributions purview); try done. by left.
  - destruct purview as [|p purview].
    + change (RepertoireEngine.cause_repertoire self (m :: mechanism) [])
        with (Ok (Scalar 1) : result repertoire).
      cbn [mbind result_bind rbind repertoire_mul].
      eexists. split; [reflexivity|].
      rewrite has_shape_others_all in Hshape'.
      split; [by apply has_shape_tmap|]. split.
      * apply (tforall_tmap (fun q => (0 <= q)%Q)); [|done].
        intros q Hq. change (inject_Z 1) with 1%Q. lra.
      * left. rewrite (np_sum_tmap_scale _ 1); [lra|].
        intros q. reflexivity.
    + destruct (cause_repertoire_array self (m :: mechanism) (p :: purview))
        as (t & -> & Hshape & Hnn & Hsum); try done.
      cbn [mbind result_bind rbind repertoire_mul].
      eexists. split; [reflexivity|].
      by apply (np_multiply_distributions (p :: purview)).
Qed.

Lemma full_cause_repertoire_distribution_witness :
  ∃ t,
    full_cause_repertoire stuck_sub [1] [0] = Ok (Array t)
    ∧ has_shape [true; true] t
    ∧ ((np_sum t == 1)%Q ∨ all_zero t).
Proof.
  destruct (full_cause_repertoire_distribution stuck_sub [1] [0])
    as (t & Ht & Hshape & _ & Hsum).
  - exact well_formed_stuck_sub.
  - repeat (apply Forall_cons; split); try apply Forall_nil; simpl; lia.
  - exists t. split; [exact Ht|]. split; [exact Hshape|exact Hsum].
Defined.

(** X17.  The full effect repertoire, for a subsystem of a network of one
    or more binary nodes whose nodes are network nodes and whose external
    nodes are the other network nodes, a mechanism of network nodes and a
    purview of distinct network nodes, is returned without error as an
    array over all the nodes of the network, with no negative cell, whose
    cells sum to one. *)
Theorem full_effect_repertoire_distribution (self : Subsystem)
    (mechanism purview : list Node) :
  well_formed self ->
  Forall (fun z => z = 0%Z ∨ z = 1%Z) (current_state self) ->
  Forall (fun node => node < size (network self)) (nodes self) ->
  external_nodes self
  = list_to_set (network_nodes (network self)) ∖ list_to_set (nodes self) ->
  Forall (fun node => node < size (network self)) mechanism ->
  Forall (fun node => node < size (network self)) purview ->
  NoDup purview -> 0 < size (network self) ->
  ∃ t,
    full_effect_repertoire self mechanism purview = Ok (Array t)
    ∧ has_shape (replicate (size (network self)) true) t
    ∧ nonnegative t
    ∧ (np_sum t == 1)%Q.
Proof.
  intros Hwf Hcur Hnodes Hext Hmech Hpur Hnd Hpos.
  unfold full_effect_repertoire.
  unfold EffectRepertoire.unconstrained_effect_repertoire.
  pose proof (purview_shapes_cover purview (network self)) as Hcover.
  remember (elements (list_to_set (network_nodes (network self))
                      ∖ list_to_set purview : gset Node)) as others
    eqn:Hothers.
  assert (Hin : Forall (fun node => node < size (network self)) others).
  { apply Forall_forall. intros k Hk. rewrite Hothers in Hk.
    apply elem_of_elements, elem_of_difference in Hk as [Hk _].
    apply elem_of_list_to_set in Hk. unfold network_nodes in Hk.
    apply elem_of_seq in Hk. lia. }
  assert (Hnd' : NoDup others) by (rewrite Hothers; apply NoDup_elements).
  destruct purview as [|p purview].
  - (* nothing in the purview: the other nodes are all the nodes *)
    change (EffectRepertoire.effect_repertoire self mechanism [])
      with (Ok (Scalar 1) : result repertoire).
    assert (Hne : others ≠ []).
    { intros Hnil. assert (H0 : 0 ∈ others); [|rewrite Hnil in H0;
                                                 by apply elem_of_nil in H0].
      rewrite Hothers. apply elem_of_elements, elem_of_difference. split.
      - apply elem_of_list_to_set. unfold network_nodes.
        apply elem_of_seq. lia.
      - rewrite elem_of_list_to_set. apply not_elem_of_nil. }
    destruct (effect_repertoire_array self [] others)
      as (t & -> & Hshape & Hnn & Hsum); try done.
    cbn [mbind result_bind rbind repertoire_mul].
    eexists. split; [reflexivity|].
    rewrite purview_shape_nil, zip_with_orb_false in Hcover
      by (unfold purview_shape, network_nodes;
          by rewrite length_fmap, length_seq).
    rewrite Hcover in Hshape.
    split; [by apply has_shape_tmap|]. split.
    + apply (tforall_tmap (fun q => (0 <= q)%Q)); [|done].
      intros q Hq. change (inject_Z 1) with 1%Q. lra.
    + rewrite (np_sum_tmap_scale _ 1); [lra|]. intros q. reflexivity.
  - destruct (effect_repertoire_array self mechanism (p :: purview))
      as (t & Ht & Hshape & Hnn & Hsum); try done.
    destruct others as [|o others].
    + (* the purview is all the nodes *)
      change (EffectRepertoire.effect_repertoire self [] [])
        with (Ok (Scalar 1) : result repertoire).
      cbn [mbind result_bind rbind]. rewrite Ht.
      cbn [mbind result_bind rbind repertoire_mul].
      eexists. split; [reflexivity|].
      rewrite purview_shape_nil, zip_with_orb_false_r in Hcover
        by (unfold purview_shape, network_nodes;
            by rewrite length_fmap, length_seq).
      rewrite Hcover in Hshape.
      split; [by apply has_shape_tmap|]. split.
      * apply (tforall_tmap (fun q => (0 <= q)%Q)); [|done].
        intros q Hq. change (inject_Z 1) with 1%Q. lra.
      * rewrite (np_sum_tmap_scale _ 1); [lra|]. intros q. ring.
    + destruct (effect_repertoire_array self [] (o :: others))
        as (u & -> & Hshape' & Hnn' & Hsum'); try done.
      cbn [mbind result_bind rbind]. rewrite Ht.
      cbn [mbind result_bind rbind repertoire_mul].
      eexists. split; [reflexivity|].
      rewrite Hothers in Hshape'.
      destruct (np_multiply_distributions (p :: purview) (network self) t u)
        as (H1 & H2 & [H3|H3]); try done; [by left|].
      (* all zero is excluded by the sum of the factors *)
      split; [done|]. split; [done|].
      assert (Hlen : length (purview_shape (p :: purview) (network self))
                     = length (purview_shape
                                 (elements
                                    (list_to_set
                                       (network_nodes (network self))
                                     ∖ list_to_set (p :: purview)
                                     : gset Node))
                                 (network self))).
      { unfold purview_shape. by rewrite !length_fmap. }
      unfold np_multiply.
      rewrite (np_sum_tzip_disjoint _ _ _ _ Hlen Hshape Hshape').
      * rewrite Hsum, Hsum'. ring.
      * apply purview_shapes_disjoint.
Qed.

Lemma full_effect_repertoire_distribution_witness :
  ∃ t,
    full_effect_repertoire stuck_sub [1] [0] = Ok (Array t)
    ∧ has_shape [true; true] t
    ∧ (np_sum t == 1)%Q.
Proof.
  destruct (full_effect_repertoire_distribution stuck_sub [1] [0])
    as (t & Ht & Hshape & _ & Hsum).
  - exact well_formed_stuck_sub.
  - repeat (apply Forall_cons; split); try apply Forall_nil; tauto.
  - repeat (apply Forall_cons; split); try apply Forall_nil; simpl; lia.
  - reflexivity.
  - repeat (apply Forall_cons; split); try apply Forall_nil; simpl; lia.
  - repeat (apply Forall_cons; split); try apply Forall_nil; simpl; lia.
  - apply NoDup_singleton.
  - simpl. lia.
  - exists t. split; [exact Ht|]. split; [exact Hshape|exact Hsum].
Defined.

(** ** Node: the off and on tables *)

Lemma has_shape_tzip_same (f : Q -> Q -> Q) (shape : list bool)
    (a b : tensor) :
  has_shape shape a -> has_shape shape b -> has_shape shape (tzip f a b).
Proof.
  intros Ha Hb. rewrite <- (zip_with_orb_diag shape).
  by apply has_shape_tzip.
Qed.

Lemma complementary_initial (t : tensor) :
  tforall (fun q => (q == 1)%Q) (tzip Qplus (tmap (fun q => (1 - q)%Q) t) t).
Proof.
  induction t as [q|t IH|t0 IH0 t1 IH1]; simpl; [ring|done|by split].
Qed.

Lemma complementary_average (c : Q) (shape : list bool)
    (a0 a1 b0 b1 : tensor) :
  has_shape shape a0 -> has_shape shape a1 ->
  has_shape shape b0 -> has_shape shape b1 ->
  tforall (fun q => (q == c)%Q) (tzip Qplus a0 b0) ->
  tforall (fun q => (q == c)%Q) (tzip Qplus a1 b1) ->
  tforall (fun q => (q == c)%Q)
    (tzip Qplus (tzip (fun x y => ((x + y) / 2)%Q) a0 a1)
                (tzip (fun x y => ((x + y) / 2)%Q) b0 b1)).
Proof.
  revert a0 a1 b0 b1. induction shape as [|[] shape IH];
    intros [x0|a0|a00 a01] [x1|a1|a10 a11] [y0|b0|b00 b01] [y1|b1|b10 b11];
    simpl; try done.
  - intros _ _ _ _ H0 H1.
    assert (H : ((x0 + x1) / 2 + (y0 + y1) / 2
                 == ((x0 + y0) + (x1 + y1)) / 2)%Q) by field.
    rewrite H, H0, H1. field.
  - intros [? ?] [? ?] [? ?] [? ?] [? ?] [? ?]. split; by apply IH.
  - apply IH.
Qed.

Lemma complementary_half (c : Q) (shape : list bool) (a b : tensor) :
  has_shape shape a -> has_shape shape b ->
  tforall (fun q => (q == c)%Q) (tzip Qplus a b) ->
  tforall (fun q => (q == c / 2)%Q)
    (tzip Qplus (tmap (fun q => (q / 2)%Q) a) (tmap (fun q => (q / 2)%Q) b)).
Proof.
  revert a b. induction shape as [|[] shape IH];
    intros [x|a|a0 a1] [y|b|b0 b1]; simpl; try done.
  - intros _ _ H.
    assert (H' : (x / 2 + y / 2 == (x + y) / 2)%Q) by field.
    rewrite H', H. reflexivity.
  - intros [? ?] [? ?] [? ?]. split; by apply IH.
  - apply IH.
Qed.

(** Halving the sum over an axis of length 2 of both tables. *)
Lemma sum_keepdims_half_pair (c : Q) (shape : list bool) (i : nat)
    (a b : tensor) :
  has_shape shape a -> has_shape shape b -> shape !! i = Some true ->
  tforall (fun q => (q == c)%Q) (tzip Qplus a b) ->
  ∃ a' b',
    sum_keepdims_half i a = Ok a' ∧ sum_keepdims_half i b = Ok b'
    ∧ has_shape (<[i := false]> shape) a'
    ∧ has_shape (<[i := false]> shape) b'
    ∧ tforall (fun q => (q == c)%Q) (tzip Qplus a' b').
Proof.
  revert i a b. induction shape as [|[] shape IH];
    intros [|i] [x|a|a0 a1] [y|b|b0 b1]; simpl; try done.
  - intros [Ha0 Ha1] [Hb0 Hb1] _ [H0 H1].
    eexists _, _. split; [reflexivity|]. split; [reflexivity|].
    split; [by apply has_shape_tzip_same|].
    split; [by apply has_shape_tzip_same|].
    by apply (complementary_average c shape).
  - intros [Ha0 Ha1] [Hb0 Hb1] Hi [H0 H1].
    destruct (IH i a0 b0 Ha0 Hb0 Hi H0) as (a0' & b0' & -> & -> & ? & ? & ?).
    destruct (IH i a1 b1 Ha1 Hb1 Hi H1) as (a1' & b1' & -> & -> & ? & ? & ?).
    by exists (Two a0' a1'), (Two b0' b1').
  - intros Ha Hb Hi H.
    destruct (IH i a b Ha Hb Hi H) as (a' & b' & -> & -> & ? & ? & ?).
    by exists (One a'), (One b').
Qed.

(** Halving the sum over an axis of length 1 of both tables. *)
Lemma sum_keepdims_half_single (c : Q) (shape : list bool) (i : nat)
    (a b : tensor) :
  has_shape shape a -> has_shape shape b -> shape !! i = Some false ->
  tforall (fun q => (q == c)%Q) (tzip Qplus a b) ->
  ∃ a' b',
    sum_keepdims_half i a = Ok a' ∧ sum_keepdims_half i b = Ok b'
    ∧ has_shape shape a' ∧ has_shape shape b'
    ∧ tforall (fun q => (q == c / 2)%Q) (tzip Qplus a' b').
Proof.
  revert i a b. induction shape as [|[] shape IH];
    intros [|i] [x|a|a0 a1] [y|b|b0 b1]; simpl; try done.
  - intros [Ha0 Ha1] [Hb0 Hb1] Hi [H0 H1].
    destruct (IH i a0 b0 Ha0 Hb0 Hi H0) as (a0' & b0' & -> & -> & ? & ? & ?).
    destruct (IH i a1 b1 Ha1 Hb1 Hi H1) as (a1' & b1' & -> & -> & ? & ? & ?).
    by exists (Two a0' a1'), (Two b0' b1').
  - intros Ha Hb _ H.
    eexists _, _. split; [reflexivity|]. split; [reflexivity|].
    split; [by apply has_shape_tmap|]. split; [by apply has_shape_tmap|].
    by apply (complementary_half c shape).
  - intros Ha Hb Hi H.
    destruct (IH i a b Ha Hb Hi H) as (a' & b' & -> & -> & ? & ? & ?).
    by exists (One a'), (One b').
Qed.

Lemma rfold_cons {A B : Type} (f : B -> A -> result B) (a : A) (l : list A)
    (b : B) :
  rfold f (a :: l) b = (b' ← f b a; rfold f l b').
Proof. reflexivity. Qed.

(** The loop of [Node.__init__] over distinct indices whose axes are of
    length 2. *)
Lemma Node_tpm_loop (input_indices indices : list nat) (shape : list bool)
    (off on : tensor) :
  NoDup indices ->
  Forall (fun i => i ∈ input_indices ∨ shape !! i = Some true) indices ->
  has_shape shape off -> has_shape shape on ->
  tforall (fun q => (q == 1)%Q) (tzip Qplus off on) ->
  ∃ off' on',
    rfold (marginalize_non_input input_indices) indices (off, on)
    = Ok (off', on')
    ∧ has_shape
        (clear_axes (filter (fun i => i ∉ input_indices) indices) shape) off'
    ∧ has_shape
        (clear_axes (filter (fun i => i ∉ input_indices) indices) shape) on'
    ∧ tforall (fun q => (q == 1)%Q) (tzip Qplus off' on').
Proof.
  revert shape off on.
  induction indices as [|i indices IH];
    intros shape off on Hnd Hall Hoff Hon Hsum.
  - by exists off, on.
  - apply NoDup_cons in Hnd as [Hi Hnd].
    inversion Hall as [|? ? Hhead Hall']; subst.
    rewrite rfold_cons.
    destruct (decide (i ∈ input_indices)) as [Hin|Hout].
    + assert (Hstep : marginalize_non_input input_indices (off, on) i
                      = Ok (off, on)).
      { unfold marginalize_non_input. by rewrite bool_decide_eq_true_2. }
      rewrite Hstep. cbn [mbind result_bind rbind].
      rewrite filter_cons_False by (intros H; by apply H).
      by apply IH.
    + destruct Hhead as [?|Hshape]; [done|].
      destruct (sum_keepdims_half_pair 1 shape i off on)
        as (off1 & on1 & Hoff1 & Hon1 & Hsoff & Hson & Hsum1); try done.
      assert (Hstep : marginalize_non_input input_indices (off, on) i
                      = Ok (off1, on1)).
      { unfold marginalize_non_input.
        rewrite bool_decide_eq_false_2 by done.
        cbn [fst snd]. by rewrite Hon1, Hoff1. }
      rewrite Hstep. cbn [mbind result_bind rbind].
      rewrite filter_cons_True by done.
      apply (IH (<[i := false]> shape)); try done.
      apply Forall_forall. intros j Hj.
      rewrite Forall_forall in Hall'. destruct (Hall' j Hj) as [?|Hjs].
      * by left.
      * right. rewrite list_lookup_insert_ne; [done|]. intros ->. done.
Qed.

Lemma const_along_tzip_r (f : Q -> Q -> Q) (sa sb : list bool) (i : nat)
    (a b : tensor) :
  length sa = length sb -> has_shape sa a -> has_shape sb b ->
  sa !! i = Some false -> const_along i b -> const_along i (tzip f a b).
Proof.
  revert sa sb i b. induction a as [x|a IH|a0 IH0 a1 IH1];
    intros [|[] sa] [|[] sb] [|i] [y|b|b0 b1]; simpl; try done;
    intros [= Hlen].
  - by intros _ _ _ ->.
  - intros Ha [Hb0 Hb1] Hi [Hc0 Hc1].
    split; [by apply (IH sa sb)|by apply (IH sa sb)].
  - intros Ha Hb Hi Hc. by apply (IH sa sb).
  - intros [Ha0 Ha1] [Hb0 Hb1] Hi [Hc0 Hc1].
    split; [by apply (IH0 sa sb)|by apply (IH1 sa sb)].
  - intros [Ha0 Ha1] Hb Hi Hc.
    split; [by apply (IH0 sa sb)|by apply (IH1 sa sb)].
Qed.

(** X18.  [Node.__init__] on a table with the given shape, for distinct
    indices whose axes, where they are not inputs of the node, are of
    length 2: the node's table is built without error, its off and on
    halves have the shape of the table with the axes of the other nodes
    cut to length 1, and every cell of the off half and the cell of the on
    half at the same place sum to one. *)
Theorem Node_tpm_complementary (shape : list bool) (tpm_on : tensor)
    (input_indices indices : list nat) :
  has_shape shape tpm_on -> NoDup indices ->
  Forall (fun i => i ∈ input_indices ∨ shape !! i = Some true) indices ->
  ∃ off on,
    Node_tpm tpm_on input_indices indices = Ok (Two off on)
    ∧ has_shape
        (clear_axes (filter (fun i => i ∉ input_indices) indices) shape) off
    ∧ has_shape
        (clear_axes (filter (fun i => i ∉ input_indices) indices) shape) on
    ∧ tforall (fun q => (q == 1)%Q) (tzip Qplus off on).
Proof.
  intros Hshape Hnd Hall. unfold Node_tpm.
  destruct (Node_tpm_loop input_indices indices shape
              (tmap (fun q => (1 - q)%Q) tpm_on) tpm_on)
    as (off & on & -> & Hoff & Hon & Hsum); try done.
  - by apply has_shape_tmap.
  - apply complementary_initial.
  - by exists off, on.
Qed.

Lemma Node_tpm_complementary_witness :
  ∃ off on,
    Node_tpm copy_tpm_of_1 [1] [0; 1] = Ok (Two off on)
    ∧ has_shape [false; true] on
    ∧ tforall (fun q => (q == 1)%Q) (tzip Qplus off on).
Proof.
  destruct (Node_tpm_complementary [true; true] copy_tpm_of_1 [1] [0; 1])
    as (off & on & Hrun & _ & Hon & Hsum).
  - vm_compute. tauto.
  - apply NoDup_cons. split; [|apply NoDup_singleton].
    intros H. apply list_elem_of_singleton in H. discriminate.
  - apply Forall_cons. split; [by right|].
    apply Forall_cons. split; [left; by left|by apply Forall_nil].
  - exists off, on. split; [exact Hrun|]. split; [exact Hon|exact Hsum].
Defined.

(** X19.  [Node.__init__] with an index that is not an input of the node
    given twice: the second sum runs over an axis of length 1 and only
    halves the tables, so that the off and the on half of the node's table
    sum to one half at every place. *)
Theorem Node_tpm_repeated_index (shape : list bool) (tpm_on : tensor)
    (input_indices : list nat) (i : nat) :
  has_shape shape tpm_on -> shape !! i = Some true -> i ∉ input_indices ->
  ∃ off on,
    Node_tpm tpm_on input_indices [i; i] = Ok (Two off on)
    ∧ tforall (fun q => (q == 1 / 2)%Q) (tzip Qplus off on).
Proof.
  intros Hshape Hi Hout. unfold Node_tpm.
  destruct (sum_keepdims_half_pair 1 shape i
              (tmap (fun q => (1 - q)%Q) tpm_on) tpm_on)
    as (off1 & on1 & Hoff1 & Hon1 & Hsoff & Hson & Hsum1); try done.
  { by apply has_shape_tmap. }
  { apply complementary_initial. }
  destruct (sum_keepdims_half_single 1 (<[i := false]> shape) i off1 on1)
    as (off2 & on2 & Hoff2 & Hon2 & _ & _ & Hsum2); try done.
  { rewrite list_lookup_insert.
    destruct (decide (i = i ∧ i < length shape)) as [_|Hn]; [done|].
    exfalso. apply Hn. split; [done|]. by eapply lookup_lt_Some. }
  assert (Hstep : ∀ a b a' b',
            sum_keepdims_half i a = Ok a' -> sum_keepdims_half i b = Ok b' ->
            marginalize_non_input input_indices (a, b) i = Ok (a', b')).
  { intros a b a' b' Ha Hb. unfold marginalize_non_input.
    rewrite bool_decide_eq_false_2 by done.
    cbn [fst snd]. by rewrite Hb, Ha. }
  rewrite rfold_cons, (Hstep _ _ _ _ Hoff1 Hon1).
  cbn [mbind result_bind rbind].
  rewrite rfold_cons, (Hstep _ _ _ _ Hoff2 Hon2).
  cbn [mbind result_bind rbind rfold].
  by exists off2, on2.
Qed.

Lemma Node_tpm_repeated_index_witness :
  ∃ off on,
    Node_tpm copy_tpm_of_1 [1] [0; 0] = Ok (Two off on)
    ∧ tforall (fun q => (q == 1 / 2)%Q) (tzip Qplus off on).
Proof.
  apply (Node_tpm_repeated_index [true; true] copy_tpm_of_1 [1] 0).
  - vm_compute. tauto.
  - reflexivity.
  - intros H. apply list_elem_of_singleton in H. discriminate.
Defined.

(** X20.  A node built by [Node.__init__] from a table with an axis of
    length 2 for each of the [n] nodes, with all the nodes as indices:
    [expand_tpm] over all the nodes returns an array that has again an
    axis of length 2 for every node, and that does not depend on the state
    of the nodes that are not inputs of the node. *)
Theorem expand_tpm_full (n : nat) (tpm_on : tensor)
    (input_indices : list nat) :
  has_shape (replicate n true) tpm_on ->
  ∃ tpm t,
    Node_tpm tpm_on input_indices (seq 0 n) = Ok tpm
    ∧ expand_tpm tpm input_indices (seq 0 n) = Ok t
    ∧ has_shape (replicate n true) t
    ∧ ∀ i, i < n -> i ∉ input_indices -> const_along i t.
Proof.
  intros Hshape. unfold Node_tpm.
  destruct (Node_tpm_loop input_indices (seq 0 n) (replicate n true)
              (tmap (fun q => (1 - q)%Q) tpm_on) tpm_on)
    as (off & on & -> & _ & Hon & _).
  { apply NoDup_seq. }
  { apply Forall_forall. intros i Hi. apply elem_of_seq in Hi.
    right. apply lookup_replicate_2. lia. }
  { by apply has_shape_tmap. }
  { done. }
  { apply complementary_initial. }
  cbn [mbind result_bind rbind fst snd].
  exists (Two off on). eexists. split; [reflexivity|].
  unfold expand_tpm. cbn [second_row mbind result_bind rbind].
  split; [reflexivity|].
  set (S := clear_axes (filter (fun i => i ∉ input_indices) (seq 0 n))
                       (replicate n true)) in *.
  set (U := fmap (fun index =>
                    bool_decide (index ∈ seq 0 n ∧ index ∉ input_indices))
                 (seq 0 n)).
  assert (HlenS : length S = n).
  { unfold S. by rewrite clear_axes_length, length_replicate. }
  assert (HlenU : length U = n).
  { unfold U. by rewrite length_fmap, length_seq. }
  assert (HS_in : ∀ i, i < n -> i ∈ input_indices -> S !! i = Some true).
  { intros i Hi Hin. unfold S. rewrite clear_axes_other.
    - by apply lookup_replicate_2.
    - rewrite list_elem_of_filter. by intros [Hout _]. }
  assert (HS_out : ∀ i, i < n -> i ∉ input_indices -> S !! i = Some false).
  { intros i Hi Hout. unfold S. apply clear_axes_cut.
    - apply list_elem_of_filter. split; [done|]. apply elem_of_seq. lia.
    - by rewrite length_replicate. }
  assert (HU : ∀ i, i < n -> i ∉ input_indices -> U !! i = Some true).
  { intros i Hi Hout. unfold U.
    rewrite list_lookup_fmap, lookup_seq_lt by done. simpl.
    rewrite bool_decide_eq_true_2; [done|].
    split; [|done]. apply elem_of_seq. lia. }
  assert (Hcover : zip_with orb S U = replicate n true).
  { apply list_eq. intros i. rewrite lookup_zip_with.
    destruct (decide (i < n)) as [Hi|Hi].
    - rewrite lookup_replicate_2 by done.
      destruct (decide (i ∈ input_indices)) as [Hin|Hout].
      + rewrite HS_in by done. simpl.
        destruct (lookup_lt_is_Some_2 U i) as [u ->]; [lia|]. done.
      + rewrite HS_out, HU by done. done.
    - rewrite (lookup_ge_None_2 S) by lia.
      rewrite (lookup_ge_None_2 (replicate n true))
        by (rewrite length_replicate; lia).
      done. }
  unfold broadcast_multiply.
  rewrite (ndim_has_shape _ _ Hon), (ndim_has_shape _ _ (has_shape_np_ones U)).
  rewrite HlenS, HlenU, Nat.max_id, Nat.sub_diag.
  unfold singleton_axes, np_multiply. simpl Nat.iter. split.
  - rewrite <- Hcover. apply has_shape_tzip; [lia|done|].
    apply has_shape_np_ones.
  - intros i Hi Hout. apply (const_along_tzip_r Qmult S U); try done.
    + lia.
    + apply has_shape_np_ones.
    + by apply HS_out.
    + apply const_along_np_ones. by apply HU.
Qed.

Lemma expand_tpm_full_witness :
  ∃ tpm t,
    Node_tpm copy_tpm_of_1 [1] (seq 0 2) = Ok tpm
    ∧ expand_tpm tpm [1] (seq 0 2) = Ok t
    ∧ has_shape [true; true] t.
Proof.
  destruct (expand_tpm_full 2 copy_tpm_of_1 [1])
    as (tpm & t & Hnode & Hexpand & Hshape & _).
  - vm_compute. tauto.
  - exists tpm, t. split; [exact Hnode|]. split; [exact Hexpand|exact Hshape].
Defined.
